(** * i18nWeave: the translation synchronisation pipeline

    A shallow embedding of the parts of the extension that propagate a change
    of one locale file to its sibling locale files:

    - [TranslationModule] (translation-module.ts): diff, relevant-change
      filter, translation of the missing values, application to the siblings;
    - [TranslationStore] (translation-store.ts): the cached parsed content of
      every translation file and the diff against it;
    - [BaseActionModule] (baseActionModule.ts): the chain of action modules;
    - [FileWatcherCreator] (fileWatcherCreator.ts): the change callback of a
      file watcher and the creation of the watchers;
    - [environmentUtilities] (environmentUtilities.ts) and the sources of
      [I18nextScannerService.scanCode].

    Conventions of the embedding.

    - A JavaScript value that may be [undefined] is an [option value]
      ([jsval]); [None] is [undefined]. Trees held in files never contain
      [undefined].
    - A string is a sequence of UTF-16 code units. The model has the code
      units below 256, one character of a Rocq string each; a code unit
      outside this range has no representation (it is not spelled as
      several bytes).
    - A property read answers the own properties of a value first and then
      what the value inherits from the built-in prototypes. Those objects
      belong to the engine: what they answer is a parameter, the [Realm] of
      the [World].
    - The code is asynchronous but single threaded; one event is run from
      start to end, every [await] is sequenced in program order.
    - The singletons (stores, status bar, logger, workspace files) are the
      fields of one [World]; a method is a function in the monad [M], which
      threads the world and an exception.
    - The text of a file is represented by what the code observes of it
      through [JSON.parse] and [endsWith('\n')], see [Text]; a [Uri] by its
      [fsPath] and by the string it is printed as. *)

From stdpp Require Import gmap strings list fin_maps pretty.
From Stdlib Require Import ZArith Ascii.

Open Scope string_scope.
Open Scope list_scope.

(** ** JavaScript values *)

(** The values [JSON.parse] produces. An object keeps its members in
    insertion order; a number's payload is never inspected by this code and
    is kept as an integer. *)
#[warnings="-register-all"]
Inductive value : Type :=
| VNull
| VBool (b : bool)
| VNumber (n : Z)
| VString (s : string)
| VArray (items : list value)
| VObject (members : list (string * value)).

(** A value that may be [undefined]. *)
Abbreviation jsval := (option value).
Abbreviation undefined := (@None value).

(** A segment of a diff path: [string | number]. *)
Inductive key : Type :=
| KString (s : string)
| KIndex (i : nat).

(** The property name a key denotes ([obj[1]] reads the property ["1"]). *)
Definition key_name (k : key) : string :=
  match k with
  | KString s => s
  | KIndex i => pretty i
  end.

Definition digit_of_ascii (c : ascii) : option nat :=
  let n := nat_of_ascii c in
  if bool_decide (48 ≤ n ∧ n ≤ 57)%nat then Some (n - 48)%nat else None.

Fixpoint digits_value (acc : nat) (s : string) : option nat :=
  match s with
  | EmptyString => Some acc
  | String c s' =>
      match digit_of_ascii c with
      | Some d => digits_value (10 * acc + d)%nat s'
      | None => None
      end
  end.

(** The array index a property name denotes, if any: the canonical decimal
    spelling of a number (["0"], ["12"], not ["01"] or [""]). A number used
    as a key is first turned into its name, as in JavaScript. *)
Definition array_index (name : string) : option nat :=
  match name with
  | EmptyString => None
  | String _ _ =>
      match digits_value 0 name with
      | Some n => if bool_decide (pretty n = name) then Some n else None
      | None => None
      end
  end.

(** Own property of an object: the first member with that name. *)
Fixpoint lookup_member (name : string) (members : list (string * value)) : jsval :=
  match members with
  | [] => undefined
  | (k, v) :: rest => if bool_decide (k = name) then Some v else lookup_member name rest
  end.

(** The code units of a string, each as a string of length one: what
    [s[0]], [s[1]], ... answer. *)
Fixpoint string_chars (s : string) : list string :=
  match s with
  | EmptyString => []
  | String c s' => String c EmptyString :: string_chars s'
  end.

(** The own properties of a value, the ones it does not inherit: the
    members of an object; the elements and the ["length"] of an array; the
    code units and the ["length"] of a string. A number, a boolean and [null]
    have none. *)
Definition own_property (obj : value) (k : key) : jsval :=
  match obj with
  | VNull => undefined
  | VBool _ => undefined
  | VNumber _ => undefined
  | VObject members => lookup_member (key_name k) members
  | VArray items =>
      match array_index (key_name k) with
      | Some i => items !! i
      | None =>
          if bool_decide (key_name k = "length")
          then Some (VNumber (Z.of_nat (length items))) else undefined
      end
  | VString s =>
      match array_index (key_name k) with
      | Some i => VString <$> (string_chars s !! i)
      | None =>
          if bool_decide (key_name k = "length")
          then Some (VNumber (Z.of_nat (String.length s))) else undefined
      end
  end.

(** The path inside a tree: own properties only. *)
Definition own_resolve (path : list key) (target : value) : jsval :=
  fold_left (fun obj k => obj ≫= fun v => own_property v k) path (Some target).

(** ** Diff entries (deep-diff's [Diff]) *)

(** ['N'] a new key (Added), ['D'] a deleted key, ['E'] an edited value,
    ['A'] a change inside an array. *)
Inductive Kind : Type := KindN | KindD | KindE | KindA.

Global Instance Kind_eq_dec : EqDecision Kind.
Proof. solve_decision. Defined.

(** The [item] of an array change: a nested ['N'] or ['D'] without path. *)
Record ArrayItem : Type := mkArrayItem {
  item_kind : Kind;
  item_lhs : jsval;
  item_rhs : jsval
}.

(** One diff entry. A field the entry does not carry is [None]; the root of
    the tree has no [path] at all. *)
Record Change : Type := mkChange {
  kind : Kind;
  path : option (list key);
  lhs : jsval;
  rhs : jsval;
  index : option nat;
  item : option ArrayItem
}.

Definition DiffNew (p : list key) (r : value) : Change :=
  mkChange KindN (Some p) undefined (Some r) None None.
Definition DiffDeleted (p : list key) (l : value) : Change :=
  mkChange KindD (Some p) (Some l) undefined None None.
Definition DiffEdit (p : list key) (l r : value) : Change :=
  mkChange KindE (Some p) (Some l) (Some r) None None.

(** [{ ...change, rhs: r }] *)
Definition with_rhs (change : Change) (r : jsval) : Change :=
  mkChange (kind change) (path change) (lhs change) r (index change) (item change).

(** ** TranslationModule: the relevant-change filter *)

(** [getAllStringValues]. [for (const key in obj)] enumerates the members of
    an object, the indices of an array and the indices of a string; it
    enumerates nothing for a number, a boolean, [null] or [undefined]. *)
Fixpoint getAllStringValues_of (obj : value) : list string :=
  match obj with
  | VObject members =>
      (fix members_loop (ms : list (string * value)) : list string :=
         match ms with
         | [] => []
         | (_, v) :: rest =>
             (match v with
              | VString s => [s]
              | VObject _ | VArray _ => getAllStringValues_of v
              | VNull | VBool _ | VNumber _ => []
              end) ++ members_loop rest
         end) members
  | VArray items =>
      (fix items_loop (vs : list value) : list string :=
         match vs with
         | [] => []
         | v :: rest =>
             (match v with
              | VString s => [s]
              | VObject _ | VArray _ => getAllStringValues_of v
              | VNull | VBool _ | VNumber _ => []
              end) ++ items_loop rest
         end) items
  | VString s => string_chars s
  | VNull | VBool _ | VNumber _ => []
  end.

Definition getAllStringValues (obj : jsval) : list string :=
  match obj with
  | Some v => getAllStringValues_of v
  | None => []
  end.

(** [rhs !== ''] *)
Definition is_empty_string (v : jsval) : bool :=
  match v with
  | Some (VString EmptyString) => true
  | _ => false
  end.

Definition nonempty_string (s : string) : bool :=
  match s with
  | EmptyString => false
  | String _ _ => true
  end.

(** The test of [extractRelevantChanges]:
    [(kind === 'N' || kind === 'E') && rhs !== '' &&
     this.getAllStringValues(rhs).filter(value => value !== '').length > 0] *)
Definition is_relevant (change : Change) : bool :=
  (bool_decide (kind change = KindN) || bool_decide (kind change = KindE))
  && negb (is_empty_string (rhs change))
  && (0 <? length (filter (fun s => nonempty_string s = true)
                          (getAllStringValues (rhs change))))%nat.

Definition extractRelevantChanges (diffs : list Change) : list Change :=
  filter (fun change => is_relevant change = true) diffs.

(** ** Text, exceptions and the world *)

(** The text of a file, as far as the code observes it. [JsonText v n nl] is
    a text [JSON.parse] accepts: the serialisation of the tree [v], printed
    with indentation [n], with or without a final newline.
    [Malformed raw message] is a text [JSON.parse] rejects (the empty text
    among them), with the message of the [SyntaxError] the engine throws for
    it. *)
Inductive Text : Type :=
| Malformed (raw : string) (message : string)
| JsonText (content : value) (indent : nat) (trailingNewline : bool).

Inductive Error : Type :=
| SyntaxError (message : string)
| TypeError (message : string)
| ProviderError (message : string)
| FileSystemError (message : string).

Definition error_message (e : Error) : string :=
  match e with
  | SyntaxError m | TypeError m | ProviderError m | FileSystemError m => m
  end.

(** The outcome of a call: a value, or a thrown exception (a rejected
    promise). *)
Inductive Result (A : Type) : Type :=
| Ok (a : A)
| Throw (e : Error).
Arguments Ok {A} a.
Arguments Throw {A} e.

(** ** Property reads *)

(** The built-in prototypes behind the values of a parsed tree. *)
Inductive Prototype : Type :=
| ObjectPrototype
| ArrayPrototype
| StringPrototype
| NumberPrototype
| BooleanPrototype.

Global Instance Prototype_eq_dec : EqDecision Prototype.
Proof. solve_decision. Defined.

(** [null] has no prototype. *)
Definition prototype_of (v : value) : option Prototype :=
  match v with
  | VNull => None
  | VBool _ => Some BooleanPrototype
  | VNumber _ => Some NumberPrototype
  | VString _ => Some StringPrototype
  | VArray _ => Some ArrayPrototype
  | VObject _ => Some ObjectPrototype
  end.

(** What a property read can answer: a value as [JSON.parse] makes them, or
    a built-in object of the engine (a function such as
    [Object.prototype.toString], a prototype), known by its address.
    [None] is [undefined]. *)
Inductive anyval : Type :=
| Json (v : value)
| Native (address : nat).

Abbreviation jsany := (option anyval).

(** The built-in objects of the engine, as far as a property read meets
    them: what a prototype answers for a name the value does not own, and
    what a built-in object answers for a name. A read can throw (an accessor
    such as the [caller] of a built-in function does). Nothing is assumed
    of the answers. *)
Record Realm : Type := mkRealm {
  inherited : Prototype → string → Result jsany;
  native_property : nat → string → Result jsany
}.

(** [obj?.[key]]: optional chaining yields [undefined] on [undefined] and
    [null]; any other value answers its own property of that name and, when
    it has none, what its prototype chain answers. *)
Definition get_property (realm : Realm) (obj : jsany) (k : key) : Result jsany :=
  match obj with
  | None => Ok None
  | Some (Native address) => native_property realm address (key_name k)
  | Some (Json v) =>
      match own_property v k with
      | Some x => Ok (Some (Json x))
      | None =>
          match prototype_of v with
          | Some prototype => inherited realm prototype (key_name k)
          | None => Ok None
          end
      end
  end.

(** [path.reduce((obj, key) => obj?.[key], target)]; the first read that
    throws ends the [reduce]. *)
Fixpoint resolve (realm : Realm) (path : list key) (target : jsany) : Result jsany :=
  match path with
  | [] => Ok target
  | k :: rest =>
      match get_property realm target k with
      | Ok x => resolve realm rest x
      | Throw e => Throw e
      end
  end.

(** A [vscode.Uri], as far as the code reads it: its [fsPath] and the
    string it is printed as ([toString()], which a template literal
    calls). *)
Record Uri : Type := mkUri { fsPath : string; toString : string }.

Inductive LogLevel : Type := VERBOSE | INFO | WARN | ERROR.

Inductive StatusBarState : Type := Idle | Running.

(** The process-wide state one event runs against. *)
Record World : Type := mkWorld {
  (** the workspace file system: path to text *)
  files : gmap string Text;
  (** [TranslationStore._translationFileContents] *)
  translationFileContents : gmap string value;
  (** [FileLocationStore]: the translation files it knows *)
  translationFiles : list Uri;
  (** [FileLockStore]: the paths with a lock *)
  fileLocks : gset string;
  (** the [setTimeout] callbacks that will delete a lock, oldest first *)
  lockReleaseTimers : list string;
  (** [StatusBarManager] *)
  statusBar : StatusBarState;
  (** the lines the [Logger] wrote, oldest first *)
  logs : list (LogLevel * string);
  (** [TranslationService]: what a call answers *)
  translationProvider : list jsval → string → string → Result (list jsval);
  (** the calls made to the translation provider, oldest first *)
  providerCalls : list (list jsval * string * string);
  (** [GeneralConfiguration.format.numberOfSpacesForIndentation] *)
  numberOfSpacesForIndentation : nat;
  (** the built-in objects of the engine *)
  realm : Realm;
  (** the workspace file system: the error it answers a write of a text to
      a path with, if it refuses it *)
  writeFailure : string → Text → option Error
}.

Definition set_files (f : gmap string Text → gmap string Text) (w : World) : World :=
  mkWorld (f (files w)) (translationFileContents w) (translationFiles w)
    (fileLocks w) (lockReleaseTimers w) (statusBar w) (logs w)
    (translationProvider w) (providerCalls w) (numberOfSpacesForIndentation w)
    (realm w) (writeFailure w).

Definition set_translationFileContents
    (f : gmap string value → gmap string value) (w : World) : World :=
  mkWorld (files w) (f (translationFileContents w)) (translationFiles w)
    (fileLocks w) (lockReleaseTimers w) (statusBar w) (logs w)
    (translationProvider w) (providerCalls w) (numberOfSpacesForIndentation w)
    (realm w) (writeFailure w).

Definition set_translationFiles (f : list Uri → list Uri) (w : World) : World :=
  mkWorld (files w) (translationFileContents w) (f (translationFiles w))
    (fileLocks w) (lockReleaseTimers w) (statusBar w) (logs w)
    (translationProvider w) (providerCalls w) (numberOfSpacesForIndentation w)
    (realm w) (writeFailure w).

Definition set_fileLocks (f : gset string → gset string) (w : World) : World :=
  mkWorld (files w) (translationFileContents w) (translationFiles w)
    (f (fileLocks w)) (lockReleaseTimers w) (statusBar w) (logs w)
    (translationProvider w) (providerCalls w) (numberOfSpacesForIndentation w)
    (realm w) (writeFailure w).

Definition set_lockReleaseTimers (f : list string → list string) (w : World) : World :=
  mkWorld (files w) (translationFileContents w) (translationFiles w)
    (fileLocks w) (f (lockReleaseTimers w)) (statusBar w) (logs w)
    (translationProvider w) (providerCalls w) (numberOfSpacesForIndentation w)
    (realm w) (writeFailure w).

Definition set_statusBar (s : StatusBarState) (w : World) : World :=
  mkWorld (files w) (translationFileContents w) (translationFiles w)
    (fileLocks w) (lockReleaseTimers w) s (logs w)
    (translationProvider w) (providerCalls w) (numberOfSpacesForIndentation w)
    (realm w) (writeFailure w).

Definition set_logs (f : list (LogLevel * string) → list (LogLevel * string))
    (w : World) : World :=
  mkWorld (files w) (translationFileContents w) (translationFiles w)
    (fileLocks w) (lockReleaseTimers w) (statusBar w) (f (logs w))
    (translationProvider w) (providerCalls w) (numberOfSpacesForIndentation w)
    (realm w) (writeFailure w).

Definition set_providerCalls
    (f : list (list jsval * string * string) → list (list jsval * string * string))
    (w : World) : World :=
  mkWorld (files w) (translationFileContents w) (translationFiles w)
    (fileLocks w) (lockReleaseTimers w) (statusBar w) (logs w)
    (translationProvider w) (f (providerCalls w)) (numberOfSpacesForIndentation w)
    (realm w) (writeFailure w).

(** ** The monad of the methods: world passing with an exception *)

Definition M (A : Type) : Type := World → Result A * World.

Definition ret {A} (a : A) : M A := fun w => (Ok a, w).

Definition throw {A} (e : Error) : M A := fun w => (Throw e, w).

Definition bind {A B} (m : M A) (k : A → M B) : M B :=
  fun w =>
    match m w with
    | (Ok a, w') => k a w'
    | (Throw e, w') => (Throw e, w')
    end.

Notation "'let*' x := m 'in' k" := (bind m (fun x => k))
  (at level 10, x name, m at level 100, k at level 200,
   format "'[v' 'let*'  x  :=  m  'in'  '/' k ']'").
Notation "m ;; k" := (bind m (fun _ => k))
  (at level 100, k at level 200, right associativity, format "'[v' m  ;;  '/' k ']'").

Definition get_world : M World := fun w => (Ok w, w).

Definition modify (f : World → World) : M unit := fun w => (Ok tt, f w).

Definition lift {A} (r : Result A) : M A := fun w => (r, w).

(** [try { body } catch (error) { handler }] *)
Definition try_catch {A} (body : M A) (handler : Error → M A) : M A :=
  fun w =>
    match body w with
    | (Ok a, w') => (Ok a, w')
    | (Throw e, w') => handler e w'
    end.

(** [... finally { finalizer }]: the finalizer runs however the block ends
    and the block's outcome stands unless the finalizer throws. *)
Definition finally {A} (block : M A) (finalizer : M unit) : M A :=
  fun w =>
    match block w with
    | (r, w') =>
        match finalizer w' with
        | (Ok _, w'') => (r, w'')
        | (Throw e, w'') => (Throw e, w'')
        end
    end.

(** ** JSON.parse, JSON.stringify and the string tests *)

Definition JSON_parse (text : Text) : Result value :=
  match text with
  | JsonText v _ _ => Ok v
  | Malformed _ message => Throw (SyntaxError message)
  end.

(** [JSON.stringify(value, null, indent)]; its output has no final newline. *)
Definition JSON_stringify (v : value) (indent : nat) : Text :=
  JsonText v indent false.

Fixpoint last_ascii (s : string) : option ascii :=
  match s with
  | EmptyString => None
  | String c EmptyString => Some c
  | String _ s' => last_ascii s'
  end.

(** [text.endsWith('\n')] *)
Definition endsWith_newline (text : Text) : bool :=
  match text with
  | JsonText _ _ nl => nl
  | Malformed raw _ => bool_decide (last_ascii raw = Some "010"%char)
  end.

(** [text += '\n'] *)
Definition append_newline (text : Text) : Text :=
  match text with
  | JsonText v n _ => JsonText v n true
  | Malformed raw message => Malformed (raw ++ String "010"%char EmptyString) message
  end.

(** [!text]: only the empty text is falsy. *)
Definition is_empty_text (text : Text) : bool :=
  match text with
  | Malformed EmptyString _ => true
  | _ => false
  end.

(** ** The collaborators of the module *)

(** [Logger.log]; the time stamp and the class name are not kept. *)
Definition log (level : LogLevel) (message : string) : M unit :=
  modify (set_logs (fun l => l ++ [(level, message)])).

(** [FileReader.readWorkspaceFileAsync] *)
Definition readWorkspaceFileAsync (uri : Uri) : M Text :=
  let* w := get_world in
  match files w !! fsPath uri with
  | Some text => ret text
  | None => throw (FileSystemError ("Unable to read file " ++ fsPath uri))
  end.

(** Modelled from the spec: [FileWriter.writeToWorkspaceFileAsync] is not
    among the sources. Spec 5: [write(path, text) → ack]; spec 4.6 step 9 and
    7: a write can fail. The promise is rejected with the error of the file
    system and the file is as it was, or the file holds the text. *)
Definition writeToWorkspaceFileAsync (uri : Uri) (text : Text) : M unit :=
  let* w := get_world in
  match writeFailure w (fsPath uri) text with
  | Some error => throw error
  | None => modify (set_files (fun fs => <[fsPath uri := text]> fs))
  end.

(** [StatusBarManager.updateState] and [setIdle]; the message shown next to
    the state is not kept. *)
Definition updateState (state : StatusBarState) (message : string) : M unit :=
  modify (set_statusBar state).

Definition setIdle : M unit := modify (set_statusBar Idle).

(** [TranslationService.translateKeysAsync]: one call to the provider. *)
Definition translateKeysAsync (values : list jsval) (sourceLanguage targetLanguage : string)
    : M (list jsval) :=
  modify (set_providerCalls (fun c => c ++ [(values, sourceLanguage, targetLanguage)])) ;;
  let* w := get_world in
  lift (translationProvider w values sourceLanguage targetLanguage).

(** [FileLockStore]: [hasFileLock], [addLock], [delete]. *)
Definition hasFileLock (uri : Uri) : M bool :=
  let* w := get_world in
  ret (bool_decide (fsPath uri ∈ fileLocks w)).

Definition addLock (uri : Uri) : M unit :=
  modify (set_fileLocks (fun locks => locks ∪ {[fsPath uri]})).

Definition deleteLock (uri : Uri) : M unit :=
  modify (set_fileLocks (fun locks => locks ∖ {[fsPath uri]})).

(** [setTimeout(() => FileLockStore.getInstance().delete(fileUri), 500)]:
    the callback is queued; it does not run inside the event. *)
Definition scheduleLockRelease (uri : Uri) : M unit :=
  modify (set_lockReleaseTimers (fun timers => timers ++ [fsPath uri])).

(** [FileLocationStore.getTranslationFiles().map(file => file.metaData.uri)] *)
Definition getTranslationFiles : M (list Uri) :=
  let* w := get_world in
  ret (translationFiles w).

(** Modelled from the spec: [FileLocationStore.addOrUpdateFile] is not among
    the sources. Spec 4.6 step 2: register or refresh the file's path in the
    location index. A path the index already holds stays where it is. *)
Definition addOrUpdateFile (uri : Uri) : M unit :=
  modify (set_translationFiles (fun known =>
    if bool_decide (fsPath uri ∈ (fsPath <$> known)) then known else known ++ [uri])).

(** ** Paths *)

Fixpoint split_on (sep : ascii) (s : string) : list string :=
  match s with
  | EmptyString => [EmptyString]
  | String c s' =>
      match split_on sep s' with
      | [] => [String c EmptyString]
      | segment :: segments =>
          if bool_decide (c = sep) then EmptyString :: segment :: segments
          else String c segment :: segments
      end
  end.

(** [path.basename]: the last segment of a path. *)
Definition basename (p : string) : string :=
  List.last (split_on "/"%char p) EmptyString.

(** Modelled from the spec: [extractLocaleFromFileUri] is not among the
    sources. Spec 6: a locale file lives at
    [<locale-directory>/<namespace>.json]; the locale is the name of the
    directory that holds the file. *)
Definition extractLocaleFromFileUri (uri : Uri) : string :=
  match rev (split_on "/"%char (fsPath uri)) with
  | _ :: directory :: _ => directory
  | _ => EmptyString
  end.

(** ** The diff engine *)

Definition same_primitive (l r : value) : bool :=
  match l, r with
  | VNull, VNull => true
  | VBool a, VBool b => bool_decide (a = b)
  | VNumber a, VNumber b => bool_decide (a = b)
  | VString a, VString b => bool_decide (a = b)
  | _, _ => false
  end.

(** The [path] field of an entry at [currentPath]: absent at the root. *)
Definition path_field (currentPath : list key) : option (list key) :=
  match currentPath with
  | [] => None
  | _ :: _ => Some currentPath
  end.

Definition DiffArray (currentPath : list key) (i : nat) (it : ArrayItem) : Change :=
  mkChange KindA (path_field currentPath) undefined undefined (Some i) (Some it).

(** Array entries for the elements [vs] found from index [start] on, the
    last index first. *)
Definition array_tail_changes (currentPath : list key) (start : nat)
    (mk : value → ArrayItem) (vs : list value) : list Change :=
  rev (imap (fun i v => DiffArray currentPath (start + i) (mk v)) vs).

(** Modelled from the spec: [diffJsonObjects] (util-file-diff) is not among
    the sources. Spec 4.1: a structural diff of two JSON trees, an ordered
    list of entries in a deterministic key order, that recurses into nested
    objects and reports a value changing type as Edited; spec 3: an entry has
    a path, a kind among Added, Edited, Deleted and ArrayChange, the old and
    the new value. The order of the entries and the treatment of arrays are
    those of deep-diff, whose [Diff] type the module imports: the keys of
    the old object in their order (deleted, or compared), then the keys only
    the new object has (added); arrays compared from their last index down,
    a surplus element reported as an array change. *)
Fixpoint deepDiff (currentPath : list key) (old new : value) {struct old} : list Change :=
  match old, new with
  | VObject oldMembers, VObject newMembers =>
      (fix old_keys (ms : list (string * value)) : list Change :=
         match ms with
         | [] => []
         | (k, v) :: rest =>
             (match lookup_member k newMembers with
              | Some v' => deepDiff (currentPath ++ [KString k]) v v'
              | None => [DiffDeleted (currentPath ++ [KString k]) v]
              end) ++ old_keys rest
         end) oldMembers
      ++ flat_map (fun '(k, v) =>
           match lookup_member k oldMembers with
           | Some _ => []
           | None => [DiffNew (currentPath ++ [KString k]) v]
           end) newMembers
  | VArray oldItems, VArray newItems =>
      array_tail_changes currentPath (length newItems)
        (fun v => mkArrayItem KindD (Some v) undefined) (drop (length newItems) oldItems)
      ++ array_tail_changes currentPath (length oldItems)
        (fun v => mkArrayItem KindN undefined (Some v)) (drop (length oldItems) newItems)
      ++ (fix common (i : nat) (ls rs : list value) {struct ls} : list Change :=
            match ls, rs with
            | l :: ls', r :: rs' =>
                common (S i) ls' rs' ++ deepDiff (currentPath ++ [KIndex i]) l r
            | _, _ => []
            end) 0%nat oldItems newItems
  | _, _ =>
      if same_primitive old new then []
      else [mkChange KindE (path_field currentPath) (Some old) (Some new) None None]
  end.

(** Modelled from the spec: [diffJsonObjects] is the diff engine of spec 4.1
    run from the roots of the two trees, see [deepDiff]. No difference is
    the empty list. *)
Definition diffJsonObjects (old new : value) : list Change := deepDiff [] old new.

(** ** Changing a tree *)

Fixpoint replace_member (name : string) (v : value) (members : list (string * value))
    : list (string * value) :=
  match members with
  | [] => [(name, v)]
  | (k, v') :: rest =>
      if bool_decide (k = name) then (k, v) :: rest
      else (k, v') :: replace_member name v rest
  end.

Definition remove_member (name : string) (members : list (string * value))
    : list (string * value) :=
  filter (fun m => m.1 ≠ name) members.

(** [obj[key] = x]. An object gets or replaces the member; an array gets the
    element, growing with holes (printed as [null]) up to the index. A
    member set to [undefined] is not printed by [JSON.stringify] and is
    dropped here; a primitive is left as it is. *)
Definition set_property (obj : value) (k : key) (x : jsval) : value :=
  match obj with
  | VObject members =>
      match x with
      | Some v => VObject (replace_member (key_name k) v members)
      | None => VObject (remove_member (key_name k) members)
      end
  | VArray items =>
      match array_index (key_name k) with
      | Some i =>
          let v := default VNull x in
          if bool_decide (i < length items)%nat then VArray (<[i := v]> items)
          else VArray (items ++ replicate (i - length items) VNull ++ [v])
      | None => obj
      end
  | _ => obj
  end.

(** [delete obj[key]]; a deleted array element leaves a hole. *)
Definition delete_property (obj : value) (k : key) : value :=
  match obj with
  | VObject members => VObject (remove_member (key_name k) members)
  | VArray items =>
      match array_index (key_name k) with
      | Some i => VArray (<[i := VNull]> items)
      | None => obj
      end
  | _ => obj
  end.

(** The container an assignment creates on its way: an array before an
    index, an object before a name. *)
Definition fresh_container (next : key) : value :=
  match next with
  | KIndex _ => VArray []
  | KString _ => VObject []
  end.

(** Sets the value at a path, creating the containers that are missing on
    the way. The walk reads [it[key]] as any property read does: where the
    tree has no own property of that name but the prototype answers one, the
    walk leaves the tree and the assignment lands on an object of the engine;
    the tree is then as it was. *)
Fixpoint set_path (realm : Realm) (target : value) (p : list key) (x : jsval) : value :=
  match p with
  | [] => target
  | k :: rest =>
      match rest with
      | [] => set_property target k x
      | next :: _ =>
          match own_property target k with
          | Some child => set_property target k (Some (set_path realm child rest x))
          | None =>
              match get_property realm (Some (Json target)) k with
              | Ok None =>
                  set_property target k
                    (Some (set_path realm (fresh_container next) rest x))
              | _ => target
              end
          end
      end
  end.

(** Removes the value at a path; nothing happens when the path leads
    nowhere in the tree. *)
Fixpoint unset_path (target : value) (p : list key) : value :=
  match p with
  | [] => target
  | k :: rest =>
      match rest with
      | [] => delete_property target k
      | _ :: _ =>
          match own_property target k with
          | Some c => set_property target k (Some (unset_path c rest))
          | None => target
          end
      end
  end.

(** The [item] of an array change applied at [index]: a new element is
    stored, a deleted one is taken out. *)
Definition applyArrayChange (arr : value) (i : nat) (it : ArrayItem) : value :=
  match item_kind it with
  | KindN | KindE => set_property arr (KIndex i) (item_rhs it)
  | KindD =>
      match arr with
      | VArray items => VArray (take i items ++ drop (S i) items)
      | _ => arr
      end
  | KindA => arr
  end.

(** Modelled from the spec: [applyChange] (util-file-diff) is not among the
    sources. Spec 4.6 step 7 and 4.1: an Added or Edited entry sets the
    path's value, a Deleted entry removes the path, so that applying
    [Diff(A,B)] to [A] yields [B]; an array change applies its item at its
    index, as in deep-diff. An entry without a path changes nothing. The
    specification speaks of the target tree only: an assignment that lands
    on an object of the engine (see [set_path]) leaves the tree as it is, and
    the engine is taken to answer afterwards as it did before. *)
Definition applyChange (realm : Realm) (target : value) (change : Change) : value :=
  match path change with
  | None => target
  | Some p =>
      match kind change with
      | KindN | KindE => set_path realm target p (rhs change)
      | KindD => unset_path target p
      | KindA =>
          match index change, item change with
          | Some i, Some it =>
              match own_resolve p target with
              | Some arr => set_path realm target p (Some (applyArrayChange arr i it))
              | None =>
                  match resolve realm p (Some (Json target)) with
                  | Ok None =>
                      set_path realm target p (Some (applyArrayChange (VArray []) i it))
                  | _ => target
                  end
              end
          | _, _ => target
          end
      end
  end.

(** [path.join('.')] *)
Definition join_path (p : list key) : string :=
  match p with
  | [] => EmptyString
  | k :: rest => fold_left (fun acc k' => (acc ++ "." ++ key_name k')%string) rest (key_name k)
  end.

(** lodash's [unset(target, path)] for a path given as a string: the string
    names one member if the object has a member of that name, and a dotted
    path otherwise (the bracket syntax of lodash paths is not modelled). *)
Definition unset (target : value) (dotted : string) : value :=
  match target with
  | VObject members =>
      match lookup_member dotted members with
      | Some _ => delete_property target (KString dotted)
      | None => unset_path target (KString <$> split_on "."%char dotted)
      end
  | _ => unset_path target (KString <$> split_on "."%char dotted)
  end.

(** ** TranslationStore *)

(** [x ?? fallback]: the fallback stands in for [undefined] and [null]. *)
Definition nullish_coalesce (x : jsval) (fallback : value) : value :=
  match x with
  | None | Some VNull => fallback
  | Some v => v
  end.

(** [getTranslationFileDiffs]: [oldJsonObject ?? {}] stands in for a path the
    store does not hold. *)
Definition getTranslationFileDiffs (fileUri : Uri) (newJsonContent : Text)
    : M (list Change) :=
  let* newJsonObject := lift (JSON_parse newJsonContent) in
  let* w := get_world in
  let oldJsonObject := translationFileContents w !! fsPath fileUri in
  let diffs := diffJsonObjects (nullish_coalesce oldJsonObject (VObject [])) newJsonObject in
  ret diffs.

Definition updateEntry (fileUri : Uri) (updatedJsonContent : Text) : M unit :=
  let* updatedJsonObject := lift (JSON_parse updatedJsonContent) in
  modify (set_translationFileContents
            (fun contents => <[fsPath fileUri := updatedJsonObject]> contents)) ;;
  log VERBOSE ("Updated translation file " ++ fsPath fileUri ++ " in store").

Definition deleteEntry (fileUri : Uri) : M unit :=
  modify (set_translationFileContents (fun contents => delete (fsPath fileUri) contents)) ;;
  log VERBOSE ("Deleted translation file " ++ fsPath fileUri ++ " from store").

(** ** TranslationModule *)

Record TranslationModuleContext : Type := mkContext {
  inputPath : Uri;
  jsonContent : option Text
}.

Definition findRelatedFiles (currentFilePath : string) : M (list Uri) :=
  let* known := getTranslationFiles in
  ret (filter (fun fileUri =>
                 fsPath fileUri ≠ currentFilePath
                 ∧ basename (fsPath fileUri) = basename currentFilePath) known).

(** [currentValue === undefined || currentValue === null || currentValue === ''] *)
Definition is_missing (currentValue : jsany) : bool :=
  match currentValue with
  | None => true
  | Some (Json VNull) => true
  | Some (Json (VString EmptyString)) => true
  | Some _ => false
  end.

(** [change.path.reduce((obj, key) => obj?.[key], fileContent)]: an entry
    without a path has nothing to call [reduce] on. *)
Definition currentValueOf (realm : Realm) (change : Change) (fileContent : value)
    : Result jsany :=
  match path change with
  | Some p => resolve realm p (Some (Json fileContent))
  | None => Throw (TypeError "Cannot read properties of undefined (reading 'reduce')")
  end.

(** [changes.filter(change => ...)] of [translateChanges]: the changes whose
    path holds nothing in the file yet. *)
Fixpoint changesToTranslateFor (realm : Realm) (fileContent : value)
    (changes : list Change) : Result (list Change) :=
  match changes with
  | [] => Ok []
  | change :: rest =>
      match currentValueOf realm change fileContent with
      | Throw e => Throw e
      | Ok currentValue =>
          match changesToTranslateFor realm fileContent rest with
          | Throw e => Throw e
          | Ok kept => Ok (if is_missing currentValue then change :: kept else kept)
          end
      end
  end.

(** The loop of [translateChanges], from the table built so far. *)
Fixpoint translateChanges_loop (sourceLanguage : string) (changes : list Change)
    (targetFiles : list Uri) (translationsByLanguage : gmap string (list Change))
    : M (gmap string (list Change)) :=
  match targetFiles with
  | [] => ret translationsByLanguage
  | targetFile :: rest =>
      let targetLanguage := extractLocaleFromFileUri targetFile in
      let* text := readWorkspaceFileAsync targetFile in
      let* fileContent := lift (JSON_parse text) in
      let* w := get_world in
      let* changesToTranslate :=
        lift (changesToTranslateFor (realm w) fileContent changes) in
      if (0 <? length changesToTranslate)%nat then
        let valuesToTranslate := rhs <$> changesToTranslate in
        let* translatedValues :=
          translateKeysAsync valuesToTranslate sourceLanguage targetLanguage in
        translateChanges_loop sourceLanguage changes rest
          (<[targetLanguage :=
               imap (fun index change => with_rhs change (mjoin (translatedValues !! index)))
                    changesToTranslate]> translationsByLanguage)
      else
        translateChanges_loop sourceLanguage changes rest translationsByLanguage
  end.

Definition translateChanges (sourceLanguage : string) (changes : list Change)
    (targetFiles : list Uri) : M (gmap string (list Change)) :=
  translateChanges_loop sourceLanguage changes targetFiles ∅.

(** The body of the [forEach] of [applyDiffsToJSON]. An entry of kind ['N']
    matches neither branch. A read of the [reduce] that throws ends the
    [forEach]. *)
Definition applyDiffToJSON (realm : Realm) (target : value) (change : Change)
    : Result value :=
  match kind change with
  | KindD =>
      match path change with
      | Some p =>
          let dotted := join_path p in
          if bool_decide (dotted = EmptyString) then Ok target
          else Ok (unset target dotted)
      | None => Ok target
      end
  | KindE | KindA =>
      match path change with
      | Some p =>
          match resolve realm p (Some (Json target)) with
          | Ok (Some _) => Ok (applyChange realm target change)
          | Ok None => Ok target
          | Throw e => Throw e
          end
      | None => Ok target
      end
  | KindN => Ok target
  end.

Fixpoint applyDiffsToJSON_loop (realm : Realm) (target : value) (diffs : list Change)
    : Result value :=
  match diffs with
  | [] => Ok target
  | change :: rest =>
      match applyDiffToJSON realm target change with
      | Ok target' => applyDiffsToJSON_loop realm target' rest
      | Throw e => Throw e
      end
  end.

(** [diffs?.forEach(...)]: the language may have no entry in the table. *)
Definition applyDiffsToJSON (realm : Realm) (target : value)
    (diffs : option (list Change)) : Result value :=
  match diffs with
  | Some ds => applyDiffsToJSON_loop realm target ds
  | None => Ok target
  end.

(** One turn of the loop of [applyTranslationsToFiles].
    [fileShouldEndWithNewLine] is declared before the loop but is assigned in
    every turn before it is read. Only the read and the parse are inside the
    [try]: an exception of [applyDiffsToJSON] or of the write leaves the
    loop. The release of the lock is scheduled in the [then] of the write,
    so not when the write is rejected. *)
Definition applyTranslationsToFile (translationsByLanguage : gmap string (list Change))
    (indentation : nat) (fileUri : Uri) : M unit :=
  let* locked := hasFileLock fileUri in
  if locked then ret tt
  else
    let* parsed :=
      try_catch
        (let* fileContentAsString := readWorkspaceFileAsync fileUri in
         let fileShouldEndWithNewLine := endsWith_newline fileContentAsString in
         let* fileContent := lift (JSON_parse fileContentAsString) in
         ret (Some (fileContent, fileShouldEndWithNewLine)))
        (fun error =>
           log ERROR ("Failed to parse JSON content from file " ++ toString fileUri
                      ++ ": " ++ error_message error) ;;
           ret None) in
    match parsed with
    | None => ret tt
    | Some (fileContent, fileShouldEndWithNewLine) =>
        let targetLanguage := extractLocaleFromFileUri fileUri in
        let diffs := translationsByLanguage !! targetLanguage in
        let* w := get_world in
        let* fileContent := lift (applyDiffsToJSON (realm w) fileContent diffs) in
        let stringifiedContent := JSON_stringify fileContent indentation in
        let stringifiedContent :=
          if fileShouldEndWithNewLine && negb (endsWith_newline stringifiedContent)
          then append_newline stringifiedContent else stringifiedContent in
        addLock fileUri ;;
        writeToWorkspaceFileAsync fileUri stringifiedContent ;;
        scheduleLockRelease fileUri ;;
        updateEntry fileUri stringifiedContent
    end.

Fixpoint applyTranslationsToFiles (targetFiles : list Uri)
    (translationsByLanguage : gmap string (list Change)) (indentation : nat) : M unit :=
  match targetFiles with
  | [] => ret tt
  | fileUri :: rest =>
      applyTranslationsToFile translationsByLanguage indentation fileUri ;;
      applyTranslationsToFiles rest translationsByLanguage indentation
  end.

(** The [try] block of [doExecuteAsync]. *)
Definition translateAndApply (context : TranslationModuleContext) (content : Text)
    (changesToTranslate : list Change) (indentation : nat) : M unit :=
  updateState Running "Translating changes..." ;;
  let sourceLanguage := extractLocaleFromFileUri (inputPath context) in
  let* otherFiles := findRelatedFiles (fsPath (inputPath context)) in
  let* translationsByLanguage :=
    translateChanges sourceLanguage changesToTranslate otherFiles in
  applyTranslationsToFiles otherFiles translationsByLanguage indentation ;;
  updateEntry (inputPath context) content.

Definition doExecuteAsync (context : TranslationModuleContext) : M unit :=
  let* w := get_world in
  let indentation := numberOfSpacesForIndentation w in
  match jsonContent context with
  | None => ret tt
  | Some content =>
      if is_empty_text content then ret tt
      else
        let* diffs := getTranslationFileDiffs (inputPath context) content in
        match diffs with
        | [] =>
            log VERBOSE ("No diffs found for file " ++ fsPath (inputPath context)
                         ++ ". Skipping.")
        | _ :: _ =>
            addOrUpdateFile (inputPath context) ;;
            let changesToTranslate := extractRelevantChanges diffs in
            match changesToTranslate with
            | [] => log VERBOSE "No diff changes to translate. Skipping."
            | _ :: _ =>
                finally
                  (try_catch
                     (translateAndApply context content changesToTranslate indentation)
                     (fun error =>
                        log ERROR ("Error translating changes: " ++ error_message error)))
                  setIdle
            end
        end
  end.

(** ** BaseActionModule: the chain of action modules *)

Section BaseActionModule.
(** [ModuleContext], and the value the promise of [doExecute] resolves to.
    The source declares [Promise<void>]; whatever the logic of a module
    returns, [execute] does not look at it. *)
Context {ModuleContext R : Type}.

(** A module: its own logic ([doExecute]) and the next module of the
    chain, if one was set. *)
#[warnings="-register-all"]
Inductive ActionModule : Type :=
| mkActionModule (logic : ModuleContext → M R) (next : option ActionModule).

Definition doExecute (m : ActionModule) : ModuleContext → M R :=
  match m with mkActionModule logic _ => logic end.

Definition nextModule (m : ActionModule) : option ActionModule :=
  match m with mkActionModule _ next => next end.

Definition setNext (m : ActionModule) (module : option ActionModule) : ActionModule :=
  mkActionModule (doExecute m) module.

(** [execute]: [await this.doExecute(context)], then
    [if (this.nextModule) await this.nextModule.execute(context)]. *)
Fixpoint execute (m : ActionModule) (context : ModuleContext) : M unit :=
  match m with
  | mkActionModule logic next =>
      logic context ;;
      match next with
      | Some nextModule => execute nextModule context
      | None => ret tt
      end
  end.
End BaseActionModule.

Arguments ActionModule : clear implicits.

(** ** FileWatcherCreator: the change callback of a watcher *)

(** The callback registered with [fileWatcher.onDidChange] by
    [createFileWatchersForFilesMatchingGlobAsync] (both versions of the file
    register the same callback). A disable flag is a function without
    argument that reads the state of the extension; the handler is absent
    when the factory knows none for the file ([fileChangeHandler?.]). *)
Definition onDidChange (disableFlags : list (World → bool))
    (fileChangeHandler : option (Uri → M unit)) (uri : Uri) : M unit :=
  let* w := get_world in
  if negb (existsb (fun flag => flag w) disableFlags) then
    match fileChangeHandler with
    | Some handleFileChangeAsync => handleFileChangeAsync uri
    | None => ret tt
    end
  else ret tt.

(** ** The statements of the specification, as predicates *)

(** A tree holds a string that is not empty, at any depth. *)
Fixpoint has_nonempty_string_leaf (v : value) : bool :=
  match v with
  | VString s => nonempty_string s
  | VArray items =>
      (fix any_item (vs : list value) : bool :=
         match vs with
         | [] => false
         | x :: rest => has_nonempty_string_leaf x || any_item rest
         end) items
  | VObject members =>
      (fix any_member (ms : list (string * value)) : bool :=
         match ms with
         | [] => false
         | (_, x) :: rest => has_nonempty_string_leaf x || any_member rest
         end) members
  | VNull | VBool _ | VNumber _ => false
  end.

(** [typeof v === 'object' && v !== null]: objects and arrays. *)
Definition is_object (v : jsval) : bool :=
  match v with
  | Some (VObject _) | Some (VArray _) => true
  | _ => false
  end.

(** A number, a boolean or [null]. *)
Definition is_scalar (v : jsval) : bool :=
  match v with
  | Some VNull | Some (VBool _) | Some (VNumber _) => true
  | _ => false
  end.

Definition added_or_edited (change : Change) : bool :=
  bool_decide (kind change = KindN) || bool_decide (kind change = KindE).

(** Spec 4.6 step 3, word for word: the kind is Added or Edited; the new
    value is not empty; if the value is an object, it contains at least one
    non-empty string leaf. Empty is read as in step 6: missing, [null] or the
    empty string. *)
Definition relevant_as_specified (change : Change) : bool :=
  added_or_edited change
  && negb (is_missing (Json <$> rhs change))
  && (if is_object (rhs change)
      then has_nonempty_string_leaf (default VNull (rhs change)) else true).

(** What the filter keeps: the kind is Added or Edited and the new value is
    a non-empty string, or an object or array with a non-empty string leaf. *)
Definition relevant_exactly (change : Change) : bool :=
  added_or_edited change
  && match rhs change with
     | Some (VString s) => nonempty_string s
     | Some (VObject members) => has_nonempty_string_leaf (VObject members)
     | Some (VArray items) => has_nonempty_string_leaf (VArray items)
     | Some VNull | Some (VBool _) | Some (VNumber _) | None => false
     end.

(** ** Vocabulary of the proofs *)

(** Some string of the list is not empty. *)
Definition some_nonempty (l : list string) : bool :=
  (0 <? length (filter (fun s => nonempty_string s = true) l))%nat.

(** The state the translation phase of an event starts from: the file is
    registered in the location index and the status bar shows [Running]. *)
Definition translation_start (context : TranslationModuleContext) (w : World) : World :=
  set_statusBar Running (snd (addOrUpdateFile (inputPath context) w)).

(** The sibling files of the event: [findRelatedFiles] at that point. *)
Definition siblings (context : TranslationModuleContext) (w : World) : list Uri :=
  filter (fun fileUri =>
            fsPath fileUri ≠ fsPath (inputPath context)
            ∧ basename (fsPath fileUri) = basename (fsPath (inputPath context)))
         (translationFiles (translation_start context w)).

(** The world [w] after the provider calls [calls] were recorded. *)
Definition with_provider_calls (calls : list (list jsval * string * string))
    (w : World) : World :=
  set_providerCalls (fun made => made ++ calls) w.

(** A provider call made for the changes [changes] from the language
    [sourceLanguage]: every value it carries is the new value of one of the
    changes. *)
Definition call_for (sourceLanguage : string) (changes : list Change)
    (call : list jsval * string * string) : Prop :=
  call.1.2 = sourceLanguage
  ∧ ∀ v, v ∈ call.1.1 → ∃ change, change ∈ changes ∧ v = rhs change.

(** The text [applyTranslationsToFiles] writes back for a file whose text
    was [text], when the tree with the entries of its language applied is
    [applied]. *)
Definition rewritten_text (indentation : nat) (text : Text) (applied : value) : Text :=
  JsonText applied indentation (endsWith_newline text).

(** The world after [applyTranslationsToFiles] wrote [text] to a file. *)
Definition after_write (fileUri : Uri) (text : Text) (content : value) (w : World) : World :=
  set_logs (fun l => l ++ [(VERBOSE, ("Updated translation file " ++ fsPath fileUri
                                      ++ " in store")%string)])
    (set_translationFileContents (fun contents => <[fsPath fileUri := content]> contents)
       (set_lockReleaseTimers (fun timers => timers ++ [fsPath fileUri])
          (set_files (fun fs => <[fsPath fileUri := text]> fs)
             (set_fileLocks (fun locks => locks ∪ {[fsPath fileUri]}) w)))).

(** The world after [applyTranslationsToFiles] gave up on a file it could
    not read or parse. *)
Definition after_skip (fileUri : Uri) (e : Error) (w : World) : World :=
  set_logs (fun l => l ++ [(ERROR, ("Failed to parse JSON content from file "
                                    ++ toString fileUri ++ ": " ++ error_message e)%string)]) w.

(** The world after the [catch] and [finally] of [doExecuteAsync]. *)
Definition after_failure (e : Error) (w : World) : World :=
  set_statusBar Idle
    (set_logs (fun l => l ++ [(ERROR, ("Error translating changes: "
                                       ++ error_message e)%string)]) w).

(** The property names a path goes through. Two paths with the same names
    address the same place. *)
Definition names (p : list key) : list string := key_name <$> p.

(** The file content misses the path [p]: the [reduce] of the code answers
    [undefined], [null] or the empty string. *)
Definition misses (realm : Realm) (fileContent : value) (p : list key) : Prop :=
  ∃ x, resolve realm p (Some (Json fileContent)) = Ok x ∧ is_missing x = true.

(** The text is JSON and the path [p] resolves to nothing in it: the
    [reduce] of the code answers [undefined]. *)
Definition lacks (realm : Realm) (p : list key) (text : option Text) : Prop :=
  ∃ t n nl, text = Some (JsonText t n nl) ∧ resolve realm p (Some (Json t)) = Ok None.

(** An entry the apply phase cannot use to give [p] a value: its kind is
    Added or Edited and, if Edited, its path is not an ancestor of [p] (nor
    [p] itself). *)
Definition harmless_for (p : list key) (change : Change) : Prop :=
  (kind change = KindN ∨ kind change = KindE)
  ∧ ∀ q, kind change = KindE → path change = Some q → ¬ names q `prefix_of` names p.

(** Two paths that part ways: neither leads through the other. *)
Definition apart (p q : list key) : Prop :=
  ¬ names p `prefix_of` names q ∧ ¬ names q `prefix_of` names p.

(** An entry the apply phase cannot use to change what [p] resolves to: its
    kind is Added or Edited and, if Edited, its path and [p] part ways. *)
Definition independent_of (p : list key) (change : Change) : Prop :=
  (kind change = KindN ∨ kind change = KindE)
  ∧ ∀ q, kind change = KindE → path change = Some q → apart p q.

(** The text is JSON and the path [p] resolves to [v] in it. *)
Definition holds (realm : Realm) (p : list key) (v : jsany) (text : option Text) : Prop :=
  ∃ t n nl, text = Some (JsonText t n nl) ∧ resolve realm p (Some (Json t)) = Ok v.

(** The paths of the changes are those of one diff: two of them address
    the same place or part ways. *)
Definition prefix_free (changes : list Change) : Prop :=
  ∀ c1 c2 p1 p2,
    c1 ∈ changes → c2 ∈ changes → path c1 = Some p1 → path c2 = Some p2 →
    names p1 = names p2 ∨ apart p1 p2.

(** ** Induction on values *)

Section value_induction.
Variable P : value → Prop.
Hypothesis Hnull : P VNull.
Hypothesis Hbool : ∀ b, P (VBool b).
Hypothesis Hnumber : ∀ n, P (VNumber n).
Hypothesis Hstring : ∀ s, P (VString s).
Hypothesis Harray : ∀ items, Forall P items → P (VArray items).
Hypothesis Hobject : ∀ members, Forall (fun m => P m.2) members → P (VObject members).

Fixpoint value_ind_nested (v : value) : P v :=
  match v with
  | VNull => Hnull
  | VBool b => Hbool b
  | VNumber n => Hnumber n
  | VString s => Hstring s
  | VArray items =>
      Harray items
        ((fix items_ok (vs : list value) : Forall P vs :=
            match vs with
            | [] => List.Forall_nil P
            | x :: rest => List.Forall_cons P x rest (value_ind_nested x) (items_ok rest)
            end) items)
  | VObject members =>
      Hobject members
        ((fix members_ok (ms : list (string * value)) : Forall (fun m => P m.2) ms :=
            match ms with
            | [] => List.Forall_nil _
            | m :: rest =>
                List.Forall_cons (fun m => P m.2) m rest
                  (value_ind_nested m.2) (members_ok rest)
            end) members)
  end.
End value_induction.

(** ** Example data *)

(** The realm of the examples. A prototype answers a built-in object for
    each of its standard property names (ECMAScript 2023, with the legacy
    names of annex B) and [undefined] for any other name. No example reads a
    property of a built-in object; this realm answers [undefined] there. *)
Definition object_prototype_names : list string :=
  ["constructor"; "__defineGetter__"; "__defineSetter__"; "hasOwnProperty";
   "__lookupGetter__"; "__lookupSetter__"; "isPrototypeOf"; "propertyIsEnumerable";
   "toString"; "valueOf"; "__proto__"; "toLocaleString"].

Definition array_prototype_names : list string :=
  ["at"; "concat"; "copyWithin"; "fill"; "find"; "findIndex"; "findLast";
   "findLastIndex"; "lastIndexOf"; "pop"; "push"; "reverse"; "shift"; "unshift";
   "slice"; "sort"; "splice"; "includes"; "indexOf"; "join"; "keys"; "entries";
   "values"; "forEach"; "filter"; "flat"; "flatMap"; "map"; "every"; "some";
   "reduce"; "reduceRight"; "toReversed"; "toSorted"; "toSpliced"; "with"].

Definition string_prototype_names : list string :=
  ["anchor"; "at"; "big"; "blink"; "bold"; "charAt"; "charCodeAt"; "codePointAt";
   "concat"; "endsWith"; "fontcolor"; "fontsize"; "fixed"; "includes"; "indexOf";
   "isWellFormed"; "italics"; "lastIndexOf"; "link"; "localeCompare"; "match";
   "matchAll"; "normalize"; "padEnd"; "padStart"; "repeat"; "replace"; "replaceAll";
   "search"; "slice"; "small"; "split"; "strike"; "sub"; "substr"; "substring";
   "sup"; "startsWith"; "toWellFormed"; "trim"; "trimStart"; "trimLeft"; "trimEnd";
   "trimRight"; "toLocaleLowerCase"; "toLocaleUpperCase"; "toLowerCase";
   "toUpperCase"].

Definition number_prototype_names : list string :=
  ["toExponential"; "toFixed"; "toPrecision"].

Definition inherited_names (prototype : Prototype) : list string :=
  match prototype with
  | ObjectPrototype => object_prototype_names
  | ArrayPrototype => array_prototype_names ++ object_prototype_names
  | StringPrototype => string_prototype_names ++ object_prototype_names
  | NumberPrototype => number_prototype_names ++ object_prototype_names
  | BooleanPrototype => object_prototype_names
  end.

Fixpoint position (name : string) (l : list string) : option nat :=
  match l with
  | [] => None
  | x :: rest => if bool_decide (x = name) then Some 0%nat else S <$> position name rest
  end.

Definition prototype_base (prototype : Prototype) : nat :=
  match prototype with
  | ObjectPrototype => 0
  | ArrayPrototype => 100
  | StringPrototype => 200
  | NumberPrototype => 300
  | BooleanPrototype => 400
  end.

Definition standard_realm : Realm :=
  mkRealm
    (fun prototype name =>
       Ok ((fun i => Native (prototype_base prototype + i))
             <$> position name (inherited_names prototype)))
    (fun _ _ => Ok None).

(** A file system that accepts every write. *)
Definition accepts_every_write : string → Text → option Error := fun _ _ => None.

(** The URI of a file whose path needs no escaping. *)
Definition file_uri (p : string) : Uri := mkUri p ("file://" ++ p).

(** A world with no file, no lock and a provider that answers nothing. *)
Definition empty_world : World :=
  mkWorld ∅ ∅ [] ∅ [] Idle [] (fun _ _ _ => Ok []) [] 2 standard_realm accepts_every_write.

Definition en_common : Uri := file_uri "/workspace/locales/en/common.json".
Definition fr_common : Uri := file_uri "/workspace/locales/fr/common.json".
Definition de_common : Uri := file_uri "/workspace/locales/de/common.json".

(** [{"common":{"save":"Save"}}] and the same with ["cancel":"Cancel"]. *)
Definition en_save : value :=
  VObject [("common", VObject [("save", VString "Save")])].
Definition en_save_cancel : value :=
  VObject [("common", VObject [("save", VString "Save"); ("cancel", VString "Cancel")])].
Definition fr_save : value :=
  VObject [("common", VObject [("save", VString "Enregistrer")])].

(** A provider that knows one word. *)
Definition french_provider (values : list jsval) (sourceLanguage targetLanguage : string)
    : Result (list jsval) :=
  Ok ((fun v => match v with
                | Some (VString "Cancel") => Some (VString "Annuler")
                | _ => v
                end) <$> values).

(** The end-to-end example of the specification: [en/common.json] gains
    [common.cancel], [fr/common.json] has no such key. *)
Definition added_key_world : World :=
  mkWorld
    {[ fsPath en_common := JsonText en_save_cancel 2 true;
       fsPath fr_common := JsonText fr_save 2 true ]}
    {[ fsPath en_common := en_save; fsPath fr_common := fr_save ]}
    [en_common; fr_common] ∅ [] Idle [] french_provider [] 2
    standard_realm accepts_every_write.

Definition added_key_context : TranslationModuleContext :=
  mkContext en_common (Some (JsonText en_save_cancel 2 true)).

(** The reverse event: [en/common.json] loses [common.cancel]. *)
Definition deleted_key_world : World :=
  mkWorld
    {[ fsPath en_common := JsonText en_save 2 true;
       fsPath fr_common := JsonText fr_save 2 true ]}
    {[ fsPath en_common := en_save_cancel; fsPath fr_common := fr_save ]}
    [en_common; fr_common] ∅ [] Idle [] french_provider [] 2
    standard_realm accepts_every_write.

Definition deleted_key_context : TranslationModuleContext :=
  mkContext en_common (Some (JsonText en_save 2 true)).

(** An Added entry whose new value is a number. *)
Definition added_number : Change :=
  DiffNew [KString "common"; KString "retries"] (VNumber 3).

(** [en/common.json] fills the empty [common.cancel] in; the siblings hold
    the key with an empty value. *)
Definition en_cancel_empty : value :=
  VObject [("common", VObject [("save", VString "Save"); ("cancel", VString "")])].
Definition fr_cancel_empty : value :=
  VObject [("common", VObject [("save", VString "Enregistrer"); ("cancel", VString "")])].
Definition de_cancel_empty : value :=
  VObject [("common", VObject [("save", VString "Speichern"); ("cancel", VString "")])].

Definition edited_key_context : TranslationModuleContext :=
  mkContext en_common (Some (JsonText en_save_cancel 2 true)).

(** The usual course: the siblings hold [common.cancel] with an empty value
    and the provider answers. *)
Definition edited_key_world : World :=
  mkWorld
    {[ fsPath en_common := JsonText en_save_cancel 2 true;
       fsPath fr_common := JsonText fr_cancel_empty 2 true ]}
    {[ fsPath en_common := en_cancel_empty; fsPath fr_common := fr_cancel_empty ]}
    [en_common; fr_common] ∅ [] Idle [] french_provider [] 2
    standard_realm accepts_every_write.

(** A provider that is out of service. *)
Definition failing_provider (values : list jsval) (sourceLanguage targetLanguage : string)
    : Result (list jsval) :=
  Throw (ProviderError "quota exceeded").

Definition provider_down_world : World :=
  mkWorld
    {[ fsPath en_common := JsonText en_save_cancel 2 true;
       fsPath fr_common := JsonText fr_cancel_empty 2 true ]}
    {[ fsPath en_common := en_cancel_empty; fsPath fr_common := fr_cancel_empty ]}
    [en_common; fr_common] ∅ [] Idle [] failing_provider [] 2
    standard_realm accepts_every_write.

(** A text that is not JSON, with the message Node.js has for it. *)
Definition broken_text : Text :=
  Malformed "{ common: " "Expected property name or '}' in JSON at position 2".

(** [fr/common.json] holds text that is not JSON; [de/common.json] is
    sound and waits for a translation of [common.cancel]. *)
Definition malformed_sibling_world : World :=
  mkWorld
    {[ fsPath en_common := JsonText en_save_cancel 2 true;
       fsPath fr_common := broken_text;
       fsPath de_common := JsonText de_cancel_empty 2 true ]}
    {[ fsPath en_common := en_cancel_empty; fsPath de_common := de_cancel_empty ]}
    [en_common; fr_common; de_common] ∅ [] Idle [] french_provider [] 2
    standard_realm accepts_every_write.

(** A workspace with two applications that both have French texts of the
    same namespace. The one of [web] is translated already, the one of
    [admin] is not. *)
Definition web_en : Uri := file_uri "/workspace/apps/web/locales/en/common.json".
Definition web_fr : Uri := file_uri "/workspace/apps/web/locales/fr/common.json".
Definition admin_fr : Uri := file_uri "/workspace/apps/admin/locales/fr/common.json".

Definition greeting (text : string) : value :=
  VObject [("a", VObject [("b", VString text)])].

Definition greeting_provider (values : list jsval) (sourceLanguage targetLanguage : string)
    : Result (list jsval) :=
  Ok ((fun v => match v with
                | Some (VString "hello") => Some (VString "bonjour")
                | _ => v
                end) <$> values).

Definition two_french_files_world : World :=
  mkWorld
    {[ fsPath web_en := JsonText (greeting "hello") 2 true;
       fsPath web_fr := JsonText (greeting "ya") 2 true;
       fsPath admin_fr := JsonText (greeting "") 2 true ]}
    {[ fsPath web_en := greeting "hi";
       fsPath web_fr := greeting "ya";
       fsPath admin_fr := greeting "" ]}
    [web_en; web_fr; admin_fr] ∅ [] Idle [] greeting_provider [] 2
    standard_realm accepts_every_write.

Definition greeting_context : TranslationModuleContext :=
  mkContext web_en (Some (JsonText (greeting "hello") 2 true)).

(** A chain of two modules; the logic of the first answers [false]. *)
Definition second_module : ActionModule unit bool :=
  mkActionModule (fun _ => log INFO "second module" ;; ret true) None.
Definition first_module : ActionModule unit bool :=
  mkActionModule (fun _ => log INFO "first module" ;; ret false) (Some second_module).

(** A handler that leaves a line in the log, and a world in which the lock
    store holds the path of [fr_common]. *)
Definition logging_handler (uri : Uri) : M unit :=
  log INFO ("handled " ++ fsPath uri).
Definition locked_world : World :=
  mkWorld ∅ ∅ [] {[ fsPath fr_common ]} [] Idle [] (fun _ _ _ => Ok []) [] 2
    standard_realm accepts_every_write.

(** * Further parts of the code *)

(** ** TranslationStore: loading files *)

(** [s.endsWith(suffix)] *)
Definition endsWith (s suffix : string) : bool :=
  let n := String.length s in
  let m := String.length suffix in
  if (m <=? n)%nat then bool_decide (String.substring (n - m) m s = suffix) else false.

(** [addEntryAsync]: a path that does not end in [.json] is passed over. *)
Definition addEntryAsync (fileUri : Uri) : M unit :=
  if endsWith (fsPath fileUri) ".json" then
    let* rawData := readWorkspaceFileAsync fileUri in
    let* jsonObject := lift (JSON_parse rawData) in
    modify (set_translationFileContents
              (fun contents => <[fsPath fileUri := jsonObject]> contents)) ;;
    log VERBOSE ("Added translation file " ++ fsPath fileUri ++ " to store")
  else ret tt.

(** The loop of [initializeAsync]: every file is read, parsed and stored;
    nothing catches a file that cannot be read or parsed. *)
Fixpoint initialize_loop (fileLocations : list Uri) : M unit :=
  match fileLocations with
  | [] => ret tt
  | fileUri :: rest =>
      let* rawData := readWorkspaceFileAsync fileUri in
      let* jsonObject := lift (JSON_parse rawData) in
      modify (set_translationFileContents
                (fun contents => <[fsPath fileUri := jsonObject]> contents)) ;;
      log VERBOSE ("Added translation file " ++ fsPath fileUri ++ " to store") ;;
      initialize_loop rest
  end.

(** [initializeAsync]. [fileLocations] is what
    [FileStore.getInstance().getTranslationFiles().map(file => file.metaData.uri)]
    answers; [FileStore] is not among the sources. *)
Definition initializeAsync (fileLocations : list Uri) : M unit :=
  log INFO "Initializing translation store" ;;
  initialize_loop fileLocations ;;
  log INFO ("Added " ++ pretty (length fileLocations) ++ " translation files to store").

(** ** BaseActionModule: a chain as the list of its modules *)

(** The logic of a module and of every module after it, in the order of
    the chain. *)
Fixpoint chain_logics {ModuleContext R : Type} (m : ActionModule ModuleContext R)
    : list (ModuleContext → M R) :=
  match m with
  | mkActionModule logic next =>
      logic :: match next with
               | Some nextModule => chain_logics nextModule
               | None => []
               end
  end.

(** The logics run one after the other on the same context; the first
    exception ends the run. *)
Fixpoint run_in_order {ModuleContext R : Type} (logics : list (ModuleContext → M R))
    (context : ModuleContext) : M unit :=
  match logics with
  | [] => ret tt
  | logic :: rest => logic context ;; run_in_order rest context
  end.

(** ** FileWatcherCreator: the watchers *)

(** A [vscode.FileSystemWatcher], as far as this code uses it: the pattern
    it watches and the listeners registered with [onDidChange]. *)
Record FileSystemWatcher : Type := mkFileSystemWatcher {
  watchedPattern : string;
  changeListeners : list (Uri → M unit)
}.

(** [vscode.workspace.createFileSystemWatcher(pattern)] *)
Definition createFileSystemWatcher (pattern : string) : FileSystemWatcher :=
  mkFileSystemWatcher pattern [].

(** [fileWatcher.onDidChange(listener)] *)
Definition registerOnDidChange (fileWatcher : FileSystemWatcher) (listener : Uri → M unit)
    : FileSystemWatcher :=
  mkFileSystemWatcher (watchedPattern fileWatcher) (changeListeners fileWatcher ++ [listener]).

(** A change event of the file system reaches every listener of the
    watcher, in the order of their registration. *)
Fixpoint fire_listeners (listeners : list (Uri → M unit)) (uri : Uri) : M unit :=
  match listeners with
  | [] => ret tt
  | listener :: rest => listener uri ;; fire_listeners rest uri
  end.

Definition fireDidChange (fileWatcher : FileSystemWatcher) (uri : Uri) : M unit :=
  fire_listeners (changeListeners fileWatcher) uri.

(** [createFileWatcherForFile] *)
Definition createFileWatcherForFile (pattern : string) (onDidChangeListener : Uri → M unit)
    : FileSystemWatcher :=
  registerOnDidChange (createFileSystemWatcher pattern) onDidChangeListener.

(** [createFileWatchersForFilesMatchingGlobAsync]. [findFiles] is
    [vscode.workspace.findFiles] and [createFileChangeHandler] the method of
    [FileChangeHandlerFactory]; neither is among the sources. The callbacks of
    [fileURIs.map] have no [await] before their [push], so the watchers are
    pushed in the order of the files. *)
Definition createFileWatchersForFilesMatchingGlobAsync
    (findFiles : string → string → list Uri)
    (createFileChangeHandler : string → option (Uri → M unit))
    (exclude : string) (pattern : string) (disableFlags : list (World → bool))
    : list FileSystemWatcher :=
  (fun fileURI =>
     let path := fsPath fileURI in
     let fileWatcher := createFileSystemWatcher path in
     let fileChangeHandler := createFileChangeHandler path in
     registerOnDidChange fileWatcher (onDidChange disableFlags fileChangeHandler))
  <$> findFiles pattern exclude.

(** The two versions of the file differ by the directories they exclude. *)
Definition exclude_node_modules : string := "**/node_modules/**".
Definition exclude_node_modules_and_next : string := "**/{node_modules,.next}/**".

(** ** environmentUtilities *)

(** [getEnvironment]; the argument is [process.env.NODE_ENV]. *)
Definition getEnvironment (NODE_ENV : option string) : string :=
  match NODE_ENV with
  | Some v => if bool_decide (v ≠ "undefined") then v else "production"
  | None => "production"
  end.

Definition isDevelopment (NODE_ENV : option string) : bool :=
  bool_decide (getEnvironment NODE_ENV = "development").

Definition isProduction (NODE_ENV : option string) : bool :=
  bool_decide (getEnvironment NODE_ENV = "production").

(** ** I18nextScannerService: the sources to scan *)

(** The [scanSources] of [scanCode]: the TypeScript files of every code
    location, then the exclusion of their spec files, then the exclusion of
    [node_modules]. *)
Definition scanSources (codeFileLocations : list string) : list string :=
  ((fun location : string => (location ++ "/**/*.{ts,tsx}")%string) <$> codeFileLocations)
  ++ ((fun location : string => ("!" ++ location ++ "/**/*.spec.{ts,tsx}")%string)
      <$> codeFileLocations)
  ++ ["!node_modules/**"].

(** ** Vocabulary of the further properties *)

(** The changes of [changes] that the file [fileUri] misses in the world
    [w], as the filter of [translateChanges] finds them: none when the file
    cannot be read or parsed or when a read of the filter throws. *)
Definition candidates_of (w : World) (changes : list Change) (fileUri : Uri) : list Change :=
  match files w !! fsPath fileUri with
  | Some text =>
      match JSON_parse text with
      | Ok fileContent =>
          match changesToTranslateFor (realm w) fileContent changes with
          | Ok kept => kept
          | Throw _ => []
          end
      | Throw _ => []
      end
  | None => []
  end.

(** The call [translateChanges] makes for a file, if any. *)
Definition call_of (w : World) (sourceLanguage : string) (changes : list Change)
    (fileUri : Uri) : option (list jsval * string * string) :=
  match candidates_of w changes fileUri with
  | [] => None
  | c :: cs => Some (rhs <$> c :: cs, sourceLanguage, extractLocaleFromFileUri fileUri)
  end.

(** An entry [applyDiffsToJSON] passes over in [target]: an Added entry, an
    entry without path, or an Edited or array entry whose path the [reduce]
    of the code resolves to [undefined]. *)
Definition passed_over (realm : Realm) (target : value) (change : Change) : Prop :=
  (kind change = KindN)
  ∨ (path change = None)
  ∨ (kind change ≠ KindD
     ∧ ∃ p, path change = Some p ∧ resolve realm p (Some (Json target)) = Ok None).

(** The assignment [t[k] = x] does not make an array longer. *)
Definition in_place (t : value) (k : key) : Prop :=
  match t with
  | VArray items =>
      match array_index (key_name k) with
      | Some i => (i < length items)%nat
      | None => True
      end
  | _ => True
  end.


(** The array prototype answers no index: an array has the elements it
    owns and no other. So it is in every engine whose built-in objects were
    not given such properties. *)
Definition no_inherited_index (realm : Realm) : Prop :=
  ∀ name i, array_index name = Some i → inherited realm ArrayPrototype name = Ok None.

(** What the apply phase did to a file, from the world [w] to the world
    [w']. Nothing: *)
Definition untouched (name : string) (w w' : World) : Prop :=
  files w' !! name = files w !! name
  ∧ translationFileContents w' !! name = translationFileContents w !! name
  ∧ (name ∈ fileLocks w' ↔ name ∈ fileLocks w).

(** one rewrite of the text it had: the file was not locked and held JSON,
    the entries of its language were applied, the file system accepted the
    text; the store holds the new tree, the path is locked and the release
    of the lock is scheduled; *)
Definition rewritten (table : gmap string (list Change)) (indentation : nat)
    (fileUri : Uri) (w w' : World) : Prop :=
  ∃ text fileContent applied,
    (fsPath fileUri ∉ fileLocks w)
    ∧ files w !! fsPath fileUri = Some text
    ∧ JSON_parse text = Ok fileContent
    ∧ applyDiffsToJSON (realm w) fileContent (table !! extractLocaleFromFileUri fileUri)
      = Ok applied
    ∧ writeFailure w (fsPath fileUri) (rewritten_text indentation text applied) = None
    ∧ files w' !! fsPath fileUri = Some (rewritten_text indentation text applied)
    ∧ translationFileContents w' !! fsPath fileUri = Some applied
    ∧ fsPath fileUri ∈ fileLocks w'
    ∧ fsPath fileUri ∈ lockReleaseTimers w'.

(** or a write the file system refused with [e]: the lock was taken before
    the write and stays; the text and the entry of the store are what they
    were. *)
Definition refused (table : gmap string (list Change)) (indentation : nat)
    (fileUri : Uri) (e : Error) (w w' : World) : Prop :=
  ∃ text fileContent applied,
    (fsPath fileUri ∉ fileLocks w)
    ∧ files w !! fsPath fileUri = Some text
    ∧ JSON_parse text = Ok fileContent
    ∧ applyDiffsToJSON (realm w) fileContent (table !! extractLocaleFromFileUri fileUri)
      = Ok applied
    ∧ writeFailure w (fsPath fileUri) (rewritten_text indentation text applied) = Some e
    ∧ files w' !! fsPath fileUri = files w !! fsPath fileUri
    ∧ translationFileContents w' !! fsPath fileUri
      = translationFileContents w !! fsPath fileUri
    ∧ fsPath fileUri ∈ fileLocks w'.

(** The world after a write the file system refused: the lock taken
    before the write stays. *)
Definition after_refusal (fileUri : Uri) (w : World) : World :=
  set_fileLocks (fun locks => locks ∪ {[fsPath fileUri]}) w.

(** The apply phase has dealt with the files [seen] without exception and
    is in the world [w], having started in [w0]: [written] are the paths it
    wrote, in the order of the writes. *)
Definition progress (table : gmap string (list Change)) (indentation : nat)
    (seen : list Uri) (written : list string) (w0 w : World) : Prop :=
  realm w = realm w0
  ∧ writeFailure w = writeFailure w0
  ∧ lockReleaseTimers w = lockReleaseTimers w0 ++ written
  ∧ NoDup written
  ∧ (∀ name, name ∈ written →
       ∃ fileUri, fileUri ∈ seen ∧ fsPath fileUri = name
                  ∧ rewritten table indentation fileUri w0 w)
  ∧ (∀ name, name ∉ written → untouched name w0 w)
  ∧ (∀ fileUri text fileContent,
       fileUri ∈ seen → fsPath fileUri ∉ fileLocks w0 →
       files w0 !! fsPath fileUri = Some text → JSON_parse text = Ok fileContent →
       fsPath fileUri ∈ written).

(** What the apply phase over [targetFiles] did from [w] to [w'], ending
    with [outcome]: the paths [written], each rewritten once; any other path
    untouched, but for the path whose write was refused, if that is how the
    phase ended. *)
Definition apply_account (table : gmap string (list Change)) (indentation : nat)
    (targetFiles : list Uri) (written : list string) (outcome : Result unit)
    (w w' : World) : Prop :=
  realm w' = realm w
  ∧ writeFailure w' = writeFailure w
  ∧ lockReleaseTimers w' = lockReleaseTimers w ++ written
  ∧ NoDup written
  ∧ (∀ name, name ∈ written →
       ∃ fileUri, fileUri ∈ targetFiles ∧ fsPath fileUri = name
                  ∧ rewritten table indentation fileUri w w')
  ∧ (∀ name, name ∉ written →
       untouched name w w'
       ∨ ∃ fileUri e, fileUri ∈ targetFiles ∧ fsPath fileUri = name
                      ∧ refused table indentation fileUri e w w'
                      ∧ outcome = Throw e)
  ∧ (outcome = Ok tt →
     ∀ fileUri text fileContent,
       fileUri ∈ targetFiles → fsPath fileUri ∉ fileLocks w →
       files w !! fsPath fileUri = Some text → JSON_parse text = Ok fileContent →
       fsPath fileUri ∈ written).

(** ** Further example data *)

(** [fr/common.json] is locked when the event of [edited_key_world] starts. *)
Definition fr_locked_world : World :=
  set_fileLocks (fun locks => locks ∪ {[fsPath fr_common]}) edited_key_world.

(** The table the translation phase builds in [edited_key_world]. *)
Definition cancel_edit : Change :=
  DiffEdit [KString "common"; KString "cancel"] (VString "") (VString "Cancel").
Definition annuler_table : gmap string (list Change) :=
  {[ "fr" := [DiffEdit [KString "common"; KString "cancel"] (VString "")
                (VString "Annuler")] ]}.

(** The edit of [two_french_files_world]. *)
Definition greeting_edit : Change :=
  DiffEdit [KString "a"; KString "b"] (VString "hi") (VString "hello").

(** [en/common.json] is saved with an array at its root; the store has no
    baseline for it. *)
Definition root_array_context : TranslationModuleContext :=
  mkContext en_common (Some (JsonText (VArray [VString "Save"]) 2 true)).
Definition root_array_world : World :=
  mkWorld
    {[ fsPath en_common := JsonText (VArray [VString "Save"]) 2 true;
       fsPath fr_common := JsonText fr_save 2 true ]}
    ∅ [en_common; fr_common] ∅ [] Idle [] french_provider [] 2
    standard_realm accepts_every_write.

(** A save of text that is not JSON. *)
Definition broken_save_context : TranslationModuleContext :=
  mkContext en_common (Some broken_text).

(** The file system refuses to write [fr/common.json]. *)
Definition access_denied : Error := FileSystemError "EACCES: permission denied".
Definition fr_read_only : string → Text → option Error :=
  fun name _ => if bool_decide (name = fsPath fr_common) then Some access_denied else None.
Definition fr_read_only_world : World :=
  mkWorld
    {[ fsPath en_common := JsonText en_save_cancel 2 true;
       fsPath fr_common := JsonText fr_cancel_empty 2 true ]}
    {[ fsPath en_common := en_cancel_empty; fsPath fr_common := fr_cancel_empty ]}
    [en_common; fr_common] ∅ [] Idle [] french_provider [] 2
    standard_realm fr_read_only.

(** The same with a German sibling after the French one, and the table of
    the translations of both. *)
Definition annuler_abbrechen_table : gmap string (list Change) :=
  {[ "fr" := [DiffEdit [KString "common"; KString "cancel"] (VString "")
                (VString "Annuler")];
     "de" := [DiffEdit [KString "common"; KString "cancel"] (VString "")
                (VString "Abbrechen")] ]}.
Definition fr_read_only_de_world : World :=
  mkWorld
    {[ fsPath en_common := JsonText en_save_cancel 2 true;
       fsPath fr_common := JsonText fr_cancel_empty 2 true;
       fsPath de_common := JsonText de_cancel_empty 2 true ]}
    {[ fsPath en_common := en_cancel_empty; fsPath fr_common := fr_cancel_empty;
       fsPath de_common := de_cancel_empty ]}
    [en_common; fr_common; de_common] ∅ [] Idle [] french_provider [] 2
    standard_realm fr_read_only.

(** [en/common.json] gains the key [constructor]; [fr/common.json] has no
    member of that name, and every object inherits a property of that name. *)
Definition en_constructor : value := VObject [("constructor", VString "Builder")].
Definition fr_other : value := VObject [("other", VString "Autre")].
Definition constructor_edit : Change :=
  DiffEdit [KString "constructor"] (VString "") (VString "Builder").

(** ** Vocabulary of the store *)

(** What reading and parsing the file of [fileUri] gives in the world [w]:
    the tree it holds, or the exception that is thrown. *)
Definition parsed_file (w : World) (fileUri : Uri) : option value :=
  match files w !! fsPath fileUri with
  | Some text =>
      match JSON_parse text with
      | Ok jsonObject => Some jsonObject
      | Throw _ => None
      end
  | None => None
  end.

Definition read_error (w : World) (fileUri : Uri) : option Error :=
  match files w !! fsPath fileUri with
  | Some text =>
      match JSON_parse text with
      | Ok _ => None
      | Throw e => Some e
      end
  | None => Some (FileSystemError ("Unable to read file " ++ fsPath fileUri)%string)
  end.

(** The line [initializeAsync] and [addEntryAsync] log for a file. *)
Definition added_line (fileUri : Uri) : LogLevel * string :=
  (VERBOSE, ("Added translation file " ++ fsPath fileUri ++ " to store")%string).

(** Two files of the workspace and a path that does not name a JSON file. *)
Definition two_files_world : World :=
  mkWorld
    {[ fsPath en_common := JsonText en_save 2 true;
       fsPath fr_common := JsonText fr_save 2 true;
       fsPath de_common := broken_text ]}
    ∅ [] ∅ [] Idle [] (fun _ _ _ => Ok []) [] 2
    standard_realm accepts_every_write.
Definition readme : Uri := file_uri "/workspace/locales/README.md".

(** A module whose logic throws, before [second_module]. *)
Definition throwing_module : ActionModule unit bool :=
  mkActionModule (fun _ => throw (TypeError "not a function")) (Some second_module).

(** * Properties *)

(** ** The relevant-change filter *)

Lemma some_nonempty_app (a b : list string) :
  some_nonempty (a ++ b) = some_nonempty a || some_nonempty b.
Proof.
  unfold some_nonempty. rewrite filter_app, length_app.
  destruct (length (filter _ a)), (length (filter _ b)); reflexivity.
Qed.

Lemma some_nonempty_singleton (s : string) : some_nonempty [s] = nonempty_string s.
Proof. destruct s; reflexivity. Qed.

Lemma some_nonempty_string_chars (s : string) :
  some_nonempty (string_chars s) = nonempty_string s.
Proof. destruct s; reflexivity. Qed.

(** The strings [getAllStringValues] collects include a non-empty one
    exactly when the value has a non-empty string leaf; for a string, when
    the string itself is not empty. *)
Lemma getAllStringValues_of_leaf (v : value) :
  some_nonempty (getAllStringValues_of v) = has_nonempty_string_leaf v.
Proof.
  induction v as [| | | s | items IH | members IH] using value_ind_nested;
    try reflexivity.
  - apply some_nonempty_string_chars.
  - simpl. induction IH as [| x rest Hx _ IHrest]; [reflexivity |].
    rewrite some_nonempty_app, IHrest. f_equal.
    destruct x; try reflexivity; try exact Hx.
    apply some_nonempty_singleton.
  - simpl. induction IH as [| [k x] rest Hx _ IHrest]; [reflexivity |].
    rewrite some_nonempty_app, IHrest. f_equal. simpl in Hx.
    destruct x; try reflexivity; try exact Hx.
    apply some_nonempty_singleton.
Qed.

Lemma is_relevant_leaf (change : Change) :
  is_relevant change =
  added_or_edited change
  && match rhs change with
     | Some v => has_nonempty_string_leaf v
     | None => false
     end.
Proof.
  unfold is_relevant, added_or_edited. fold (some_nonempty (getAllStringValues (rhs change))).
  destruct (bool_decide (kind change = KindN) || bool_decide (kind change = KindE));
    [| reflexivity].
  destruct (rhs change) as [v |]; simpl; [| reflexivity].
  rewrite getAllStringValues_of_leaf.
  destruct v as [| | | [| c s] | |]; reflexivity.
Qed.

Lemma is_relevant_exactly (change : Change) :
  is_relevant change = relevant_exactly change.
Proof.
  rewrite is_relevant_leaf. unfold relevant_exactly.
  destruct (rhs change) as [[| | | | |] |]; reflexivity.
Qed.

Lemma is_relevant_scalar (change : Change) :
  is_scalar (rhs change) = true → is_relevant change = false.
Proof.
  intros Hs. rewrite is_relevant_leaf.
  destruct (rhs change) as [[| | | | |] |]; try discriminate; apply andb_false_r.
Qed.

Lemma is_relevant_kind (change : Change) :
  is_relevant change = true → kind change = KindN ∨ kind change = KindE.
Proof.
  rewrite is_relevant_leaf. unfold added_or_edited.
  intros H. apply andb_true_iff in H as [H _]. apply orb_true_iff in H as [H | H];
    apply bool_decide_eq_true in H; auto.
Qed.

Lemma extractRelevantChanges_deleted (diffs : list Change) :
  Forall (fun change => kind change = KindD) diffs → extractRelevantChanges diffs = [].
Proof.
  unfold extractRelevantChanges. induction 1 as [| c rest Hc _ IH]; [reflexivity |].
  rewrite filter_cons, IH. case_decide as Hrel; [| reflexivity].
  apply is_relevant_kind in Hrel. rewrite Hc in Hrel. destruct Hrel; discriminate.
Qed.

Lemma extractRelevantChanges_scalar (diffs : list Change) :
  Forall (fun change => is_scalar (rhs change) = true) diffs →
  extractRelevantChanges diffs = [].
Proof.
  unfold extractRelevantChanges. induction 1 as [| c rest Hc _ IH]; [reflexivity |].
  rewrite filter_cons, IH. case_decide as Hrel; [| reflexivity].
  rewrite (is_relevant_scalar c Hc) in Hrel. discriminate.
Qed.

Lemma extractRelevantChanges_nil : extractRelevantChanges [] = [].
Proof. reflexivity. Qed.

(** ** Reading and writing at a path *)

(** ** Reading and writing at a path *)

Lemma resolve_cons (realm : Realm) (k : key) (p : list key) (target : jsany) :
  resolve realm (k :: p) target =
  match get_property realm target k with
  | Ok x => resolve realm p x
  | Throw e => Throw e
  end.
Proof. reflexivity. Qed.

Lemma resolve_undefined (realm : Realm) (p : list key) : resolve realm p None = Ok None.
Proof. induction p as [| k p IH]; [reflexivity |]. rewrite resolve_cons. exact IH. Qed.

Lemma resolve_app (realm : Realm) (p r : list key) :
  ∀ target,
    resolve realm (p ++ r) target =
    match resolve realm p target with
    | Ok x => resolve realm r x
    | Throw e => Throw e
    end.
Proof.
  induction p as [| k p IH]; intros target; [reflexivity |].
  rewrite <- app_comm_cons, !resolve_cons.
  destruct (get_property realm target k) as [x | e]; [apply IH | reflexivity].
Qed.

Lemma array_index_name (name : string) (i : nat) :
  array_index name = Some i → name = pretty i.
Proof.
  unfold array_index. destruct name as [| c s]; [discriminate |].
  destruct (digits_value 0 (String c s)) as [n |]; [| discriminate].
  case_bool_decide as Hn; [| discriminate]. intros [= <-]. symmetry. exact Hn.
Qed.

Lemma own_property_name (t : value) (k k' : key) :
  key_name k = key_name k' → own_property t k = own_property t k'.
Proof. intros H. unfold own_property. rewrite H. reflexivity. Qed.

Lemma get_property_name (realm : Realm) (obj : jsany) (k k' : key) :
  key_name k = key_name k' → get_property realm obj k = get_property realm obj k'.
Proof.
  intros H. unfold get_property. destruct obj as [[v | address] |]; [| | reflexivity].
  - rewrite (own_property_name v k k' H), H. reflexivity.
  - rewrite H. reflexivity.
Qed.

Lemma resolve_names (realm : Realm) (p q : list key) :
  names p = names q → ∀ target, resolve realm p target = resolve realm q target.
Proof.
  revert q. induction p as [| k p IH]; intros [| k' q] Hnames target;
    try discriminate; [reflexivity |].
  unfold names in Hnames. simpl in Hnames. injection Hnames as Hk Hrest.
  rewrite !resolve_cons, (get_property_name realm target k k' Hk).
  destruct (get_property realm target k'); [apply IH; exact Hrest | reflexivity].
Qed.

(** A path that leads through [undefined] ends there. *)
Lemma resolve_through_undefined (realm : Realm) (p q : list key) (target : jsany) :
  names p `prefix_of` names q →
  resolve realm p target = Ok None →
  resolve realm q target = Ok None.
Proof.
  intros [rest Hrest] Hp. unfold names in Hrest.
  apply fmap_app_inv in Hrest as (p1 & r & Hp1 & _ & ->).
  rewrite resolve_app, <- (resolve_names realm p p1), Hp; [apply resolve_undefined |].
  unfold names. exact Hp1.
Qed.

Lemma lookup_replace_member_eq (name : string) (v : value)
    (members : list (string * value)) :
  lookup_member name (replace_member name v members) = Some v.
Proof.
  induction members as [| [k v'] rest IH]; simpl.
  - rewrite bool_decide_eq_true_2; reflexivity.
  - case_bool_decide as Hk; simpl.
    + rewrite bool_decide_eq_true_2; [reflexivity | exact Hk].
    + rewrite bool_decide_eq_false_2; [exact IH | exact Hk].
Qed.

Lemma lookup_replace_member_ne (name name' : string) (v : value)
    (members : list (string * value)) :
  name ≠ name' →
  lookup_member name' (replace_member name v members) = lookup_member name' members.
Proof.
  intros Hne. induction members as [| [k v'] rest IH]; simpl.
  - rewrite bool_decide_eq_false_2; [reflexivity | exact Hne].
  - case_bool_decide as Hk; simpl.
    + subst k. rewrite !bool_decide_eq_false_2 by exact Hne. reflexivity.
    + rewrite IH. reflexivity.
Qed.

Lemma lookup_remove_member_ne (name name' : string) (members : list (string * value)) :
  name ≠ name' →
  lookup_member name' (remove_member name members) = lookup_member name' members.
Proof.
  intros Hne. unfold remove_member.
  induction members as [| [k v'] rest IH]; [reflexivity |].
  rewrite filter_cons. simpl. case_decide as Hk; simpl.
  - rewrite IH. reflexivity.
  - subst k. rewrite bool_decide_eq_false_2 by exact Hne. exact IH.
Qed.

Lemma prototype_of_set_property (t : value) (k : key) (x : jsval) :
  prototype_of (set_property t k x) = prototype_of t.
Proof.
  destruct t as [| | | | items | members]; try reflexivity.
  - simpl. destruct (array_index (key_name k)); [| reflexivity].
    case_bool_decide; reflexivity.
  - simpl. destruct x; reflexivity.
Qed.

(** An assignment that does not make an array longer does not change what
    another name answers. *)
Lemma own_set_property_ne (t : value) (k k' : key) (x : jsval) :
  key_name k ≠ key_name k' →
  in_place t k →
  own_property (set_property t k x) k' = own_property t k'.
Proof.
  intros Hne Hplace. destruct t as [| | | | items | members]; try reflexivity.
  - unfold own_property, set_property, in_place in *.
    destruct (array_index (key_name k)) as [i |] eqn:Hi; [| reflexivity].
    rewrite bool_decide_eq_true_2 by exact Hplace.
    destruct (array_index (key_name k')) as [j |] eqn:Hj.
    + apply list_lookup_insert_ne. intros ->.
      apply array_index_name in Hi, Hj. congruence.
    + rewrite length_insert. reflexivity.
  - unfold own_property, set_property. destruct x as [v |].
    + apply lookup_replace_member_ne. exact Hne.
    + apply lookup_remove_member_ne. exact Hne.
Qed.

Lemma get_set_property_ne (realm : Realm) (t : value) (k k' : key) (x : jsval) :
  key_name k ≠ key_name k' →
  in_place t k →
  get_property realm (Some (Json (set_property t k x))) k'
  = get_property realm (Some (Json t)) k'.
Proof.
  intros Hne Hplace. unfold get_property.
  rewrite (own_set_property_ne t k k' x Hne Hplace), prototype_of_set_property.
  reflexivity.
Qed.

(** Setting a property the value owns: the same name then answers the new
    value, unless the value is not a container, in which case nothing
    changed. *)
Lemma own_set_property_eq (t : value) (k k' : key) (v : value) :
  key_name k = key_name k' →
  own_property t k ≠ None →
  own_property (set_property t k (Some v)) k' = Some v
  ∨ set_property t k (Some v) = t.
Proof.
  intros Heq Hdef. destruct t as [| | | | items | members]; auto.
  - unfold own_property, set_property in *. rewrite <- Heq.
    destruct (array_index (key_name k)) as [i |] eqn:Hi; [| auto].
    assert (i < length items)%nat as Hlt.
    { apply lookup_lt_is_Some. destruct (items !! i); [eauto | contradiction]. }
    rewrite bool_decide_eq_true_2 by exact Hlt.
    left. apply list_lookup_insert_eq. exact Hlt.
  - left. unfold own_property, set_property. rewrite <- Heq.
    apply lookup_replace_member_eq.
Qed.

Lemma own_property_in_place (t : value) (k : key) :
  own_property t k ≠ None → in_place t k.
Proof.
  intros Hdef. destruct t as [| | | | items | members]; try exact I.
  unfold own_property, in_place in *.
  destruct (array_index (key_name k)) as [i |]; [| exact I].
  apply lookup_lt_is_Some. destruct (items !! i); [eauto | contradiction].
Qed.

(** Where the array prototype answers no index, a property that is read
    as defined is assigned in place. *)
Lemma defined_in_place (realm : Realm) (t : value) (k : key) (y : anyval) :
  no_inherited_index realm →
  get_property realm (Some (Json t)) k = Ok (Some y) →
  in_place t k.
Proof.
  intros Hrealm Hget. destruct (own_property t k) as [c |] eqn:Hown.
  { apply own_property_in_place. rewrite Hown. discriminate. }
  destruct t as [| | | | items | members]; try exact I.
  unfold get_property in Hget. rewrite Hown in Hget. simpl in Hget.
  unfold in_place. destruct (array_index (key_name k)) as [i |] eqn:Hi; [| exact I].
  rewrite (Hrealm _ _ Hi) in Hget. discriminate.
Qed.

Lemma set_path_step (realm : Realm) (t : value) (k next : key) (rest : list key)
    (x : jsval) :
  set_path realm t (k :: next :: rest) x =
  match own_property t k with
  | Some child => set_property t k (Some (set_path realm child (next :: rest) x))
  | None =>
      match get_property realm (Some (Json t)) k with
      | Ok None =>
          set_property t k (Some (set_path realm (fresh_container next) (next :: rest) x))
      | _ => t
      end
  end.
Proof. reflexivity. Qed.

(** What a path resolves to is not changed by setting a value at a path
    that resolves to a defined value and parts ways with it. *)
Lemma set_path_resolve_apart (realm : Realm) (q : list key) :
  no_inherited_index realm →
  ∀ (t : value) (p : list key) (x : jsval) (y : anyval),
    resolve realm q (Some (Json t)) = Ok (Some y) →
    apart p q →
    resolve realm p (Some (Json (set_path realm t q x)))
    = resolve realm p (Some (Json t)).
Proof.
  intros Hrealm. induction q as [| k q' IH]; intros t p x y Hq [Hpq Hqp].
  - exfalso. apply Hqp. apply prefix_nil.
  - destruct p as [| k' p']; [exfalso; apply Hpq; apply prefix_nil |].
    rewrite resolve_cons in Hq.
    destruct (get_property realm (Some (Json t)) k) as [[c |] | e] eqn:Hc;
      [| rewrite resolve_undefined in Hq; discriminate | discriminate].
    pose proof (defined_in_place realm t k c Hrealm Hc) as Hplace.
    destruct q' as [| next q''].
    + assert (key_name k ≠ key_name k') as Hne.
      { intros Heq. apply Hqp. unfold names. simpl. rewrite Heq.
        apply prefix_cons, prefix_nil. }
      simpl set_path. rewrite !resolve_cons, (get_set_property_ne realm t k k' x Hne Hplace).
      reflexivity.
    + rewrite set_path_step. destruct (own_property t k) as [child |] eqn:Hown.
      2:{ rewrite Hc. reflexivity. }
      assert (c = Json child) as ->.
      { unfold get_property in Hc. rewrite Hown in Hc. congruence. }
      rewrite !resolve_cons.
      destruct (decide (key_name k = key_name k')) as [Heq | Hne].
      * assert (resolve realm p' (Some (Json (set_path realm child (next :: q'') x)))
                = resolve realm p' (Some (Json child))) as Hchild.
        { apply (IH child p' x y Hq). unfold names in *. simpl in *. split.
          - intros Hpre. apply Hpq. rewrite Heq. apply prefix_cons. exact Hpre.
          - intros Hpre. apply Hqp. rewrite Heq. apply prefix_cons. exact Hpre. }
        rewrite <- (get_property_name realm (Some (Json t)) k k' Heq), Hc.
        assert (own_property t k ≠ None) as Hdef by (rewrite Hown; discriminate).
        destruct (own_set_property_eq t k k' (set_path realm child (next :: q'') x)
                    Heq Hdef) as [Hnew | ->].
        -- unfold get_property at 1. rewrite Hnew. exact Hchild.
        -- rewrite <- (get_property_name realm (Some (Json t)) k k' Heq), Hc.
           reflexivity.
      * rewrite (get_set_property_ne realm t k k' _ Hne Hplace). reflexivity.
Qed.

(** A path that resolves to nothing still does after a value was set at a
    path that resolves to a defined value and is not one of its ancestors. *)
Lemma set_path_keeps_unresolved (realm : Realm) (q : list key) (t : value)
    (p : list key) (x : jsval) (y : anyval) :
  no_inherited_index realm →
  resolve realm q (Some (Json t)) = Ok (Some y) →
  resolve realm p (Some (Json t)) = Ok None →
  ¬ names q `prefix_of` names p →
  resolve realm p (Some (Json (set_path realm t q x))) = Ok None.
Proof.
  intros Hrealm Hq Hp Hqp.
  rewrite (set_path_resolve_apart realm q Hrealm t p x y Hq); [exact Hp |].
  split; [| exact Hqp]. intros Hpq.
  rewrite (resolve_through_undefined realm p q _ Hpq Hp) in Hq. discriminate.
Qed.

Lemma applyDiffToJSON_keeps_unresolved (realm : Realm) (p : list key)
    (target target' : value) (change : Change) :
  no_inherited_index realm →
  harmless_for p change →
  resolve realm p (Some (Json target)) = Ok None →
  applyDiffToJSON realm target change = Ok target' →
  resolve realm p (Some (Json target')) = Ok None.
Proof.
  intros Hrealm [Hkind Hprefix] Hp. unfold applyDiffToJSON.
  destruct Hkind as [-> | HE]; [intros [= <-]; exact Hp |]. rewrite HE.
  destruct (path change) as [q |] eqn:Hq; [| intros [= <-]; exact Hp].
  destruct (resolve realm q (Some (Json target))) as [[y |] | e] eqn:Hres;
    [| intros [= <-]; exact Hp | discriminate].
  intros [= <-]. unfold applyChange. rewrite Hq, HE.
  apply (set_path_keeps_unresolved realm q target p (rhs change) y Hrealm Hres Hp).
  apply Hprefix; [exact HE | reflexivity].
Qed.

Lemma applyDiffsToJSON_keeps_unresolved (realm : Realm) (p : list key)
    (diffs : option (list Change)) :
  no_inherited_index realm →
  (∀ ds, diffs = Some ds → Forall (harmless_for p) ds) →
  ∀ target target',
    resolve realm p (Some (Json target)) = Ok None →
    applyDiffsToJSON realm target diffs = Ok target' →
    resolve realm p (Some (Json target')) = Ok None.
Proof.
  intros Hrealm. destruct diffs as [ds |]; [| intros _ target target' Hp [= <-]; exact Hp].
  intros Hds. specialize (Hds ds eq_refl). simpl.
  induction Hds as [| d rest Hd _ IH]; intros target target' Hp Hrun.
  - injection Hrun as <-. exact Hp.
  - simpl in Hrun. destruct (applyDiffToJSON realm target d) as [t1 | e] eqn:Hstep;
      [| discriminate].
    apply (IH t1 target'); [| exact Hrun].
    apply (applyDiffToJSON_keeps_unresolved realm p target t1 d Hrealm Hd Hp Hstep).
Qed.

Lemma applyDiffToJSON_resolve (realm : Realm) (p : list key) (target target' : value)
    (change : Change) :
  no_inherited_index realm →
  independent_of p change →
  applyDiffToJSON realm target change = Ok target' →
  resolve realm p (Some (Json target')) = resolve realm p (Some (Json target)).
Proof.
  intros Hrealm [Hkind Hapart]. unfold applyDiffToJSON.
  destruct Hkind as [-> | HE]; [intros [= <-]; reflexivity |]. rewrite HE.
  destruct (path change) as [q |] eqn:Hq; [| intros [= <-]; reflexivity].
  destruct (resolve realm q (Some (Json target))) as [[y |] | e] eqn:Hres;
    [| intros [= <-]; reflexivity | discriminate].
  intros [= <-]. unfold applyChange. rewrite Hq, HE.
  apply (set_path_resolve_apart realm q Hrealm target p (rhs change) y Hres).
  apply Hapart; [exact HE | reflexivity].
Qed.

Lemma applyDiffsToJSON_resolve (realm : Realm) (p : list key)
    (diffs : option (list Change)) :
  no_inherited_index realm →
  (∀ ds, diffs = Some ds → Forall (independent_of p) ds) →
  ∀ target target',
    applyDiffsToJSON realm target diffs = Ok target' →
    resolve realm p (Some (Json target')) = resolve realm p (Some (Json target)).
Proof.
  intros Hrealm. destruct diffs as [ds |]; [| intros _ target target' [= <-]; reflexivity].
  intros Hds. specialize (Hds ds eq_refl). simpl.
  induction Hds as [| d rest Hd _ IH]; intros target target' Hrun.
  - injection Hrun as <-. reflexivity.
  - simpl in Hrun. destruct (applyDiffToJSON realm target d) as [t1 | e] eqn:Hstep;
      [| discriminate].
    rewrite (IH t1 target' Hrun).
    apply (applyDiffToJSON_resolve realm p target t1 d Hrealm Hd Hstep).
Qed.
(** ** The translation phase *)

Lemma with_provider_calls_nil (w : World) : with_provider_calls [] w = w.
Proof.
  destruct w. unfold with_provider_calls, set_providerCalls. simpl.
  rewrite app_nil_r. reflexivity.
Qed.

Lemma with_provider_calls_app (a b : list (list jsval * string * string)) (w : World) :
  with_provider_calls b (with_provider_calls a w) = with_provider_calls (a ++ b) w.
Proof.
  unfold with_provider_calls, set_providerCalls. simpl. rewrite app_assoc. reflexivity.
Qed.

(** One turn of the loop of [translateChanges]. *)
Lemma translateChanges_loop_cons (sourceLanguage : string) (changes : list Change)
    (targetFile : Uri) (rest : list Uri) (table : gmap string (list Change)) (w : World) :
  translateChanges_loop sourceLanguage changes (targetFile :: rest) table w =
  match files w !! fsPath targetFile with
  | None => (Throw (FileSystemError ("Unable to read file " ++ fsPath targetFile)), w)
  | Some text =>
      match JSON_parse text with
      | Throw e => (Throw e, w)
      | Ok fileContent =>
          match changesToTranslateFor (realm w) fileContent changes with
          | Throw e => (Throw e, w)
          | Ok changesToTranslate =>
              if (0 <? length changesToTranslate)%nat then
                let call := (rhs <$> changesToTranslate, sourceLanguage,
                             extractLocaleFromFileUri targetFile) in
                match translationProvider w (rhs <$> changesToTranslate) sourceLanguage
                        (extractLocaleFromFileUri targetFile) with
                | Throw e => (Throw e, with_provider_calls [call] w)
                | Ok translatedValues =>
                    translateChanges_loop sourceLanguage changes rest
                      (<[extractLocaleFromFileUri targetFile :=
                           imap (fun index change =>
                                   with_rhs change (mjoin (translatedValues !! index)))
                                changesToTranslate]> table)
                      (with_provider_calls [call] w)
                end
              else translateChanges_loop sourceLanguage changes rest table w
          end
      end
  end.
Proof.
  simpl translateChanges_loop. unfold bind at 1.
  unfold readWorkspaceFileAsync, bind at 1, get_world.
  destruct (files w !! fsPath targetFile) as [text |]; [| reflexivity].
  unfold ret at 1. unfold bind at 1, lift at 1.
  destruct (JSON_parse text) as [fileContent | e]; [| reflexivity].
  unfold bind at 1. cbv beta iota. unfold bind at 1, lift at 1.
  destruct (changesToTranslateFor (realm w) fileContent changes) as [cs | e];
    [| reflexivity].
  destruct (0 <? length cs)%nat; [| reflexivity].
  unfold bind at 1, translateKeysAsync, bind, modify, get_world, lift. simpl.
  unfold with_provider_calls.
  destruct (translationProvider w (rhs <$> cs) sourceLanguage
              (extractLocaleFromFileUri targetFile)); reflexivity.
Qed.

Lemma translateChanges_loop_app (sourceLanguage : string) (changes : list Change)
    (done rest : list Uri) :
  ∀ (table : gmap string (list Change)) (w : World),
    translateChanges_loop sourceLanguage changes (done ++ rest) table w =
    match translateChanges_loop sourceLanguage changes done table w with
    | (Ok table', w') => translateChanges_loop sourceLanguage changes rest table' w'
    | (Throw e, w') => (Throw e, w')
    end.
Proof.
  induction done as [| targetFile done IH]; intros table w; [reflexivity |].
  rewrite <- app_comm_cons, !translateChanges_loop_cons.
  destruct (files w !! fsPath targetFile) as [text |]; [| reflexivity].
  destruct (JSON_parse text) as [fileContent | e]; [| reflexivity].
  destruct (changesToTranslateFor (realm w) fileContent changes) as [cs | e]; [| reflexivity].
  destruct (0 <? length cs)%nat; [| apply IH].
  cbv zeta.
  destruct (translationProvider w (rhs <$> cs) sourceLanguage
              (extractLocaleFromFileUri targetFile)); [apply IH | reflexivity].
Qed.

Lemma changesToTranslateFor_elem (realm : Realm) (fileContent : value)
    (changes kept : list Change) :
  changesToTranslateFor realm fileContent changes = Ok kept →
  ∀ change, change ∈ kept →
    change ∈ changes ∧ ∃ p, path change = Some p ∧ misses realm fileContent p.
Proof.
  revert kept. induction changes as [| c rest IH]; intros kept Hkept change Hin.
  - injection Hkept as <-. inversion Hin.
  - simpl in Hkept. unfold currentValueOf in Hkept.
    destruct (path c) as [p |] eqn:Hp; [| discriminate].
    destruct (resolve realm p (Some (Json fileContent))) as [x | e] eqn:Hx;
      [| discriminate].
    destruct (changesToTranslateFor realm fileContent rest) as [kept' | e];
      [| discriminate].
    injection Hkept as <-.
    destruct (is_missing x) eqn:Hmissing.
    + apply elem_of_cons in Hin as [-> | Hin].
      * split; [left |]. exists p. split; [exact Hp |]. exists x. auto.
      * destruct (IH kept' eq_refl change Hin) as [H1 H2]. split; [right; exact H1 | exact H2].
    + destruct (IH kept' eq_refl change Hin) as [H1 H2]. split; [right; exact H1 | exact H2].
Qed.

Lemma changesToTranslateFor_complete (realm : Realm) (fileContent : value)
    (changes kept : list Change) (change : Change) (p : list key) :
  changesToTranslateFor realm fileContent changes = Ok kept →
  change ∈ changes →
  path change = Some p →
  misses realm fileContent p →
  change ∈ kept.
Proof.
  revert kept.
  induction changes as [| c rest IH]; intros kept Hkept Hin Hp (x & Hx & Hmissing).
  - inversion Hin.
  - simpl in Hkept. unfold currentValueOf in Hkept.
    destruct (path c) as [pc |] eqn:Hpc; [| discriminate].
    destruct (resolve realm pc (Some (Json fileContent))) as [xc | e] eqn:Hxc;
      [| discriminate].
    destruct (changesToTranslateFor realm fileContent rest) as [kept' | e];
      [| discriminate].
    injection Hkept as <-.
    apply elem_of_cons in Hin as [-> | Hin].
    + rewrite Hp in Hpc. injection Hpc as <-. rewrite Hx in Hxc. injection Hxc as <-.
      rewrite Hmissing. left.
    + assert (misses realm fileContent p) as Hmiss by (exists x; auto).
      specialize (IH kept' eq_refl Hin Hp Hmiss).
      destruct (is_missing xc); [right |]; exact IH.
Qed.

(** What [translateChanges] selects for one file is what the file misses:
    every change it keeps has a path whose value in the file is
    [undefined], [null] or the empty string. *)
Lemma candidates_are_missing (realm : Realm) (fileContent : value)
    (changes kept : list Change) :
  changesToTranslateFor realm fileContent changes = Ok kept →
  Forall (fun change =>
            ∃ p, path change = Some p
                 ∧ (resolve realm p (Some (Json fileContent)) = Ok None
                    ∨ resolve realm p (Some (Json fileContent)) = Ok (Some (Json VNull))
                    ∨ resolve realm p (Some (Json fileContent))
                      = Ok (Some (Json (VString ""))))) kept.
Proof.
  intros Hkept. apply Forall_forall. intros change Hin.
  destruct (changesToTranslateFor_elem realm fileContent changes kept Hkept change Hin)
    as (_ & p & Hp & x & Hx & Hmissing).
  exists p. split; [exact Hp |]. rewrite Hx.
  destruct x as [[[| | | [| c s] | |] | address] |]; try discriminate; auto.
Qed.

(** The translation phase changes nothing but the record of the provider
    calls, and every call it makes carries new values of the changes. *)
Lemma translateChanges_loop_calls (sourceLanguage : string) (changes : list Change)
    (targetFiles : list Uri) :
  ∀ (table : gmap string (list Change)) (w : World),
    ∃ calls,
      snd (translateChanges_loop sourceLanguage changes targetFiles table w)
      = with_provider_calls calls w
      ∧ Forall (call_for sourceLanguage changes) calls.
Proof.
  induction targetFiles as [| targetFile rest IH]; intros table w.
  - exists []. simpl. rewrite with_provider_calls_nil. split; [reflexivity | constructor].
  - rewrite translateChanges_loop_cons.
    destruct (files w !! fsPath targetFile) as [text |];
      [| exists []; rewrite with_provider_calls_nil; split; [reflexivity | constructor]].
    destruct (JSON_parse text) as [fileContent | e];
      [| exists []; rewrite with_provider_calls_nil; split; [reflexivity | constructor]].
    destruct (changesToTranslateFor (realm w) fileContent changes) as [cs | e] eqn:Hcs;
      [| exists []; rewrite with_provider_calls_nil; split; [reflexivity | constructor]].
    assert (call_for sourceLanguage changes
              (rhs <$> cs, sourceLanguage, extractLocaleFromFileUri targetFile)) as Hcall.
    { split; [reflexivity |]. simpl. intros v Hv.
      apply list_elem_of_fmap in Hv as (c & -> & Hc).
      exists c. split; [| reflexivity].
      apply (changesToTranslateFor_elem (realm w) fileContent changes cs Hcs c Hc). }
    destruct (0 <? length cs)%nat; [| apply IH].
    cbv zeta.
    destruct (translationProvider w (rhs <$> cs) sourceLanguage
                (extractLocaleFromFileUri targetFile)) as [translated | e].
    + match goal with
      | |- context [translateChanges_loop _ _ rest ?t ?w1] =>
          destruct (IH t w1) as (calls & Hsnd & Hcalls)
      end.
      eexists. rewrite Hsnd, with_provider_calls_app. split; [reflexivity |].
      constructor; assumption.
    + eexists. split; [reflexivity |]. constructor; [assumption | constructor].
Qed.

(** A translation phase that completes has asked the provider, for every
    file, for the new value of every change the file misses. *)
Lemma translateChanges_loop_requests (sourceLanguage : string) (changes : list Change)
    (targetFiles : list Uri) :
  ∀ (table table' : gmap string (list Change)) (w w' : World),
    translateChanges_loop sourceLanguage changes targetFiles table w = (Ok table', w') →
    ∃ calls,
      providerCalls w' = providerCalls w ++ calls
      ∧ ∀ fileUri text fileContent change p,
          fileUri ∈ targetFiles →
          files w !! fsPath fileUri = Some text →
          JSON_parse text = Ok fileContent →
          change ∈ changes →
          path change = Some p →
          misses (realm w) fileContent p →
          ∃ values,
            (values, sourceLanguage, extractLocaleFromFileUri fileUri) ∈ calls
            ∧ rhs change ∈ values.
Proof.
  induction targetFiles as [| targetFile rest IH]; intros table table' w w' Hrun.
  - exists []. rewrite app_nil_r. injection Hrun as _ <-.
    split; [reflexivity |]. intros fileUri text fileContent change p Hin. inversion Hin.
  - rewrite translateChanges_loop_cons in Hrun.
    destruct (files w !! fsPath targetFile) as [text0 |] eqn:Hfile0; [| discriminate].
    destruct (JSON_parse text0) as [content0 | e] eqn:Hparse0; [| discriminate].
    destruct (changesToTranslateFor (realm w) content0 changes) as [cs | e] eqn:Hcs; [| discriminate].
    destruct (0 <? length cs)%nat eqn:Hlen.
    + cbv zeta in Hrun.
      destruct (translationProvider w (rhs <$> cs) sourceLanguage
                  (extractLocaleFromFileUri targetFile)) as [translated | e];
        [| discriminate].
      destruct (IH _ _ _ _ Hrun) as (calls & Hcalls & Hreq).
      exists ((rhs <$> cs, sourceLanguage, extractLocaleFromFileUri targetFile) :: calls).
      split; [rewrite Hcalls; simpl; rewrite <- app_assoc; reflexivity |].
      intros fileUri text fileContent change p Hin Hfile Hparse Hchange Hp Hmissing.
      apply elem_of_cons in Hin as [-> | Hin].
      * rewrite Hfile0 in Hfile. injection Hfile as <-.
        rewrite Hparse0 in Hparse. injection Hparse as <-.
        exists (rhs <$> cs). split; [left |].
        apply list_elem_of_fmap. exists change. split; [reflexivity |].
        exact (changesToTranslateFor_complete (realm w) content0 changes cs change p
                 Hcs Hchange Hp Hmissing).
      * destruct (Hreq fileUri text fileContent change p Hin Hfile Hparse Hchange Hp Hmissing)
          as (values & Hvalues & Hrhs).
        exists values. split; [right; exact Hvalues | exact Hrhs].
    + destruct (IH _ _ _ _ Hrun) as (calls & Hcalls & Hreq).
      exists calls. split; [exact Hcalls |].
      intros fileUri text fileContent change p Hin Hfile Hparse Hchange Hp Hmissing.
      apply elem_of_cons in Hin as [-> | Hin]; [| eauto].
      rewrite Hfile0 in Hfile. injection Hfile as <-.
      rewrite Hparse0 in Hparse. injection Hparse as <-.
      pose proof (changesToTranslateFor_complete (realm w) content0 changes cs change p
                    Hcs Hchange Hp Hmissing) as Hkept.
      destruct cs; [inversion Hkept | discriminate].
Qed.

(** Every entry of the table of translations is one of the changes with
    another new value: a property of the changes that does not depend on
    the new value holds of the entries. *)
Lemma translateChanges_loop_table (P : Change → Prop) (sourceLanguage : string)
    (changes : list Change) (targetFiles : list Uri) :
  (∀ change r, P change → P (with_rhs change r)) →
  Forall P changes →
  ∀ (table table' : gmap string (list Change)) (w w' : World),
    (∀ language row, table !! language = Some row → Forall P row) →
    translateChanges_loop sourceLanguage changes targetFiles table w = (Ok table', w') →
    ∀ language row, table' !! language = Some row → Forall P row.
Proof.
  intros Hrhs Hchanges.
  induction targetFiles as [| targetFile rest IH]; intros table table' w w' Htable Hrun.
  - injection Hrun as <- _. exact Htable.
  - rewrite translateChanges_loop_cons in Hrun.
    destruct (files w !! fsPath targetFile) as [text0 |]; [| discriminate].
    destruct (JSON_parse text0) as [content0 | e]; [| discriminate].
    destruct (changesToTranslateFor (realm w) content0 changes) as [cs | e] eqn:Hcs; [| discriminate].
    destruct (0 <? length cs)%nat; [| exact (IH _ _ _ _ Htable Hrun)].
    cbv zeta in Hrun.
    destruct (translationProvider w (rhs <$> cs) sourceLanguage
                (extractLocaleFromFileUri targetFile)) as [translated | e];
      [| discriminate].
    refine (IH _ _ _ _ _ Hrun). intros language row Hrow.
    destruct (decide (extractLocaleFromFileUri targetFile = language)) as [<- | Hne].
    + rewrite lookup_insert_eq in Hrow. injection Hrow as <-.
      apply Forall_forall. intros d Hd.
      apply list_elem_of_lookup in Hd as [i Hd].
      rewrite list_lookup_imap in Hd.
      destruct (cs !! i) as [c |] eqn:Hc; [| discriminate]. injection Hd as <-.
      apply Hrhs. rewrite Forall_forall in Hchanges. apply Hchanges.
      apply (changesToTranslateFor_elem (realm w) content0 changes cs Hcs c).
      apply list_elem_of_lookup. eauto.
    + rewrite lookup_insert_ne in Hrow by exact Hne. exact (Htable language row Hrow).
Qed.

(** Where the rows of the table come from: a row of a language was built
    for a file of that language, from the changes that file misses. *)
Lemma translateChanges_loop_row (sourceLanguage : string) (changes : list Change)
    (targetFiles : list Uri) :
  ∀ (table table' : gmap string (list Change)) (w w' : World),
    translateChanges_loop sourceLanguage changes targetFiles table w = (Ok table', w') →
    ∀ language row,
      table' !! language = Some row →
      table !! language = Some row
      ∨ ∃ fileUri text fileContent,
          fileUri ∈ targetFiles
          ∧ extractLocaleFromFileUri fileUri = language
          ∧ files w !! fsPath fileUri = Some text
          ∧ JSON_parse text = Ok fileContent
          ∧ Forall (fun d =>
                      ∃ change q,
                        change ∈ changes ∧ kind d = kind change ∧ path d = Some q
                        ∧ path change = Some q
                        ∧ misses (realm w) fileContent q) row.
Proof.
  induction targetFiles as [| targetFile rest IH]; intros table table' w w' Hrun language row Hrow.
  - injection Hrun as <- _. left. exact Hrow.
  - rewrite translateChanges_loop_cons in Hrun.
    destruct (files w !! fsPath targetFile) as [text0 |] eqn:Hfile0; [| discriminate].
    destruct (JSON_parse text0) as [content0 | e] eqn:Hparse0; [| discriminate].
    destruct (changesToTranslateFor (realm w) content0 changes) as [cs | e] eqn:Hcs; [| discriminate].
    destruct (0 <? length cs)%nat.
    + cbv zeta in Hrun.
      destruct (translationProvider w (rhs <$> cs) sourceLanguage
                  (extractLocaleFromFileUri targetFile)) as [translated | e];
        [| discriminate].
      destruct (IH _ _ _ _ Hrun language row Hrow)
        as [Hold | (f & text & fc & Hin & Hlang & Hfile & Hparse & Hentries)].
      * destruct (decide (extractLocaleFromFileUri targetFile = language)) as [Heq | Hne].
        -- right. exists targetFile, text0, content0.
           rewrite <- Heq, lookup_insert_eq in Hold. injection Hold as <-.
           repeat split; [left | exact Heq | exact Hfile0 | exact Hparse0 |].
           apply Forall_forall. intros d Hd.
           apply list_elem_of_lookup in Hd as [i Hd].
           rewrite list_lookup_imap in Hd.
           destruct (cs !! i) as [c |] eqn:Hc; [| discriminate]. injection Hd as <-.
           assert (c ∈ cs) as Hcin by (apply list_elem_of_lookup; eauto).
           destruct (changesToTranslateFor_elem (realm w) content0 changes cs Hcs c Hcin)
             as (Hchange & q & Hq & Hmissing).
           exists c, q. repeat split; assumption.
        -- left. rewrite lookup_insert_ne in Hold by exact Hne. exact Hold.
      * right. exists f, text, fc. repeat split; try assumption. right. exact Hin.
    + destruct (IH _ _ _ _ Hrun language row Hrow)
        as [Hold | (f & text & fc & Hin & Hlang & Hfile & Hparse & Hentries)].
      * left. exact Hold.
      * right. exists f, text, fc. repeat split; try assumption. right. exact Hin.
Qed.

Lemma translateChanges_loop_malformed (sourceLanguage : string) (changes : list Change)
    (targetFiles : list Uri) (fileUri : Uri) (raw message : string) :
  fileUri ∈ targetFiles →
  ∀ (table : gmap string (list Change)) (w : World),
    files w !! fsPath fileUri = Some (Malformed raw message) →
    ∃ e, fst (translateChanges_loop sourceLanguage changes targetFiles table w) = Throw e.
Proof.
  intros Hin. induction targetFiles as [| targetFile rest IH]; intros table w Hfile;
    [inversion Hin |].
  rewrite translateChanges_loop_cons.
  apply elem_of_cons in Hin as [<- | Hin].
  { rewrite Hfile. simpl. eauto. }
  destruct (files w !! fsPath targetFile) as [text |]; [| simpl; eauto].
  destruct (JSON_parse text) as [fileContent | e]; [| simpl; eauto].
  destruct (changesToTranslateFor (realm w) fileContent changes) as [cs | e]; [| simpl; eauto].
  destruct (0 <? length cs)%nat; [| exact (IH Hin table w Hfile)].
  cbv zeta.
  destruct (translationProvider w (rhs <$> cs) sourceLanguage
              (extractLocaleFromFileUri targetFile)); [| simpl; eauto].
  apply (IH Hin). exact Hfile.
Qed.

Lemma harmless_for_with_rhs (p : list key) (change : Change) (r : jsval) :
  harmless_for p change → harmless_for p (with_rhs change r).
Proof. intros H. exact H. Qed.

(** ** The translation phase, call by call *)

Lemma candidates_of_cases (w : World) (changes : list Change) (fileUri : Uri)
    (c : Change) (cs : list Change) :
  candidates_of w changes fileUri = c :: cs →
  ∃ text fileContent,
    files w !! fsPath fileUri = Some text
    ∧ JSON_parse text = Ok fileContent
    ∧ changesToTranslateFor (realm w) fileContent changes = Ok (c :: cs).
Proof.
  unfold candidates_of. intros H.
  destruct (files w !! fsPath fileUri) as [text |]; [| discriminate].
  destruct (JSON_parse text) as [fileContent | e] eqn:Hparse; [| discriminate].
  destruct (changesToTranslateFor (realm w) fileContent changes) as [kept | e] eqn:Hkept;
    [| discriminate].
  subst kept. exists text, fileContent. auto.
Qed.

(** The translation phase changes nothing but the record of the provider
    calls. *)
Lemma candidates_of_with_provider_calls (calls : list (list jsval * string * string))
    (w : World) (changes : list Change) (fileUri : Uri) :
  candidates_of (with_provider_calls calls w) changes fileUri
  = candidates_of w changes fileUri.
Proof. reflexivity. Qed.

Lemma translateChanges_loop_traffic (sourceLanguage : string) (changes : list Change)
    (targetFiles : list Uri) :
  ∀ (table table' : gmap string (list Change)) (w w' : World),
    translateChanges_loop sourceLanguage changes targetFiles table w = (Ok table', w') →
    providerCalls w'
    = providerCalls w ++ omap (call_of w sourceLanguage changes) targetFiles.
Proof.
  induction targetFiles as [| targetFile rest IH]; intros table table' w w' Hrun.
  - injection Hrun as _ <-. simpl. rewrite app_nil_r. reflexivity.
  - rewrite translateChanges_loop_cons in Hrun. simpl omap.
    unfold call_of at 1. unfold candidates_of.
    destruct (files w !! fsPath targetFile) as [text |]; [| discriminate].
    destruct (JSON_parse text) as [fileContent | e]; [| discriminate].
    destruct (changesToTranslateFor (realm w) fileContent changes) as [cs | e];
      [| discriminate].
    destruct cs as [| c cs]; [exact (IH _ _ _ _ Hrun) |].
    simpl Nat.ltb in Hrun. cbv iota zeta in Hrun.
    destruct (translationProvider w (rhs <$> c :: cs) sourceLanguage
                (extractLocaleFromFileUri targetFile)) as [translated | e];
      [| discriminate].
    rewrite (IH _ _ _ _ Hrun). simpl. rewrite <- app_assoc. reflexivity.
Qed.

(** The files after the one that fills the row of a language leave the row
    alone when they miss nothing. *)
Lemma translateChanges_loop_row_kept (sourceLanguage : string) (changes : list Change)
    (language : string) (targetFiles : list Uri) :
  ∀ (table table' : gmap string (list Change)) (w w' : World),
    translateChanges_loop sourceLanguage changes targetFiles table w = (Ok table', w') →
    (∀ g, g ∈ targetFiles → extractLocaleFromFileUri g = language →
          candidates_of w changes g = []) →
    table' !! language = table !! language.
Proof.
  induction targetFiles as [| targetFile rest IH]; intros table table' w w' Hrun Hnone.
  - injection Hrun as <- _. reflexivity.
  - rewrite translateChanges_loop_cons in Hrun.
    pose proof (Hnone targetFile ltac:(left)) as Hhead. unfold candidates_of in Hhead.
    assert (∀ g, g ∈ rest → extractLocaleFromFileUri g = language →
                 candidates_of w changes g = []) as Hrest.
    { intros g Hg. apply Hnone. right. exact Hg. }
    destruct (files w !! fsPath targetFile) as [text |]; [| discriminate].
    destruct (JSON_parse text) as [fileContent | e]; [| discriminate].
    destruct (changesToTranslateFor (realm w) fileContent changes) as [cs | e];
      [| discriminate].
    destruct cs as [| c cs]; [exact (IH _ _ _ _ Hrun Hrest) |].
    simpl Nat.ltb in Hrun. cbv iota zeta in Hrun.
    destruct (translationProvider w (rhs <$> c :: cs) sourceLanguage
                (extractLocaleFromFileUri targetFile)) as [translated | e];
      [| discriminate].
    rewrite (IH _ _ _ _ Hrun Hrest).
    apply lookup_insert_ne. intros Heq. specialize (Hhead Heq). discriminate.
Qed.

(** A provider call that fails ends the loop: the failing call is the last
    call on record, and the world is otherwise the one the loop had reached. *)
Lemma translateChanges_fails_at (sourceLanguage : string) (changes : list Change)
    (done rest : list Uri) (targetFile : Uri) (table : gmap string (list Change))
    (w w1 : World) (text : Text) (fileContent : value) (changesToTranslate : list Change)
    (e : Error) :
  translateChanges sourceLanguage changes done w = (Ok table, w1) →
  files w1 !! fsPath targetFile = Some text →
  JSON_parse text = Ok fileContent →
  changesToTranslateFor (realm w1) fileContent changes = Ok changesToTranslate →
  changesToTranslate ≠ [] →
  translationProvider w1 (rhs <$> changesToTranslate) sourceLanguage
    (extractLocaleFromFileUri targetFile) = Throw e →
  translateChanges sourceLanguage changes (done ++ targetFile :: rest) w
  = (Throw e,
     with_provider_calls
       (omap (call_of w sourceLanguage changes) done
        ++ [(rhs <$> changesToTranslate, sourceLanguage,
             extractLocaleFromFileUri targetFile)]) w).
Proof.
  intros Hdone Hfile Hparse Hcs Hne Hfail.
  destruct (translateChanges_loop_calls sourceLanguage changes done ∅ w)
    as (calls & Hcalls & _).
  pose proof (translateChanges_loop_traffic sourceLanguage changes done ∅ table w w1 Hdone)
    as Htraffic.
  unfold translateChanges in *. rewrite Hdone in Hcalls. simpl in Hcalls.
  rewrite translateChanges_loop_app, Hdone, translateChanges_loop_cons.
  rewrite Hfile, Hparse, Hcs.
  destruct changesToTranslate as [| c cs]; [contradiction |]. simpl Nat.ltb. cbv iota zeta.
  rewrite Hfail, Hcalls, with_provider_calls_app.
  rewrite Hcalls in Htraffic. simpl in Htraffic.
  apply app_inv_head in Htraffic. rewrite Htraffic. reflexivity.
Qed.
(** ** The apply phase *)

(** One turn of the loop of [applyTranslationsToFiles]: a locked file is
    passed over; a file that cannot be read or parsed is logged and passed
    over; an exception of [applyDiffsToJSON] leaves the loop; so does a write
    the file system refuses, after the lock was taken; any other file is
    rewritten. *)
Lemma applyTranslationsToFile_run (table : gmap string (list Change)) (indentation : nat)
    (fileUri : Uri) (w : World) :
  applyTranslationsToFile table indentation fileUri w =
  if bool_decide (fsPath fileUri ∈ fileLocks w) then (Ok tt, w)
  else
    match files w !! fsPath fileUri with
    | None =>
        (Ok tt,
         after_skip fileUri (FileSystemError ("Unable to read file " ++ fsPath fileUri)) w)
    | Some text =>
        match JSON_parse text with
        | Throw e => (Ok tt, after_skip fileUri e w)
        | Ok fileContent =>
            match applyDiffsToJSON (realm w) fileContent
                    (table !! extractLocaleFromFileUri fileUri) with
            | Throw e => (Throw e, w)
            | Ok applied =>
                match writeFailure w (fsPath fileUri)
                        (rewritten_text indentation text applied) with
                | Some e => (Throw e, after_refusal fileUri w)
                | None =>
                    (Ok tt,
                     after_write fileUri (rewritten_text indentation text applied)
                       applied w)
                end
            end
        end
    end.
Proof.
  unfold applyTranslationsToFile, hasFileLock, bind at 1, bind at 1, get_world at 1, ret at 1.
  destruct (bool_decide (fsPath fileUri ∈ fileLocks w)); [reflexivity |].
  unfold bind at 1, try_catch, readWorkspaceFileAsync, bind at 1, bind at 1, get_world at 1.
  destruct (files w !! fsPath fileUri) as [text |]; [| reflexivity].
  unfold ret at 1, bind at 1, lift at 1.
  destruct (JSON_parse text) as [fileContent | e]; [| reflexivity].
  unfold ret at 1. unfold bind at 1, get_world at 1. unfold bind at 1, lift at 1.
  destruct (applyDiffsToJSON (realm w) fileContent
              (table !! extractLocaleFromFileUri fileUri)) as [applied | e];
    [| reflexivity].
  unfold rewritten_text, JSON_stringify.
  assert ((if endsWith_newline text && negb (endsWith_newline (JsonText applied indentation false))
           then append_newline (JsonText applied indentation false)
           else JsonText applied indentation false)
          = JsonText applied indentation (endsWith_newline text)) as ->.
  { destruct (endsWith_newline text); reflexivity. }
  unfold bind at 1, addLock, modify at 1.
  unfold bind at 1, writeToWorkspaceFileAsync, bind at 1, get_world at 1.
  change (writeFailure (set_fileLocks _ w)) with (writeFailure w).
  destruct (writeFailure w (fsPath fileUri)
              (JsonText applied indentation (endsWith_newline text))) as [e |];
    reflexivity.
Qed.

Lemma applyTranslationsToFiles_cons (fileUri : Uri) (rest : list Uri)
    (table : gmap string (list Change)) (indentation : nat) (w : World) :
  applyTranslationsToFiles (fileUri :: rest) table indentation w
  = match applyTranslationsToFile table indentation fileUri w with
    | (Ok _, w1) => applyTranslationsToFiles rest table indentation w1
    | (Throw e, w1) => (Throw e, w1)
    end.
Proof. reflexivity. Qed.

(** What one turn can do to the world. *)
Lemma applyTranslationsToFile_cases (table : gmap string (list Change)) (indentation : nat)
    (fileUri : Uri) (w : World) :
  (applyTranslationsToFile table indentation fileUri w = (Ok tt, w)
   ∧ fsPath fileUri ∈ fileLocks w)
  ∨ (∃ e, applyTranslationsToFile table indentation fileUri w
          = (Ok tt, after_skip fileUri e w)
          ∧ (fsPath fileUri ∉ fileLocks w)
          ∧ ∀ text, files w !! fsPath fileUri = Some text → JSON_parse text = Throw e)
  ∨ (∃ text fileContent,
        (fsPath fileUri ∉ fileLocks w)
        ∧ files w !! fsPath fileUri = Some text
        ∧ JSON_parse text = Ok fileContent
        ∧ ((∃ e, applyDiffsToJSON (realm w) fileContent
                   (table !! extractLocaleFromFileUri fileUri) = Throw e
                 ∧ applyTranslationsToFile table indentation fileUri w = (Throw e, w))
           ∨ ∃ applied,
               applyDiffsToJSON (realm w) fileContent
                 (table !! extractLocaleFromFileUri fileUri) = Ok applied
               ∧ ((∃ e, writeFailure w (fsPath fileUri)
                          (rewritten_text indentation text applied) = Some e
                        ∧ applyTranslationsToFile table indentation fileUri w
                          = (Throw e, after_refusal fileUri w))
                  ∨ (writeFailure w (fsPath fileUri)
                       (rewritten_text indentation text applied) = None
                     ∧ applyTranslationsToFile table indentation fileUri w
                       = (Ok tt,
                          after_write fileUri (rewritten_text indentation text applied)
                            applied w))))).
Proof.
  rewrite applyTranslationsToFile_run.
  case_bool_decide as Hlock; [left; auto |]. right.
  destruct (files w !! fsPath fileUri) as [text |] eqn:Hfile.
  2:{ left. eexists. split; [reflexivity |]. split; [exact Hlock | discriminate]. }
  destruct (JSON_parse text) as [fileContent | e] eqn:Hparse.
  2:{ left. exists e. split; [reflexivity |]. split; [exact Hlock |].
      intros text' [= <-]. exact Hparse. }
  right. exists text, fileContent. repeat (split; [assumption || reflexivity |]).
  destruct (applyDiffsToJSON (realm w) fileContent
              (table !! extractLocaleFromFileUri fileUri)) as [applied | e].
  2:{ left. exists e. auto. }
  right. exists applied. split; [reflexivity |].
  destruct (writeFailure w (fsPath fileUri) (rewritten_text indentation text applied))
    as [e |]; [left; exists e; auto | right; auto].
Qed.

(** A property of the world that no turn of the loop changes holds at the
    end of the phase. *)
Lemma applyTranslationsToFiles_invariant (P : World → Prop)
    (table : gmap string (list Change)) (indentation : nat) (targetFiles : list Uri) :
  (∀ fileUri e w, P w → P (after_skip fileUri e w)) →
  (∀ fileUri w, P w → P (after_refusal fileUri w)) →
  (∀ fileUri text applied w, P w → P (after_write fileUri text applied w)) →
  ∀ w, P w → P (snd (applyTranslationsToFiles targetFiles table indentation w)).
Proof.
  intros Hskip Hrefusal Hwrite.
  induction targetFiles as [| fileUri rest IH]; intros w Hw; [exact Hw |].
  rewrite applyTranslationsToFiles_cons.
  destruct (applyTranslationsToFile_cases table indentation fileUri w)
    as [[-> _] | [(e & -> & _) | (text & fileContent & _ & _ & _
         & [(e & _ & ->) | (applied & _ & [(e & _ & ->) | (_ & ->)])])]]; cbn [snd];
    auto.
Qed.

(** The apply phase calls no provider. *)
Lemma applyTranslationsToFiles_providerCalls (targetFiles : list Uri)
    (table : gmap string (list Change)) (indentation : nat) (w : World) :
  providerCalls (snd (applyTranslationsToFiles targetFiles table indentation w))
  = providerCalls w.
Proof.
  apply (applyTranslationsToFiles_invariant (fun w' => providerCalls w' = providerCalls w));
    auto.
Qed.

Lemma applyTranslationsToFiles_realm (targetFiles : list Uri)
    (table : gmap string (list Change)) (indentation : nat) (w : World) :
  realm (snd (applyTranslationsToFiles targetFiles table indentation w)) = realm w.
Proof.
  apply (applyTranslationsToFiles_invariant (fun w' => realm w' = realm w)); auto.
Qed.

Lemma applyTranslationsToFiles_statusBar (targetFiles : list Uri)
    (table : gmap string (list Change)) (indentation : nat) (w : World) :
  statusBar (snd (applyTranslationsToFiles targetFiles table indentation w))
  = statusBar w.
Proof.
  apply (applyTranslationsToFiles_invariant (fun w' => statusBar w' = statusBar w)); auto.
Qed.

Lemma applyTranslationsToFiles_translationFiles (targetFiles : list Uri)
    (table : gmap string (list Change)) (indentation : nat) (w : World) :
  translationFiles (snd (applyTranslationsToFiles targetFiles table indentation w))
  = translationFiles w.
Proof.
  apply (applyTranslationsToFiles_invariant
           (fun w' => translationFiles w' = translationFiles w)); auto.
Qed.

(** The apply phase does recover from a file it cannot parse: the failure
    is logged, the file is not written and the loop goes on with the files
    that follow. *)
Lemma applyTranslationsToFiles_skips_malformed (raw message : string) (fileUri : Uri)
    (rest : list Uri) (table : gmap string (list Change)) (indentation : nat) (w : World) :
  fsPath fileUri ∉ fileLocks w →
  files w !! fsPath fileUri = Some (Malformed raw message) →
  applyTranslationsToFiles (fileUri :: rest) table indentation w
  = applyTranslationsToFiles rest table indentation
      (after_skip fileUri (SyntaxError message) w).
Proof.
  intros Hlock Hfile.
  rewrite applyTranslationsToFiles_cons, applyTranslationsToFile_run, Hfile.
  rewrite bool_decide_eq_false_2 by exact Hlock. reflexivity.
Qed.

Lemma extractLocaleFromFileUri_fsPath (a b : Uri) :
  fsPath a = fsPath b → extractLocaleFromFileUri a = extractLocaleFromFileUri b.
Proof. unfold extractLocaleFromFileUri. intros ->. reflexivity. Qed.

(** A property of the text of the file at [name] that a rewrite of the file
    keeps holds at the end of the phase. *)
Lemma applyTranslationsToFiles_text (P : option Text → Prop) (name : string)
    (table : gmap string (list Change)) (indentation : nat) (targetFiles : list Uri)
    (r : Realm) :
  (∀ fileUri text fileContent applied,
     fsPath fileUri = name →
     P (Some text) → JSON_parse text = Ok fileContent →
     applyDiffsToJSON r fileContent (table !! extractLocaleFromFileUri fileUri)
     = Ok applied →
     P (Some (rewritten_text indentation text applied))) →
  ∀ w, realm w = r →
       P (files w !! name) →
       P (files (snd (applyTranslationsToFiles targetFiles table indentation w)) !! name).
Proof.
  intros Hrewrite. induction targetFiles as [| fileUri rest IH]; intros w Hrealm HP;
    [exact HP |].
  rewrite applyTranslationsToFiles_cons.
  destruct (applyTranslationsToFile_cases table indentation fileUri w)
    as [[-> _] | [(e & -> & _) | (text & fileContent & _ & Hfile & Hparse
         & [(e & _ & ->) | (applied & Happlied & [(e & _ & ->) | (_ & ->)])])]];
    cbn [snd]; try (apply IH; assumption); try assumption.
  apply IH; [exact Hrealm |]. simpl.
  destruct (decide (fsPath fileUri = name)) as [Heq | Hne].
  - rewrite Heq, lookup_insert_eq. rewrite Heq in Hfile. rewrite Hfile in HP.
    rewrite Hrealm in Happlied.
    exact (Hrewrite fileUri text fileContent applied Heq HP Hparse Happlied).
  - rewrite lookup_insert_ne by exact Hne. exact HP.
Qed.

(** The apply phase leaves a path that resolves to nothing in a file
    unresolved, when no entry of the table can give it a value. *)
Lemma applyTranslationsToFiles_lacks (p : list key) (table : gmap string (list Change))
    (indentation : nat) (targetFiles : list Uri) (w : World) (name : string) :
  no_inherited_index (realm w) →
  (∀ language row, table !! language = Some row → Forall (harmless_for p) row) →
  lacks (realm w) p (files w !! name) →
  lacks (realm w) p
    (files (snd (applyTranslationsToFiles targetFiles table indentation w)) !! name).
Proof.
  intros Hrealm Htable.
  apply (applyTranslationsToFiles_text (lacks (realm w) p) name table indentation
           targetFiles (realm w)); [| reflexivity].
  intros fileUri text fileContent applied _ (t & n & nl & Htext & Hp) Hparse Happlied.
  injection Htext as ->. simpl in Hparse. injection Hparse as <-.
  eexists _, _, _. split; [reflexivity |].
  apply (applyDiffsToJSON_keeps_unresolved (realm w) p
           (table !! extractLocaleFromFileUri fileUri) Hrealm
           (fun ds Hds => Htable _ ds Hds) t applied Hp Happlied).
Qed.

(** The apply phase does not change what [p] resolves to in the file of
    [sibling], when the row of its language is independent of [p]. *)
Lemma applyTranslationsToFiles_holds (p : list key) (v : jsany) (sibling : Uri)
    (table : gmap string (list Change)) (indentation : nat) (targetFiles : list Uri)
    (w : World) :
  no_inherited_index (realm w) →
  (∀ row, table !! extractLocaleFromFileUri sibling = Some row →
          Forall (independent_of p) row) →
  holds (realm w) p v (files w !! fsPath sibling) →
  holds (realm w) p v
    (files (snd (applyTranslationsToFiles targetFiles table indentation w))
     !! fsPath sibling).
Proof.
  intros Hrealm Hrow.
  apply (applyTranslationsToFiles_text (holds (realm w) p v) (fsPath sibling) table
           indentation targetFiles (realm w)); [| reflexivity].
  intros fileUri text fileContent applied Hpath (t & n & nl & Htext & Hp) Hparse Happlied.
  injection Htext as ->. simpl in Hparse. injection Hparse as <-.
  eexists _, _, _. split; [reflexivity |].
  rewrite (applyDiffsToJSON_resolve (realm w) p
             (table !! extractLocaleFromFileUri fileUri) Hrealm) with (target := t);
    [exact Hp | | exact Happlied].
  intros ds Hds. apply Hrow.
  rewrite <- (extractLocaleFromFileUri_fsPath fileUri sibling Hpath). exact Hds.
Qed.

(** ** The account of the apply phase *)

Lemma untouched_refl (name : string) (w : World) : untouched name w w.
Proof. repeat split; auto. Qed.


(** The account does not depend on the log, the status bar, the location
    index or the record of the provider calls. *)
Lemma rewritten_same (table : gmap string (list Change)) (indentation : nat)
    (fileUri : Uri) (w0 w w1 : World) :
  files w1 !! fsPath fileUri = files w !! fsPath fileUri →
  translationFileContents w1 !! fsPath fileUri
  = translationFileContents w !! fsPath fileUri →
  fileLocks w ⊆ fileLocks w1 →
  (∀ name, name ∈ lockReleaseTimers w → name ∈ lockReleaseTimers w1) →
  rewritten table indentation fileUri w0 w →
  rewritten table indentation fileUri w0 w1.
Proof.
  intros Hfiles Hstore Hlocks Htimers
    (text & fileContent & applied & H1 & H2 & H3 & H4 & H5 & H6 & H7 & H8 & H9).
  exists text, fileContent, applied. rewrite Hfiles, Hstore.
  repeat (split; [assumption |]). split; [apply Hlocks; exact H8 | apply Htimers; exact H9].
Qed.

Lemma untouched_same (name : string) (w0 w w1 : World) :
  files w1 !! name = files w !! name →
  translationFileContents w1 !! name = translationFileContents w !! name →
  (name ∈ fileLocks w1 ↔ name ∈ fileLocks w) →
  untouched name w0 w → untouched name w0 w1.
Proof.
  intros Hfiles Hstore Hlocks (H1 & H2 & H3). unfold untouched.
  rewrite Hfiles, Hstore, Hlocks. auto.
Qed.

(** A path that is written is locked. *)
Lemma progress_written_locked (table : gmap string (list Change)) (indentation : nat)
    (seen : list Uri) (written : list string) (w0 w : World) (name : string) :
  progress table indentation seen written w0 w → name ∈ written → name ∈ fileLocks w.
Proof.
  intros (_ & _ & _ & _ & Hin & _) Hname.
  destruct (Hin name Hname) as (f & _ & <- & text & fc & applied & H). tauto.
Qed.

(** A turn that changes nothing of what the account looks at. *)
Lemma progress_same (table : gmap string (list Change)) (indentation : nat)
    (seen : list Uri) (written : list string) (w0 w w1 : World) :
  files w1 = files w →
  translationFileContents w1 = translationFileContents w →
  fileLocks w1 = fileLocks w →
  lockReleaseTimers w1 = lockReleaseTimers w →
  realm w1 = realm w →
  writeFailure w1 = writeFailure w →
  progress table indentation seen written w0 w →
  progress table indentation seen written w0 w1.
Proof.
  intros Hfiles Hstore Hlocks Htimers Hrealm Hwrite
    (H1 & H2 & H3 & H4 & H5 & H6 & H7).
  unfold progress. rewrite Hrealm, Hwrite, Htimers.
  repeat (split; [assumption |]). split; [| split; [| exact H7]].
  - intros name Hname. destruct (H5 name Hname) as (f & Hf & Hpath & Hrew).
    exists f. split; [exact Hf |]. split; [exact Hpath |].
    apply (rewritten_same table indentation f w0 w w1); try assumption.
    + rewrite Hfiles. reflexivity.
    + rewrite Hstore. reflexivity.
    + rewrite Hlocks. reflexivity.
    + rewrite Htimers. auto.
  - intros name Hname.
    apply (untouched_same name w0 w w1); [| | | exact (H6 name Hname)].
    + rewrite Hfiles. reflexivity.
    + rewrite Hstore. reflexivity.
    + rewrite Hlocks. reflexivity.
Qed.

(** One more file seen, of which the account is complete. *)
Lemma progress_seen (table : gmap string (list Change)) (indentation : nat)
    (seen : list Uri) (written : list string) (w0 w : World) (fileUri : Uri) :
  (∀ text fileContent,
     fsPath fileUri ∉ fileLocks w0 →
     files w0 !! fsPath fileUri = Some text → JSON_parse text = Ok fileContent →
     fsPath fileUri ∈ written) →
  progress table indentation seen written w0 w →
  progress table indentation (seen ++ [fileUri]) written w0 w.
Proof.
  intros Hcomplete (H1 & H2 & H3 & H4 & H5 & H6 & H7).
  repeat (split; [assumption |]). split; [| split; [exact H6 |]].
  - intros name Hname. destruct (H5 name Hname) as (f & Hf & Hrest).
    exists f. split; [apply elem_of_app; left; exact Hf | exact Hrest].
  - intros f text fileContent Hf. apply elem_of_app in Hf as [Hf | Hf]; [eauto |].
    apply list_elem_of_singleton in Hf as ->. apply Hcomplete.
Qed.

(** One turn of the loop that does not throw goes on with the account. *)
Lemma progress_step (table : gmap string (list Change)) (indentation : nat)
    (seen : list Uri) (written : list string) (w0 w w1 : World) (fileUri : Uri) :
  progress table indentation seen written w0 w →
  applyTranslationsToFile table indentation fileUri w = (Ok tt, w1) →
  ∃ written', progress table indentation (seen ++ [fileUri]) written' w0 w1.
Proof.
  intros Hprogress Hrun.
  pose proof Hprogress as (Hrealm & Hwrite & Htimers & Hnodup & Hin & Hout & Hseen).
  destruct (applyTranslationsToFile_cases table indentation fileUri w)
    as [[Heq Hlock] | [(e & Heq & Hlock & Hbad) | (text & fileContent & Hlock & Hfile
         & Hparse & [(e & _ & Heq) | (applied & Happlied
                                      & [(e & _ & Heq) | (Haccepted & Heq)])])]];
    rewrite Heq in Hrun; try discriminate; injection Hrun as <-.
  - exists written. apply progress_seen; [| exact Hprogress].
    intros text fileContent Hlock0 _ _.
    destruct (decide (fsPath fileUri ∈ written)) as [Hw | Hw]; [exact Hw |].
    destruct (Hout _ Hw) as (_ & _ & Hiff). exfalso. apply Hlock0, Hiff. exact Hlock.
  - exists written. apply progress_seen.
    + intros text fileContent Hlock0 Hfile0 Hparse0.
      destruct (decide (fsPath fileUri ∈ written)) as [Hw | Hw]; [exact Hw |].
      destruct (Hout _ Hw) as (Hf & _). rewrite Hfile0 in Hf.
      rewrite (Hbad text Hf) in Hparse0. discriminate.
    + apply (progress_same table indentation seen written w0 w); auto.
  - assert (fsPath fileUri ∉ written) as Hnew.
    { intros Hw. apply Hlock.
      apply (progress_written_locked table indentation seen written w0 w _ Hprogress Hw). }
    destruct (Hout _ Hnew) as (Hf0 & Hs0 & Hl0).
    exists (written ++ [fsPath fileUri]). unfold progress. simpl.
    split; [exact Hrealm |]. split; [exact Hwrite |].
    split; [rewrite Htimers, <- app_assoc; reflexivity |].
    split; [| split; [| split]].
    + apply NoDup_app. split; [exact Hnodup |]. split; [| apply NoDup_singleton].
      intros name Hname Hname'. apply list_elem_of_singleton in Hname' as ->.
      exact (Hnew Hname).
    + intros name Hname. apply elem_of_app in Hname as [Hname | Hname].
      * destruct (Hin name Hname) as (f & Hf & Hpath & Hrew).
        exists f. split; [apply elem_of_app; left; exact Hf |]. split; [exact Hpath |].
        assert (fsPath f ≠ fsPath fileUri) as Hne.
        { rewrite Hpath. intros ->. exact (Hnew Hname). }
        apply (rewritten_same table indentation f w0 w); simpl; try exact Hrew.
        -- apply lookup_insert_ne. congruence.
        -- apply lookup_insert_ne. congruence.
        -- apply union_subseteq_l.
        -- intros n Hn. apply elem_of_app. left. exact Hn.
      * apply list_elem_of_singleton in Hname as ->.
        exists fileUri. split; [apply elem_of_app; right; left |]. split; [reflexivity |].
        exists text, fileContent, applied. simpl.
        rewrite !lookup_insert_eq, <- Hrealm, <- Hwrite, <- Hf0.
        split; [intros Hl; apply Hlock, Hl0; exact Hl |].
        repeat (split; [assumption || reflexivity |]).
        split; [apply elem_of_union_r, elem_of_singleton; reflexivity |].
        apply elem_of_app. right. left.
    + intros name Hname.
      assert ((name ∉ written) ∧ (name ≠ fsPath fileUri)) as [Hw Hne].
      { split; intros H; apply Hname, elem_of_app;
          [left; exact H | right; subst name; left]. }
      apply (untouched_same name w0 w); simpl; [| | | exact (Hout name Hw)].
      * apply lookup_insert_ne. congruence.
      * apply lookup_insert_ne. congruence.
      * rewrite elem_of_union, elem_of_singleton. tauto.
    + intros f text' fileContent' Hf Hlock0 Hfile0 Hparse0.
      apply elem_of_app in Hf as [Hf | Hf].
      * apply elem_of_app. left. exact (Hseen f text' fileContent' Hf Hlock0 Hfile0 Hparse0).
      * apply list_elem_of_singleton in Hf as ->. apply elem_of_app. right. left.
Qed.

(** The account when the loop ends with an exception. *)
Lemma progress_throw (table : gmap string (list Change)) (indentation : nat)
    (seen rest : list Uri) (written : list string) (w0 w w1 : World) (fileUri : Uri)
    (e : Error) :
  progress table indentation seen written w0 w →
  applyTranslationsToFile table indentation fileUri w = (Throw e, w1) →
  apply_account table indentation (seen ++ fileUri :: rest) written (Throw e) w0 w1.
Proof.
  intros Hprogress Hrun.
  pose proof Hprogress as (Hrealm & Hwrite & Htimers & Hnodup & Hin & Hout & Hseen).
  assert (∀ name, name ∈ written →
            ∃ f, f ∈ seen ++ fileUri :: rest ∧ fsPath f = name
                 ∧ rewritten table indentation f w0 w) as Hin'.
  { intros name Hname. destruct (Hin name Hname) as (f & Hf & Hrest).
    exists f. split; [apply elem_of_app; left; exact Hf | exact Hrest]. }
  destruct (applyTranslationsToFile_cases table indentation fileUri w)
    as [[Heq Hlock] | [(e' & Heq & Hlock & Hbad) | (text & fileContent & Hlock & Hfile
         & Hparse & [(e' & _ & Heq) | (applied & Happlied
                                       & [(e' & Hrefused & Heq) | (Haccepted & Heq)])])]];
    rewrite Heq in Hrun; try discriminate; injection Hrun as <- <-.
  - unfold apply_account. repeat (split; [assumption |]).
    split; [intros name Hname; left; exact (Hout name Hname) | discriminate].
  - unfold apply_account. simpl.
    split; [exact Hrealm |]. split; [exact Hwrite |]. split; [exact Htimers |].
    split; [exact Hnodup |]. split; [| split; [| discriminate]].
    + intros name Hname. destruct (Hin' name Hname) as (f & Hf & Hpath & Hrew).
      exists f. split; [exact Hf |]. split; [exact Hpath |].
      apply (rewritten_same table indentation f w0 w); simpl; auto.
      apply union_subseteq_l.
    + intros name Hname. destruct (decide (name = fsPath fileUri)) as [-> | Hne].
      * right. exists fileUri, e'.
        split; [apply elem_of_app; right; left |]. split; [reflexivity |].
        split; [| reflexivity].
        destruct (Hout _ Hname) as (Hf0 & Hs0 & Hl0).
        exists text, fileContent, applied. simpl.
        rewrite <- Hrealm, <- Hwrite, <- Hf0.
        split; [intros Hl; apply Hlock, Hl0; exact Hl |].
        repeat (split; [assumption || reflexivity |]).
        apply elem_of_union_r, elem_of_singleton. reflexivity.
      * left. apply (untouched_same name w0 w); simpl; [| | | exact (Hout name Hname)];
          [reflexivity | reflexivity |].
        rewrite elem_of_union, elem_of_singleton. tauto.
Qed.

(** The account of the phase, from any point of the loop. *)
Lemma applyTranslationsToFiles_progress (table : gmap string (list Change))
    (indentation : nat) (w0 : World) (rest : list Uri) :
  ∀ (seen : list Uri) (written : list string) (w : World),
    progress table indentation seen written w0 w →
    ∃ written',
      apply_account table indentation (seen ++ rest) written'
        (fst (applyTranslationsToFiles rest table indentation w))
        w0 (snd (applyTranslationsToFiles rest table indentation w)).
Proof.
  induction rest as [| fileUri rest IH]; intros seen written w Hprogress.
  - exists written. rewrite app_nil_r. simpl.
    destruct Hprogress as (H1 & H2 & H3 & H4 & H5 & H6 & H7).
    unfold apply_account. repeat (split; [assumption |]).
    split; [intros name Hname; left; exact (H6 name Hname) |].
    intros _. exact H7.
  - rewrite applyTranslationsToFiles_cons.
    destruct (applyTranslationsToFile table indentation fileUri w) as [[[] | e] w1] eqn:Hrun.
    + destruct (progress_step table indentation seen written w0 w w1 fileUri
                  Hprogress Hrun) as (written1 & Hprogress1).
      destruct (IH (seen ++ [fileUri]) written1 w1 Hprogress1) as (written' & Haccount).
      exists written'. rewrite <- app_assoc in Haccount. exact Haccount.
    + exists written. cbn [fst snd].
      apply (progress_throw table indentation seen rest written w0 w w1 fileUri e
               Hprogress Hrun).
Qed.

Lemma progress_start (table : gmap string (list Change)) (indentation : nat) (w : World) :
  progress table indentation [] [] w w.
Proof.
  unfold progress. rewrite app_nil_r.
  repeat (split; [reflexivity || constructor |]).
  split; [intros name Hname; inversion Hname |].
  split; [intros name _; apply untouched_refl |].
  intros f text fileContent Hf. inversion Hf.
Qed.

(** The account of the whole phase. *)
Lemma applyTranslationsToFiles_account (table : gmap string (list Change))
    (indentation : nat) (targetFiles : list Uri) (w : World) :
  ∃ written,
    apply_account table indentation targetFiles written
      (fst (applyTranslationsToFiles targetFiles table indentation w))
      w (snd (applyTranslationsToFiles targetFiles table indentation w)).
Proof.
  exact (applyTranslationsToFiles_progress table indentation w targetFiles [] [] w
           (progress_start table indentation w)).
Qed.


(** A file that is not among the target files is not touched. *)
Lemma apply_account_elsewhere (table : gmap string (list Change)) (indentation : nat)
    (targetFiles : list Uri) (written : list string) (outcome : Result unit)
    (w w' : World) (name : string) :
  apply_account table indentation targetFiles written outcome w w' →
  name ∉ fsPath <$> targetFiles →
  (name ∉ written) ∧ untouched name w w'.
Proof.
  intros (_ & _ & _ & _ & Hin & Hout & _) Hnot.
  assert (name ∉ written) as Hw.
  { intros Hname. destruct (Hin name Hname) as (f & Hf & <- & _).
    apply Hnot, list_elem_of_fmap. exists f. auto. }
  split; [exact Hw |].
  destruct (Hout name Hw) as [Hun | (f & e & Hf & <- & _)]; [exact Hun |].
  exfalso. apply Hnot, list_elem_of_fmap. exists f. auto.
Qed.

(** A file that is locked when the phase starts is not touched. *)
Lemma apply_account_locked (table : gmap string (list Change)) (indentation : nat)
    (targetFiles : list Uri) (written : list string) (outcome : Result unit)
    (w w' : World) (name : string) :
  apply_account table indentation targetFiles written outcome w w' →
  name ∈ fileLocks w →
  (name ∉ written) ∧ untouched name w w'.
Proof.
  intros (_ & _ & _ & _ & Hin & Hout & _) Hlock.
  assert (name ∉ written) as Hw.
  { intros Hname.
    destruct (Hin name Hname) as (f & _ & <- & text & fc & applied & Hnl & _).
    exact (Hnl Hlock). }
  split; [exact Hw |].
  destruct (Hout name Hw)
    as [Hun | (f & e & _ & <- & (text & fc & applied & Hnl & _) & _)]; [exact Hun |].
  exfalso. exact (Hnl Hlock).
Qed.

(** ** Reads that do not throw *)





(** ** The event *)

Lemma getTranslationFileDiffs_run (fileUri : Uri) (newJsonContent : Text) (w : World) :
  getTranslationFileDiffs fileUri newJsonContent w =
  (match JSON_parse newJsonContent with
   | Ok newJsonObject =>
       Ok (diffJsonObjects
             (nullish_coalesce (translationFileContents w !! fsPath fileUri) (VObject []))
             newJsonObject)
   | Throw e => Throw e
   end, w).
Proof.
  unfold getTranslationFileDiffs, bind, lift, get_world, ret.
  destruct (JSON_parse newJsonContent); reflexivity.
Qed.

(** The steps of [doExecuteAsync], one after the other. *)
Lemma doExecuteAsync_run (context : TranslationModuleContext) (w : World) :
  doExecuteAsync context w =
  match jsonContent context with
  | None => (Ok tt, w)
  | Some content =>
      if is_empty_text content then (Ok tt, w)
      else
        match fst (getTranslationFileDiffs (inputPath context) content w) with
        | Throw e => (Throw e, w)
        | Ok [] =>
            log VERBOSE ("No diffs found for file " ++ fsPath (inputPath context)
                         ++ ". Skipping.") w
        | Ok diffs =>
            match extractRelevantChanges diffs with
            | [] =>
                log VERBOSE "No diff changes to translate. Skipping."
                  (snd (addOrUpdateFile (inputPath context) w))
            | changesToTranslate =>
                finally
                  (try_catch
                     (translateAndApply context content changesToTranslate
                        (numberOfSpacesForIndentation w))
                     (fun error =>
                        log ERROR ("Error translating changes: " ++ error_message error)))
                  setIdle
                  (snd (addOrUpdateFile (inputPath context) w))
            end
        end
  end.
Proof.
  unfold doExecuteAsync. unfold bind at 1. unfold get_world at 1.
  destruct (jsonContent context) as [content |]; [| reflexivity].
  destruct (is_empty_text content); [reflexivity |].
  unfold bind at 1. rewrite getTranslationFileDiffs_run.
  destruct (JSON_parse content) as [v | e]; [| reflexivity]. simpl fst.
  destruct (diffJsonObjects _ v) as [| d ds]; [reflexivity |].
  unfold bind at 1. simpl addOrUpdateFile.
  destruct (extractRelevantChanges (d :: ds)); reflexivity.
Qed.

(** An event whose diff holds no relevant change stops before the
    translation phase: it writes a line to the log and, if the diff is not
    empty, registers the file in the location index. *)
Lemma doExecuteAsync_nothing_relevant (context : TranslationModuleContext)
    (w : World) (content : Text) (diffs : list Change) :
  jsonContent context = Some content →
  fst (getTranslationFileDiffs (inputPath context) content w) = Ok diffs →
  extractRelevantChanges diffs = [] →
  let w' := snd (doExecuteAsync context w) in
  fst (doExecuteAsync context w) = Ok tt
  ∧ providerCalls w' = providerCalls w
  ∧ files w' = files w
  ∧ translationFileContents w' = translationFileContents w
  ∧ fileLocks w' = fileLocks w
  ∧ statusBar w' = statusBar w.
Proof.
  intros Hcontent Hdiffs Hrel. rewrite doExecuteAsync_run, Hcontent, Hdiffs.
  destruct (is_empty_text content); [simpl; auto 10 |].
  destruct diffs as [| d ds]; [simpl; auto 10 |].
  rewrite Hrel. simpl. auto 10.
Qed.

Lemma translation_start_files (context : TranslationModuleContext) (w : World) :
  files (translation_start context w) = files w.
Proof. reflexivity. Qed.

Lemma translation_start_providerCalls (context : TranslationModuleContext) (w : World) :
  providerCalls (translation_start context w) = providerCalls w.
Proof. reflexivity. Qed.

(** Committing the baseline and resetting the status bar touch neither the
    files nor the record of the provider calls. *)
Lemma committed_files (fileUri : Uri) (text : Text) (w : World) :
  files (set_statusBar Idle (snd (updateEntry fileUri text w))) = files w.
Proof.
  unfold updateEntry, bind, lift, modify, log. destruct (JSON_parse text); reflexivity.
Qed.

Lemma committed_providerCalls (fileUri : Uri) (text : Text) (w : World) :
  providerCalls (set_statusBar Idle (snd (updateEntry fileUri text w))) = providerCalls w.
Proof.
  unfold updateEntry, bind, lift, modify, log. destruct (JSON_parse text); reflexivity.
Qed.

(** An event with a relevant change: the translation phase runs from
    [translation_start] over [siblings]; if it throws, the error is logged
    and the event ends there; otherwise the apply phase runs, and if that
    throws, the error is logged and the event ends there too; otherwise the
    new content of the file becomes the baseline of the next diff. In every
    case the status bar is set back to idle and nothing is thrown. *)
Lemma doExecuteAsync_translating (context : TranslationModuleContext) (w : World)
    (content : Text) (diffs : list Change) :
  jsonContent context = Some content →
  is_empty_text content = false →
  fst (getTranslationFileDiffs (inputPath context) content w) = Ok diffs →
  extractRelevantChanges diffs ≠ [] →
  doExecuteAsync context w =
  match translateChanges (extractLocaleFromFileUri (inputPath context))
          (extractRelevantChanges diffs) (siblings context w)
          (translation_start context w) with
  | (Throw e, w2) => (Ok tt, after_failure e w2)
  | (Ok table, w2) =>
      match applyTranslationsToFiles (siblings context w) table
              (numberOfSpacesForIndentation w) w2 with
      | (Throw e, w3) => (Ok tt, after_failure e w3)
      | (Ok _, w3) =>
          (Ok tt, set_statusBar Idle (snd (updateEntry (inputPath context) content w3)))
      end
  end.
Proof.
  intros Hcontent Hempty Hdiffs Hrel.
  rewrite doExecuteAsync_run, Hcontent, Hempty, Hdiffs.
  destruct diffs as [| d ds]; [contradiction |].
  destruct (extractRelevantChanges (d :: ds)) as [| c cs] eqn:Hcs; [contradiction |].
  unfold finally, try_catch, translateAndApply.
  unfold bind at 1, updateState, modify at 1.
  unfold bind at 1, findRelatedFiles, bind at 1, getTranslationFiles, bind at 1,
    get_world at 1, ret at 1, ret at 1.
  fold (translation_start context w). fold (siblings context w).
  unfold bind at 1.
  destruct (translateChanges _ (c :: cs) (siblings context w) (translation_start context w))
    as [[table | e] w2]; [| reflexivity].
  unfold bind at 1.
  destruct (applyTranslationsToFiles (siblings context w) table
              (numberOfSpacesForIndentation w) w2) as [[[] | e] w3]; [| reflexivity].
  rewrite getTranslationFileDiffs_run in Hdiffs. simpl in Hdiffs.
  unfold updateEntry, bind, lift, modify, log, setIdle. simpl.
  destruct (JSON_parse content); [reflexivity | discriminate].
Qed.

(** The end of an event does not touch the files, the locks, the timers or
    the record of the provider calls. *)
Lemma after_failure_files (e : Error) (w : World) : files (after_failure e w) = files w.
Proof. reflexivity. Qed.

(** What an event with a relevant change leaves of the apply phase: the
    files, the locks, the timers and the provider calls are those at the end
    of the phase. *)
Lemma doExecuteAsync_after_apply (context : TranslationModuleContext) (w : World)
    (content : Text) (diffs : list Change) (table : gmap string (list Change))
    (w2 : World) :
  jsonContent context = Some content →
  is_empty_text content = false →
  fst (getTranslationFileDiffs (inputPath context) content w) = Ok diffs →
  extractRelevantChanges diffs ≠ [] →
  translateChanges (extractLocaleFromFileUri (inputPath context))
    (extractRelevantChanges diffs) (siblings context w) (translation_start context w)
  = (Ok table, w2) →
  let w3 := snd (applyTranslationsToFiles (siblings context w) table
                   (numberOfSpacesForIndentation w) w2) in
  let w' := snd (doExecuteAsync context w) in
  files w' = files w3
  ∧ fileLocks w' = fileLocks w3
  ∧ lockReleaseTimers w' = lockReleaseTimers w3
  ∧ providerCalls w' = providerCalls w3
  ∧ statusBar w' = Idle.
Proof.
  intros Hcontent Hempty Hdiffs Hrel Hrun. cbv zeta.
  rewrite (doExecuteAsync_translating context w content diffs Hcontent Hempty Hdiffs Hrel),
    Hrun.
  destruct (applyTranslationsToFiles _ _ _ _) as [[[] | e] w3]; cbn [snd].
  - unfold updateEntry, bind, lift, modify, log.
    destruct (JSON_parse content); simpl; auto.
  - simpl. auto.
Qed.

Lemma doExecuteAsync_provider_calls (context : TranslationModuleContext) (w : World) :
  ∃ calls,
    providerCalls (snd (doExecuteAsync context w)) = providerCalls w ++ calls
    ∧ Forall (fun call : list jsval * string * string =>
                ∀ v, v ∈ call.1.1 → ∃ change, is_relevant change = true ∧ v = rhs change)
             calls.
Proof.
  assert (∃ calls : list (list jsval * string * string),
             providerCalls w = providerCalls w ++ calls
             ∧ Forall (fun call : list jsval * string * string =>
                         ∀ v, v ∈ call.1.1 →
                              ∃ change, is_relevant change = true ∧ v = rhs change) calls)
    as Hnone.
  { exists []. rewrite app_nil_r. split; [reflexivity | constructor]. }
  destruct (jsonContent context) as [content |] eqn:Hcontent;
    [| rewrite doExecuteAsync_run, Hcontent; exact Hnone].
  destruct (is_empty_text content) eqn:Hempty;
    [rewrite doExecuteAsync_run, Hcontent, Hempty; exact Hnone |].
  destruct (fst (getTranslationFileDiffs (inputPath context) content w))
    as [diffs | e] eqn:Hdiffs;
    [| rewrite doExecuteAsync_run, Hcontent, Hempty, Hdiffs; exact Hnone].
  destruct (extractRelevantChanges diffs) as [| c cs] eqn:Hrel.
  - destruct (doExecuteAsync_nothing_relevant context w content diffs Hcontent Hdiffs Hrel)
      as (_ & -> & _). exact Hnone.
  - assert (extractRelevantChanges diffs ≠ []) as Hne by (rewrite Hrel; discriminate).
    destruct (translateChanges_loop_calls (extractLocaleFromFileUri (inputPath context))
                (extractRelevantChanges diffs) (siblings context w) ∅
                (translation_start context w)) as (calls & Hsnd & Hcalls).
    exists calls. split.
    + fold (translateChanges (extractLocaleFromFileUri (inputPath context))
              (extractRelevantChanges diffs) (siblings context w)
              (translation_start context w)) in Hsnd.
      destruct (translateChanges (extractLocaleFromFileUri (inputPath context))
                  (extractRelevantChanges diffs) (siblings context w)
                  (translation_start context w)) as [[table | e] w2] eqn:Hrun.
      * destruct (doExecuteAsync_after_apply context w content diffs table w2
                    Hcontent Hempty Hdiffs Hne Hrun) as (_ & _ & _ & -> & _).
        rewrite applyTranslationsToFiles_providerCalls.
        simpl in Hsnd. subst w2. reflexivity.
      * rewrite (doExecuteAsync_translating context w content diffs Hcontent Hempty
                   Hdiffs Hne), Hrun.
        simpl in Hsnd. subst w2. reflexivity.
    + eapply Forall_impl; [exact Hcalls |].
      intros call [_ Hvalues] v Hv. destruct (Hvalues v Hv) as (change & Hin & ->).
      exists change. split; [| reflexivity].
      unfold extractRelevantChanges in Hin. apply list_elem_of_filter in Hin. tauto.
Qed.

(** The store and the log at the end of an event with a relevant change
    whose translation phase completed: the apply phase completed too and
    the new content is the baseline, or it threw and the error is logged. *)
Lemma doExecuteAsync_store_after_apply (context : TranslationModuleContext) (w : World)
    (content : Text) (diffs : list Change) (table : gmap string (list Change))
    (w2 : World) :
  jsonContent context = Some content →
  is_empty_text content = false →
  fst (getTranslationFileDiffs (inputPath context) content w) = Ok diffs →
  extractRelevantChanges diffs ≠ [] →
  translateChanges (extractLocaleFromFileUri (inputPath context))
    (extractRelevantChanges diffs) (siblings context w) (translation_start context w)
  = (Ok table, w2) →
  match applyTranslationsToFiles (siblings context w) table
          (numberOfSpacesForIndentation w) w2 with
  | (Ok _, w3) =>
      ∃ newJsonObject,
        JSON_parse content = Ok newJsonObject
        ∧ translationFileContents (snd (doExecuteAsync context w))
          = <[fsPath (inputPath context) := newJsonObject]> (translationFileContents w3)
  | (Throw e, w3) =>
      translationFileContents (snd (doExecuteAsync context w)) = translationFileContents w3
      ∧ last (logs (snd (doExecuteAsync context w)))
        = Some (ERROR, ("Error translating changes: " ++ error_message e)%string)
  end.
Proof.
  intros Hcontent Hempty Hdiffs Hrel Hrun.
  rewrite (doExecuteAsync_translating context w content diffs Hcontent Hempty Hdiffs Hrel),
    Hrun.
  destruct (applyTranslationsToFiles _ _ _ _) as [[[] | e] w3]; cbn [snd].
  - rewrite getTranslationFileDiffs_run in Hdiffs.
    destruct (JSON_parse content) as [newJsonObject | e] eqn:Hparse; [| discriminate].
    exists newJsonObject. split; [reflexivity |].
    unfold updateEntry, bind, lift, modify, log. rewrite Hparse. reflexivity.
  - simpl. rewrite last_snoc. auto.
Qed.

(** The triggering file is not among its siblings. *)
Lemma inputPath_not_sibling (context : TranslationModuleContext) (w : World) :
  fsPath (inputPath context) ∉ fsPath <$> siblings context w.
Proof.
  intros Hin. apply list_elem_of_fmap in Hin as (fileUri & Hpath & Hsib).
  unfold siblings in Hsib. apply list_elem_of_filter in Hsib as [[Hne _] _].
  congruence.
Qed.

(** ** The realm of the examples *)

Lemma position_none (name : string) (l : list string) :
  Forall (fun x => x ≠ name) l → position name l = None.
Proof.
  induction 1 as [| x l Hx _ IH]; [reflexivity |].
  simpl. rewrite bool_decide_eq_false_2 by exact Hx. rewrite IH. reflexivity.
Qed.

(** No built-in prototype of the standard has a property named by an array
    index. *)
Lemma standard_realm_no_inherited_index : no_inherited_index standard_realm.
Proof.
  intros name i Hindex. unfold array_index in Hindex.
  destruct name as [| c s]; [discriminate |].
  simpl digits_value in Hindex.
  destruct (digit_of_ascii c) as [d |] eqn:Hdigit; [| discriminate].
  clear Hindex. cbv [standard_realm inherited]. rewrite position_none; [reflexivity |].
  apply Forall_forall. intros x Hx Heq. subst x.
  unfold inherited_names, array_prototype_names, object_prototype_names in Hx.
  simpl app in Hx.
  repeat (apply elem_of_cons in Hx as [Hx | Hx];
          [injection Hx as -> _; vm_compute in Hdigit; discriminate |]).
  inversion Hx.
Qed.

(** ** C1: an added key a sibling does not have *)

(** C1, as stated, fails on the example of the specification:
    [fr/common.json] has no [common.cancel], the provider is asked for
    ["Cancel"] from ["en"] to ["fr"] and answers ["Annuler"], and the French
    file is written back without the key. *)
Lemma added_key_not_written :
  let w' := snd (doExecuteAsync added_key_context added_key_world) in
  fst (getTranslationFileDiffs en_common (JsonText en_save_cancel 2 true) added_key_world)
  = Ok [DiffNew [KString "common"; KString "cancel"] (VString "Cancel")]
  ∧ providerCalls w' = [([Some (VString "Cancel")], "en", "fr")]
  ∧ french_provider [Some (VString "Cancel")] "en" "fr" = Ok [Some (VString "Annuler")]
  ∧ files w' !! fsPath fr_common = Some (JsonText fr_save 2 true)
  ∧ resolve (realm w') [KString "common"; KString "cancel"] (Some (Json fr_save)) = Ok None.
Proof. vm_compute. repeat split; reflexivity. Qed.

(** C1 (as the code has it): when the diff of the source file holds an Added
    entry with a non-empty string value and the path resolves to nothing in
    a sibling file (no own and no inherited property on the way), a
    translation phase that completes has asked the provider for the value,
    from the language of the source to the language of the sibling; the
    apply phase sets a value only where the path already resolves to a
    defined value, so that after the event the sibling is JSON in which the
    path still resolves to nothing. (The paths of the Edited entries of a
    diff are no ancestors of the path of another entry, and the prototype of
    arrays has no property named by an index.) *)
Theorem added_key_requested_not_written (context : TranslationModuleContext) (w : World)
    (content : Text) (diffs : list Change) (p : list key) (s : string)
    (sibling : Uri) (t : value) (n : nat) (nl : bool)
    (table : gmap string (list Change)) :
  jsonContent context = Some content →
  is_empty_text content = false →
  fst (getTranslationFileDiffs (inputPath context) content w) = Ok diffs →
  DiffNew p (VString s) ∈ diffs →
  s ≠ "" →
  (∀ change q, change ∈ diffs → kind change = KindE → path change = Some q →
               ¬ names q `prefix_of` names p) →
  no_inherited_index (realm w) →
  sibling ∈ siblings context w →
  files w !! fsPath sibling = Some (JsonText t n nl) →
  resolve (realm w) p (Some (Json t)) = Ok None →
  fst (translateChanges (extractLocaleFromFileUri (inputPath context))
         (extractRelevantChanges diffs) (siblings context w)
         (translation_start context w)) = Ok table →
  (∃ calls values,
      providerCalls (snd (doExecuteAsync context w)) = providerCalls w ++ calls
      ∧ (values, extractLocaleFromFileUri (inputPath context),
         extractLocaleFromFileUri sibling) ∈ calls
      ∧ Some (VString s) ∈ values)
  ∧ lacks (realm w) p (files (snd (doExecuteAsync context w)) !! fsPath sibling).
Proof.
  intros Hcontent Hempty Hdiffs Hadded Hs Hprefix Hrealm Hsibling Hfile Hp Htable.
  assert (DiffNew p (VString s) ∈ extractRelevantChanges diffs) as Hrelevant.
  { unfold extractRelevantChanges. apply list_elem_of_filter. split; [| exact Hadded].
    rewrite is_relevant_leaf. destruct s; [contradiction | reflexivity]. }
  assert (extractRelevantChanges diffs ≠ []) as Hne.
  { intros Hnil. rewrite Hnil in Hrelevant. inversion Hrelevant. }
  assert (Forall (harmless_for p) (extractRelevantChanges diffs)) as Hharmless.
  { apply Forall_forall. intros change Hin. unfold extractRelevantChanges in Hin.
    apply list_elem_of_filter in Hin as [Hrel Hin]. split.
    - apply is_relevant_kind. exact Hrel.
    - intros q. apply Hprefix. exact Hin. }
  destruct (translateChanges (extractLocaleFromFileUri (inputPath context))
              (extractRelevantChanges diffs) (siblings context w)
              (translation_start context w)) as [[table0 | e] w2] eqn:Hrun;
    simpl in Htable; [| discriminate].
  injection Htable as ->.
  destruct (doExecuteAsync_after_apply context w content diffs table w2
              Hcontent Hempty Hdiffs Hne Hrun) as (Hfiles & _ & _ & Hcalls' & _).
  rewrite Hfiles, Hcalls'. clear Hfiles Hcalls'.
  unfold translateChanges in Hrun.
  destruct (translateChanges_loop_requests _ _ _ _ _ _ _ Hrun) as (calls & Hcalls & Hreq).
  destruct (translateChanges_loop_calls (extractLocaleFromFileUri (inputPath context))
              (extractRelevantChanges diffs) (siblings context w) ∅
              (translation_start context w)) as (calls' & Hw2 & _).
  rewrite Hrun in Hw2. simpl in Hw2.
  split.
  - destruct (Hreq sibling (JsonText t n nl) t (DiffNew p (VString s)) p
                Hsibling Hfile eq_refl Hrelevant eq_refl)
      as (values & Hvalues & Hrhs); [exists None; split; [exact Hp | reflexivity] |].
    exists calls, values. split; [| split; [exact Hvalues | exact Hrhs]].
    rewrite <- (translation_start_providerCalls context w), <- Hcalls.
    apply applyTranslationsToFiles_providerCalls.
  - assert (realm w2 = realm w) as Hrealm2 by (rewrite Hw2; reflexivity).
    assert (lacks (realm w2) p (files w2 !! fsPath sibling)) as Hlacks.
    { rewrite Hw2. simpl. exists t, n, nl. split; [exact Hfile | exact Hp]. }
    pose proof (translateChanges_loop_table (harmless_for p) _ _ _
                  (harmless_for_with_rhs p) Hharmless ∅ table _ _
                  (fun language row H => ltac:(rewrite lookup_empty in H; discriminate))
                  Hrun) as Hrows.
    rewrite <- Hrealm2 in Hrealm |- *.
    exact (applyTranslationsToFiles_lacks p table (numberOfSpacesForIndentation w)
             (siblings context w) w2 (fsPath sibling) Hrealm Hrows Hlacks).
Qed.

Lemma added_key_requested_not_written_witness :
  (∃ calls values,
      providerCalls (snd (doExecuteAsync added_key_context added_key_world))
      = providerCalls added_key_world ++ calls
      ∧ (values, extractLocaleFromFileUri (inputPath added_key_context),
         extractLocaleFromFileUri fr_common) ∈ calls
      ∧ Some (VString "Cancel") ∈ values)
  ∧ lacks (realm added_key_world) [KString "common"; KString "cancel"]
      (files (snd (doExecuteAsync added_key_context added_key_world)) !! fsPath fr_common).
Proof.
  apply (added_key_requested_not_written added_key_context added_key_world
           (JsonText en_save_cancel 2 true)
           [DiffNew [KString "common"; KString "cancel"] (VString "Cancel")]
           [KString "common"; KString "cancel"] "Cancel" fr_common fr_save 2 true
           {[ "fr" := [DiffNew [KString "common"; KString "cancel"] (VString "Annuler")] ]}).
  - reflexivity.
  - reflexivity.
  - vm_compute. reflexivity.
  - left.
  - discriminate.
  - intros change q Hin Hkind. apply list_elem_of_singleton in Hin. subst change.
    discriminate.
  - exact standard_realm_no_inherited_index.
  - vm_compute. left.
  - vm_compute. reflexivity.
  - reflexivity.
  - vm_compute. reflexivity.
Defined.

(** The path of an Added entry can resolve in a sibling that has no such
    member: [constructor] is inherited by every object. The sibling does not
    miss it and the provider is not asked. *)
Lemma inherited_name_is_not_requested :
  let w := set_files (fun fs => <[fsPath en_common := JsonText en_constructor 2 true]>
                                  (<[fsPath fr_common := JsonText fr_other 2 true]> fs))
             (set_translationFileContents
                (fun contents => <[fsPath en_common := VObject []]>
                                   (<[fsPath fr_common := fr_other]> contents))
                added_key_world) in
  let context := mkContext en_common (Some (JsonText en_constructor 2 true)) in
  fst (getTranslationFileDiffs en_common (JsonText en_constructor 2 true) w)
  = Ok [DiffNew [KString "constructor"] (VString "Builder")]
  ∧ own_resolve [KString "constructor"] fr_other = None
  ∧ resolve (realm w) [KString "constructor"] (Some (Json fr_other)) = Ok (Some (Native 0))
  ∧ providerCalls (snd (doExecuteAsync context w)) = [].
Proof. vm_compute. repeat split; reflexivity. Qed.

(** For contrast, the course the apply phase is written for: the sibling
    holds the key with an empty value, the source fills its own value in (an
    Edited entry), and the sibling receives the translation. *)
Lemma edited_key_is_written :
  let w' := snd (doExecuteAsync edited_key_context edited_key_world) in
  fst (getTranslationFileDiffs en_common (JsonText en_save_cancel 2 true) edited_key_world)
  = Ok [DiffEdit [KString "common"; KString "cancel"] (VString "") (VString "Cancel")]
  ∧ providerCalls w' = [([Some (VString "Cancel")], "en", "fr")]
  ∧ files w' !! fsPath fr_common
    = Some (JsonText
              (VObject [("common", VObject [("save", VString "Enregistrer");
                                            ("cancel", VString "Annuler")])])
              2 true)
  ∧ fsPath fr_common ∈ fileLocks w'
  ∧ lockReleaseTimers w' = [fsPath fr_common]
  ∧ translationFileContents w' !! fsPath en_common = Some en_save_cancel.
Proof. vm_compute. repeat split; reflexivity. Qed.

(** ** C2: a sibling that has the value already *)

(** Outside the defect, C2 holds: a sibling that is the only file of its
    language among the siblings keeps, at the path of every relevant change,
    the value it has there when that value is not missing, [null] or the
    empty string. *)
Lemma sole_sibling_keeps_value (context : TranslationModuleContext) (w : World)
    (content : Text) (diffs : list Change) (sibling : Uri) (t : value) (n : nat) (nl : bool)
    (change : Change) (p : list key) (v : jsany) :
  jsonContent context = Some content →
  is_empty_text content = false →
  fst (getTranslationFileDiffs (inputPath context) content w) = Ok diffs →
  prefix_free (extractRelevantChanges diffs) →
  no_inherited_index (realm w) →
  sibling ∈ siblings context w →
  (∀ other, other ∈ siblings context w →
            extractLocaleFromFileUri other = extractLocaleFromFileUri sibling →
            other = sibling) →
  files w !! fsPath sibling = Some (JsonText t n nl) →
  change ∈ extractRelevantChanges diffs →
  path change = Some p →
  resolve (realm w) p (Some (Json t)) = Ok v →
  is_missing v = false →
  holds (realm w) p v (files (snd (doExecuteAsync context w)) !! fsPath sibling).
Proof.
  intros Hcontent Hempty Hdiffs Hfree Hrealm Hsibling Hsole Hfile Hchange Hp Hv Hvalue.
  assert (extractRelevantChanges diffs ≠ []) as Hne.
  { intros Hnil. rewrite Hnil in Hchange. inversion Hchange. }
  assert (holds (realm w) p v (files w !! fsPath sibling)) as Hbefore.
  { exists t, n, nl. split; [exact Hfile | exact Hv]. }
  destruct (translateChanges_loop_calls (extractLocaleFromFileUri (inputPath context))
              (extractRelevantChanges diffs) (siblings context w) ∅
              (translation_start context w)) as (calls & Hw2 & _).
  destruct (translateChanges (extractLocaleFromFileUri (inputPath context))
              (extractRelevantChanges diffs) (siblings context w)
              (translation_start context w)) as [[table | e] w2] eqn:Hrun.
  - destruct (doExecuteAsync_after_apply context w content diffs table w2
                Hcontent Hempty Hdiffs Hne Hrun) as (-> & _).
    unfold translateChanges in Hrun. rewrite Hrun in Hw2. simpl in Hw2.
    assert (realm w = realm w2) as Hrealm2 by (rewrite Hw2; reflexivity).
    rewrite Hrealm2 in Hrealm |- *.
    apply applyTranslationsToFiles_holds; [exact Hrealm | |].
    + intros row Hrow.
      destruct (translateChanges_loop_row _ _ _ _ _ _ _ Hrun _ row Hrow)
        as [Hempty_row | (f & text & fc & Hin & Hlang & Hf & Hparse & Hentries)];
        [rewrite lookup_empty in Hempty_row; discriminate |].
      assert (f = sibling) as -> by (apply Hsole; assumption).
      simpl in Hf. rewrite Hfile in Hf. injection Hf as <-.
      simpl in Hparse. injection Hparse as <-.
      eapply Forall_impl; [exact Hentries |].
      intros d (c & q & Hc & Hkind & Hdq & Hcq & x & Hx & Hmissing). split.
      * rewrite Hkind. apply is_relevant_kind.
        unfold extractRelevantChanges in Hc. apply list_elem_of_filter in Hc. tauto.
      * intros q' _ Hq'. rewrite Hdq in Hq'. injection Hq' as <-.
        destruct (Hfree change c p q Hchange Hc Hp Hcq) as [Hsame | Hapart];
          [| exact Hapart].
        rewrite (resolve_names (realm w) p q Hsame) in Hv.
        change (realm (translation_start context w)) with (realm w) in Hx.
        rewrite Hx in Hv. injection Hv as ->. rewrite Hmissing in Hvalue. discriminate.
    + rewrite Hw2. exact Hbefore.
  - rewrite (doExecuteAsync_translating context w content diffs Hcontent Hempty Hdiffs Hne),
      Hrun.
    unfold translateChanges in Hrun. rewrite Hrun in Hw2. simpl in Hw2. subst w2.
    exact Hbefore.
Qed.

(** C2 (what the code does): two French files of the same namespace;
    [web/fr] holds ["ya"] at [a.b], [admin/fr] holds the empty string. The
    source changes [a.b] from ["hi"] to ["hello"]. The translation is asked
    for once, for the file that misses it; the table of translations is
    keyed by the language, so the apply phase gives the entry to both French
    files, and ["ya"] is overwritten. *)
Theorem translated_sibling_is_overwritten :
  let w' := snd (doExecuteAsync greeting_context two_french_files_world) in
  resolve (realm two_french_files_world) [KString "a"; KString "b"]
    (Some (Json (greeting "ya"))) = Ok (Some (Json (VString "ya")))
  ∧ files two_french_files_world !! fsPath web_fr = Some (JsonText (greeting "ya") 2 true)
  ∧ providerCalls w' = [([Some (VString "hello")], "en", "fr")]
  ∧ files w' !! fsPath web_fr = Some (JsonText (greeting "bonjour") 2 true)
  ∧ files w' !! fsPath admin_fr = Some (JsonText (greeting "bonjour") 2 true).
Proof. vm_compute. repeat split; reflexivity. Qed.

(** ** C3: what the relevant-change filter keeps *)

(** C3, as stated, fails: an Added entry whose new value is the number 3 has
    a new value that is not empty and is not an object, so the wording of the
    specification keeps it; the filter of the code drops it. *)
Lemma relevant_filter_drops_number :
  filter (fun change => relevant_as_specified change = true) [added_number] = [added_number]
  ∧ extractRelevantChanges [added_number] = [].
Proof. split; reflexivity. Qed.

(** C3 (as the code has it): the filter keeps exactly the entries of kind
    Added or Edited whose new value is a non-empty string, or an object or
    array that contains at least one non-empty string leaf; and an event
    whose diff holds only Deleted entries makes no provider call and leaves
    every file as it was. *)
Theorem relevant_filter_exact (diffs : list Change) :
  extractRelevantChanges diffs = filter (fun change => relevant_exactly change = true) diffs
  ∧ ∀ (context : TranslationModuleContext) (w : World) (content : Text),
      jsonContent context = Some content →
      fst (getTranslationFileDiffs (inputPath context) content w) = Ok diffs →
      Forall (fun change => kind change = KindD) diffs →
      providerCalls (snd (doExecuteAsync context w)) = providerCalls w
      ∧ files (snd (doExecuteAsync context w)) = files w.
Proof.
  split.
  - unfold extractRelevantChanges. induction diffs as [| c rest IH]; [reflexivity |].
    rewrite !filter_cons, IH, is_relevant_exactly. reflexivity.
  - intros context w content Hcontent Hdiffs Hdeleted.
    pose proof (doExecuteAsync_nothing_relevant context w content diffs Hcontent Hdiffs
                  (extractRelevantChanges_deleted diffs Hdeleted)) as H.
    simpl in H. tauto.
Qed.

Lemma relevant_filter_exact_witness :
  providerCalls (snd (doExecuteAsync deleted_key_context deleted_key_world))
  = providerCalls deleted_key_world
  ∧ files (snd (doExecuteAsync deleted_key_context deleted_key_world))
    = files deleted_key_world.
Proof.
  apply (proj2 (relevant_filter_exact
                  [DiffDeleted [KString "common"; KString "cancel"] (VString "Cancel")])
           deleted_key_context deleted_key_world (JsonText en_save 2 true)).
  - reflexivity.
  - vm_compute. reflexivity.
  - repeat constructor.
Defined.

(** ** C4: the chain of action modules *)

(** C4, as stated, fails: the logic of the first module completes with
    [false], the answer of a handler that does not want the chain to go on,
    and the next module runs all the same. *)
Lemma successor_runs_after_false :
  fst (doExecute first_module tt empty_world) = Ok false
  ∧ logs (snd (execute first_module tt empty_world))
    = [(INFO, "first module"); (INFO, "second module")].
Proof. split; reflexivity. Qed.

(** C4 (as the code has it): a module with a next module runs its own logic
    first and then always hands the same context to the next module,
    whatever its logic returned; the next module is left out only when the
    logic throws. *)
Theorem execute_forwards_always {ModuleContext R : Type}
    (m next : ActionModule ModuleContext R) (context : ModuleContext) (w : World) :
  nextModule m = Some next →
  (∀ r w', doExecute m context w = (Ok r, w') →
           execute m context w = execute next context w')
  ∧ (∀ e w', doExecute m context w = (Throw e, w') →
             execute m context w = (Throw e, w')).
Proof.
  destruct m as [logic nxt]. simpl. intros ->.
  split; intros x w' Hrun; unfold bind; rewrite Hrun; reflexivity.
Qed.

Lemma execute_forwards_always_witness :
  execute first_module tt empty_world
  = execute second_module tt (set_logs (fun l => l ++ [(INFO, "first module")]) empty_world).
Proof.
  apply (proj1 (execute_forwards_always first_module second_module tt empty_world eq_refl)
           false).
  reflexivity.
Defined.

(** ** C5: the change callback of a file watcher *)

(** C5, as stated, fails: the lock store holds the path, the watcher was
    created without a disable flag, and the handler runs. *)
Lemma locked_path_is_handled :
  fst (hasFileLock fr_common locked_world) = Ok true
  ∧ logs (snd (onDidChange [] (Some logging_handler) fr_common locked_world))
    = [(INFO, "handled /workspace/locales/fr/common.json")].
Proof. split; reflexivity. Qed.

(** C5 (as the code has it): the callback of a watcher evaluates the disable
    flags it was created with before it calls the handler. While one of the
    flags answers true, a change event does not reach the handler: it is
    dropped and nothing changes. When no flag answers true the handler is
    called, whatever the lock store holds: the callback does not consult it. *)
Theorem disabled_event_is_dropped (disableFlags : list (World → bool))
    (fileChangeHandler : option (Uri → M unit)) (uri : Uri) (w : World) :
  ((∃ flag, flag ∈ disableFlags ∧ flag w = true) →
   onDidChange disableFlags fileChangeHandler uri w = (Ok tt, w))
  ∧ ((∀ flag, flag ∈ disableFlags → flag w = false) →
     onDidChange disableFlags fileChangeHandler uri w
     = match fileChangeHandler with
       | Some handleFileChangeAsync => handleFileChangeAsync uri w
       | None => (Ok tt, w)
       end).
Proof.
  unfold onDidChange, bind, get_world. split.
  - intros (flag & Hin & Htrue).
    assert (existsb (fun flag => flag w) disableFlags = true) as ->; [| reflexivity].
    apply existsb_exists. exists flag. split; [| exact Htrue].
    apply list_elem_of_In. exact Hin.
  - intros Hnone.
    assert (existsb (fun flag => flag w) disableFlags = false) as ->.
    { apply not_true_is_false. intros Hex.
      apply existsb_exists in Hex as (flag & Hin & Htrue).
      apply list_elem_of_In in Hin. rewrite (Hnone flag Hin) in Htrue. discriminate. }
    destruct fileChangeHandler; reflexivity.
Qed.

Lemma disabled_event_is_dropped_witness :
  onDidChange [fun w => bool_decide (fsPath fr_common ∈ fileLocks w)]
    (Some logging_handler) fr_common locked_world
  = (Ok tt, locked_world)
  ∧ onDidChange [] (Some logging_handler) fr_common locked_world
    = logging_handler fr_common locked_world.
Proof.
  split.
  - apply (proj1 (disabled_event_is_dropped
                    [fun w => bool_decide (fsPath fr_common ∈ fileLocks w)]
                    (Some logging_handler) fr_common locked_world)).
    eexists. split; [apply list_elem_of_here | reflexivity].
  - apply (proj2 (disabled_event_is_dropped [] (Some logging_handler) fr_common
                    locked_world)).
    intros flag Hin. inversion Hin.
Defined.

(** ** C6: a sibling that is not JSON *)

(** Whenever an event with a relevant change has a sibling whose text is
    not JSON, the translation phase throws and no file is written, whatever
    the other siblings hold. *)
Lemma malformed_sibling_stops_every_write (context : TranslationModuleContext) (w : World)
    (content : Text) (diffs : list Change) (sibling : Uri) (raw message : string) :
  jsonContent context = Some content →
  is_empty_text content = false →
  fst (getTranslationFileDiffs (inputPath context) content w) = Ok diffs →
  extractRelevantChanges diffs ≠ [] →
  sibling ∈ siblings context w →
  files w !! fsPath sibling = Some (Malformed raw message) →
  files (snd (doExecuteAsync context w)) = files w
  ∧ translationFileContents (snd (doExecuteAsync context w)) = translationFileContents w.
Proof.
  intros Hcontent Hempty Hdiffs Hrel Hsibling Hfile.
  rewrite (doExecuteAsync_translating context w content diffs Hcontent Hempty Hdiffs Hrel).
  destruct (translateChanges_loop_malformed (extractLocaleFromFileUri (inputPath context))
              (extractRelevantChanges diffs) (siblings context w) sibling raw message
              Hsibling ∅ (translation_start context w) Hfile) as [e He].
  destruct (translateChanges_loop_calls (extractLocaleFromFileUri (inputPath context))
              (extractRelevantChanges diffs) (siblings context w) ∅
              (translation_start context w)) as (calls & Hw2 & _).
  unfold translateChanges.
  destruct (translateChanges_loop _ _ _ _ _) as [[table | e'] w2];
    simpl in He, Hw2; [discriminate |].
  subst w2. split; reflexivity.
Qed.

(** C6 (what the code does): [fr/common.json] is not JSON and
    [de/common.json] misses the translation. [translateChanges] parses the
    French file outside any [try]; the exception ends the event: the
    provider is never asked for German, no file is written, the German file
    is as it was, and the only trace is the error line of [doExecuteAsync]. *)
Theorem malformed_sibling_aborts_event :
  let w' := snd (doExecuteAsync edited_key_context malformed_sibling_world) in
  fst (doExecuteAsync edited_key_context malformed_sibling_world) = Ok tt
  ∧ providerCalls w' = []
  ∧ files w' = files malformed_sibling_world
  ∧ files w' !! fsPath de_common = Some (JsonText de_cancel_empty 2 true)
  ∧ logs w'
    = [(ERROR, "Error translating changes: "
               +:+ "Expected property name or '}' in JSON at position 2")]
  ∧ translationFileContents w' !! fsPath en_common = Some en_cancel_empty
  ∧ statusBar w' = Idle.
Proof. vm_compute. repeat split; reflexivity. Qed.

(** ** C7: a failed provider call *)

(** C7: when a call to the translation provider fails, the event ends
    there. The loop of [translateChanges] has dealt with the siblings [done],
    the next sibling [targetFile] is read and parsed and misses some of the
    changes, and the provider answers the call for their values with the
    exception [e]. Then the failing call is the last call of the event: the
    calls on record are one for each file of [done] that missed something
    and the failing one, none for the siblings after [targetFile]. No file
    is written, no lock is taken and no release is scheduled, the store keeps
    the content it had for every file (the file of the event among them),
    the error is logged, nothing is thrown and the status bar is idle. *)
Theorem provider_failure_aborts_event (context : TranslationModuleContext) (w : World)
    (content : Text) (diffs : list Change) (done rest : list Uri) (targetFile : Uri)
    (table : gmap string (list Change)) (text : Text) (fileContent : value)
    (changesToTranslate : list Change) (e : Error) :
  let sourceLanguage := extractLocaleFromFileUri (inputPath context) in
  let changes := extractRelevantChanges diffs in
  jsonContent context = Some content →
  is_empty_text content = false →
  fst (getTranslationFileDiffs (inputPath context) content w) = Ok diffs →
  siblings context w = done ++ targetFile :: rest →
  fst (translateChanges sourceLanguage changes done (translation_start context w))
  = Ok table →
  files w !! fsPath targetFile = Some text →
  JSON_parse text = Ok fileContent →
  changesToTranslateFor (realm w) fileContent changes = Ok changesToTranslate →
  changesToTranslate ≠ [] →
  translationProvider w (rhs <$> changesToTranslate) sourceLanguage
    (extractLocaleFromFileUri targetFile) = Throw e →
  fst (doExecuteAsync context w) = Ok tt
  ∧ providerCalls (snd (doExecuteAsync context w))
    = providerCalls w
      ++ omap (call_of w sourceLanguage changes) done
      ++ [(rhs <$> changesToTranslate, sourceLanguage,
           extractLocaleFromFileUri targetFile)]
  ∧ files (snd (doExecuteAsync context w)) = files w
  ∧ translationFileContents (snd (doExecuteAsync context w)) = translationFileContents w
  ∧ fileLocks (snd (doExecuteAsync context w)) = fileLocks w
  ∧ lockReleaseTimers (snd (doExecuteAsync context w)) = lockReleaseTimers w
  ∧ statusBar (snd (doExecuteAsync context w)) = Idle
  ∧ last (logs (snd (doExecuteAsync context w)))
    = Some (ERROR, ("Error translating changes: " ++ error_message e)%string).
Proof.
  intros sourceLanguage changes Hcontent Hempty Hdiffs Hsiblings Hdone Hfile Hparse Hcs
    Hne Hfail.
  assert (changes ≠ []) as Hrel.
  { intros Hnil. rewrite Hnil in Hcs. injection Hcs as <-. contradiction. }
  rewrite (doExecuteAsync_translating context w content diffs Hcontent Hempty Hdiffs Hrel).
  destruct (translateChanges sourceLanguage changes done (translation_start context w))
    as [[table0 | e0] w1] eqn:Hrun; simpl in Hdone; [| discriminate].
  destruct (translateChanges_loop_calls sourceLanguage changes done ∅
              (translation_start context w)) as (calls & Hw1 & _).
  unfold translateChanges in Hrun. rewrite Hrun in Hw1. simpl in Hw1.
  fold (translateChanges sourceLanguage changes done (translation_start context w)) in Hrun.
  fold sourceLanguage changes. rewrite Hsiblings.
  rewrite (translateChanges_fails_at sourceLanguage changes done rest targetFile table0
             (translation_start context w) w1 text fileContent changesToTranslate e Hrun);
    try assumption; try (rewrite Hw1; assumption).
  simpl. rewrite last_snoc. auto 10.
Qed.

Lemma provider_failure_aborts_event_witness :
  fst (doExecuteAsync edited_key_context provider_down_world) = Ok tt
  ∧ providerCalls (snd (doExecuteAsync edited_key_context provider_down_world))
    = [([Some (VString "Cancel")], "en", "fr")]
  ∧ files (snd (doExecuteAsync edited_key_context provider_down_world))
    = files provider_down_world
  ∧ translationFileContents (snd (doExecuteAsync edited_key_context provider_down_world))
    = translationFileContents provider_down_world
  ∧ fileLocks (snd (doExecuteAsync edited_key_context provider_down_world))
    = fileLocks provider_down_world
  ∧ lockReleaseTimers (snd (doExecuteAsync edited_key_context provider_down_world))
    = lockReleaseTimers provider_down_world
  ∧ statusBar (snd (doExecuteAsync edited_key_context provider_down_world)) = Idle
  ∧ last (logs (snd (doExecuteAsync edited_key_context provider_down_world)))
    = Some (ERROR, "Error translating changes: quota exceeded").
Proof.
  apply (provider_failure_aborts_event edited_key_context provider_down_world
           (JsonText en_save_cancel 2 true)
           [DiffEdit [KString "common"; KString "cancel"] (VString "") (VString "Cancel")]
           [] [] fr_common ∅ (JsonText fr_cancel_empty 2 true) fr_cancel_empty
           [DiffEdit [KString "common"; KString "cancel"] (VString "") (VString "Cancel")]
           (ProviderError "quota exceeded")).
  - reflexivity.
  - reflexivity.
  - vm_compute. reflexivity.
  - vm_compute. reflexivity.
  - reflexivity.
  - vm_compute. reflexivity.
  - reflexivity.
  - vm_compute. reflexivity.
  - discriminate.
  - reflexivity.
Defined.

(** ** C8: the diff of a file the store does not hold *)

Lemma deepDiff_empty_object (currentPath : list key) (members : list (string * value)) :
  deepDiff currentPath (VObject []) (VObject members)
  = (fun m => DiffNew (currentPath ++ [KString m.1]) m.2) <$> members.
Proof.
  simpl. induction members as [| [k v] rest IH]; [reflexivity |].
  simpl. f_equal. exact IH.
Qed.

(** C8: for a path the store holds no content for, the diffs of a new
    content are the diff of the empty object against the parsed content; when
    the content is an object, every top-level key is an Added entry. *)
Theorem untracked_path_diffs (fileUri : Uri) (newJsonContent : Text) (w : World)
    (newJsonObject : value) :
  translationFileContents w !! fsPath fileUri = None →
  JSON_parse newJsonContent = Ok newJsonObject →
  getTranslationFileDiffs fileUri newJsonContent w
  = (Ok (diffJsonObjects (VObject []) newJsonObject), w)
  ∧ ∀ members, newJsonObject = VObject members →
      diffJsonObjects (VObject []) newJsonObject
      = (fun m => DiffNew [KString m.1] m.2) <$> members.
Proof.
  intros Hstore Hparse. split.
  - rewrite getTranslationFileDiffs_run, Hparse, Hstore. reflexivity.
  - intros members ->. apply (deepDiff_empty_object []).
Qed.

Lemma untracked_path_diffs_witness :
  getTranslationFileDiffs en_common (JsonText en_save 2 true) empty_world
  = (Ok [DiffNew [KString "common"] (VObject [("save", VString "Save")])], empty_world).
Proof.
  apply (untracked_path_diffs en_common (JsonText en_save 2 true) empty_world en_save);
    reflexivity.
Defined.

(** ** C9: scalar values *)

(** C9: an Added or Edited entry whose new value is a number, a boolean or
    [null] has no string for [getAllStringValues] to collect and is not kept
    by the filter, in whatever diff it stands; and no provider call of any
    event carries such a value. *)
Theorem scalar_change_never_translated (change : Change) :
  is_scalar (rhs change) = true →
  getAllStringValues (rhs change) = []
  ∧ (∀ diffs, change ∉ extractRelevantChanges diffs)
  ∧ ∀ (context : TranslationModuleContext) (w : World),
      ∃ calls,
        providerCalls (snd (doExecuteAsync context w)) = providerCalls w ++ calls
        ∧ ∀ call, call ∈ calls → rhs change ∉ call.1.1.
Proof.
  intros Hscalar. split; [| split].
  - destruct (rhs change) as [[| | | | |] |]; try discriminate; reflexivity.
  - intros diffs Hin. unfold extractRelevantChanges in Hin.
    apply list_elem_of_filter in Hin as [Hrel _].
    rewrite (is_relevant_scalar change Hscalar) in Hrel. discriminate.
  - intros context w.
    destruct (doExecuteAsync_provider_calls context w) as (calls & Hcalls & Hvalues).
    exists calls. split; [exact Hcalls |].
    intros call Hcall Hin. rewrite Forall_forall in Hvalues.
    destruct (Hvalues call Hcall _ Hin) as (c & Hrel & Heq).
    rewrite Heq in Hscalar. rewrite (is_relevant_scalar c Hscalar) in Hrel. discriminate.
Qed.

Lemma scalar_change_never_translated_witness :
  getAllStringValues (rhs added_number) = []
  ∧ (∀ diffs, added_number ∉ extractRelevantChanges diffs)
  ∧ ∀ (context : TranslationModuleContext) (w : World),
      ∃ calls,
        providerCalls (snd (doExecuteAsync context w)) = providerCalls w ++ calls
        ∧ ∀ call, call ∈ calls → rhs added_number ∉ call.1.1.
Proof.
  apply (scalar_change_never_translated added_number). reflexivity.
Defined.

(** ** C10: an event without content *)

(** C10: when the context carries no new content, absent or empty,
    [doExecuteAsync] returns at once and the world is the one it started
    from: no diff, no store or file changed, the status bar untouched. *)
Theorem no_content_no_effect (context : TranslationModuleContext) (w : World) :
  jsonContent context = None
  ∨ (∃ message, jsonContent context = Some (Malformed "" message)) →
  doExecuteAsync context w = (Ok tt, w).
Proof.
  intros [H | [message H]]; rewrite doExecuteAsync_run, H; reflexivity.
Qed.

Lemma no_content_no_effect_witness :
  doExecuteAsync (mkContext en_common None) added_key_world = (Ok tt, added_key_world).
Proof.
  apply (no_content_no_effect (mkContext en_common None) added_key_world).
  left. reflexivity.
Defined.

(** ** applyTranslationsToFiles: what the apply phase does to a file *)

(** X1: the apply phase passes over every file whose path is locked when
    the phase starts: its text and its entry in the store are what they
    were; and the phase itself releases no lock (a release is the work of a
    timer, and the timers run after the event). *)
Theorem apply_phase_skips_locked (table : gmap string (list Change)) (indentation : nat)
    (targetFiles : list Uri) (w : World) (name : string) :
  name ∈ fileLocks w →
  files (snd (applyTranslationsToFiles targetFiles table indentation w)) !! name
  = files w !! name
  ∧ translationFileContents (snd (applyTranslationsToFiles targetFiles table indentation w))
    !! name
    = translationFileContents w !! name
  ∧ fileLocks w ⊆ fileLocks (snd (applyTranslationsToFiles targetFiles table indentation w)).
Proof.
  intros Hlock.
  destruct (applyTranslationsToFiles_account table indentation targetFiles w)
    as (written & Haccount).
  destruct (apply_account_locked _ _ _ _ _ _ _ name Haccount Hlock) as (_ & Hf & Hs & _).
  split; [exact Hf |]. split; [exact Hs |].
  intros n Hn.
  destruct (apply_account_locked _ _ _ _ _ _ _ n Haccount Hn) as (_ & _ & _ & Hl).
  apply Hl. exact Hn.
Qed.

Lemma apply_phase_skips_locked_witness :
  files (snd (applyTranslationsToFiles [fr_common] annuler_table 2 fr_locked_world))
    !! fsPath fr_common
  = files fr_locked_world !! fsPath fr_common
  ∧ translationFileContents
      (snd (applyTranslationsToFiles [fr_common] annuler_table 2 fr_locked_world))
    !! fsPath fr_common
    = translationFileContents fr_locked_world !! fsPath fr_common
  ∧ fileLocks fr_locked_world
    ⊆ fileLocks (snd (applyTranslationsToFiles [fr_common] annuler_table 2 fr_locked_world)).
Proof.
  apply (apply_phase_skips_locked annuler_table 2 [fr_common] fr_locked_world
           (fsPath fr_common)).
  vm_compute. reflexivity.
Defined.

(** X2: what the apply phase does to a file is one of three things. The
    file is untouched (text, store entry and lock as before). Or it is a
    target that was not locked, held JSON, and was rewritten once: the new
    text is the tree with the entries of its language applied, printed with
    the configured indentation and with the final newline the old text had
    or lacked; the file system accepted the text; the store holds that same
    tree; the path is locked and the release of the lock is scheduled. Or it
    is a target whose write the file system refused, and the phase ended
    there with the exception of the write: the text and the store entry are
    what they were, and the lock taken before the write is still held. A
    file that is not among the targets is untouched. *)
Theorem apply_phase_accounts_for_every_file (table : gmap string (list Change))
    (indentation : nat) (targetFiles : list Uri) (w : World) (name : string) :
  (untouched name w (snd (applyTranslationsToFiles targetFiles table indentation w))
   ∨ (∃ fileUri,
         fileUri ∈ targetFiles ∧ fsPath fileUri = name
         ∧ rewritten table indentation fileUri w
             (snd (applyTranslationsToFiles targetFiles table indentation w)))
   ∨ (∃ fileUri e,
         fileUri ∈ targetFiles ∧ fsPath fileUri = name
         ∧ refused table indentation fileUri e w
             (snd (applyTranslationsToFiles targetFiles table indentation w))
         ∧ fst (applyTranslationsToFiles targetFiles table indentation w) = Throw e))
  ∧ (name ∉ fsPath <$> targetFiles →
     untouched name w (snd (applyTranslationsToFiles targetFiles table indentation w))).
Proof.
  destruct (applyTranslationsToFiles_account table indentation targetFiles w)
    as (written & Haccount).
  split.
  - destruct Haccount as (_ & _ & _ & _ & Hin & Hout & _).
    destruct (decide (name ∈ written)) as [Hw | Hw].
    + right. left. exact (Hin name Hw).
    + destruct (Hout name Hw) as [Hun | Hrefused]; [left; exact Hun |].
      right. right. exact Hrefused.
  - intros Hnot. exact (proj2 (apply_account_elsewhere _ _ _ _ _ _ _ name Haccount Hnot)).
Qed.

Lemma apply_phase_accounts_for_every_file_witness :
  (∃ fileUri e,
      fileUri ∈ [fr_common; de_common] ∧ fsPath fileUri = fsPath fr_common
      ∧ refused annuler_abbrechen_table 2 fileUri e fr_read_only_de_world
          (snd (applyTranslationsToFiles [fr_common; de_common] annuler_abbrechen_table 2
                  fr_read_only_de_world))
      ∧ fst (applyTranslationsToFiles [fr_common; de_common] annuler_abbrechen_table 2
               fr_read_only_de_world) = Throw e)
  ∧ untouched (fsPath en_common) fr_read_only_de_world
      (snd (applyTranslationsToFiles [fr_common; de_common] annuler_abbrechen_table 2
              fr_read_only_de_world)).
Proof.
  split.
  - destruct (proj1 (apply_phase_accounts_for_every_file annuler_abbrechen_table 2
                       [fr_common; de_common] fr_read_only_de_world (fsPath fr_common)))
      as [(_ & _ & Hlock) | [(f & _ & Hpath & text & fc & applied & _ & _ & _ & _ & Hwrite & _)
                            | Hrefused]].
    + exfalso. assert (fsPath fr_common ∈ fileLocks fr_read_only_de_world) as Hin.
      { apply Hlock. vm_compute. reflexivity. }
      vm_compute in Hin. discriminate.
    + exfalso. rewrite Hpath in Hwrite. vm_compute in Hwrite. discriminate.
    + exact Hrefused.
  - apply (proj2 (apply_phase_accounts_for_every_file annuler_abbrechen_table 2
                    [fr_common; de_common] fr_read_only_de_world (fsPath en_common))).
    intros Hin. apply elem_of_cons in Hin as [Hin | Hin]; [discriminate |].
    apply list_elem_of_singleton in Hin. discriminate.
Defined.



(** ** translateChanges: the calls and the rows *)

(** X4: a translation phase that completes has made exactly one provider
    call for every target file that misses at least one of the changes, in
    the order of the files; the call carries the new values of all the
    changes the file misses, in the order of the changes. It has made no
    call for a file that misses nothing. A file misses a change when the
    path of the change resolves in it to [undefined], [null] or the empty
    string, inherited properties included. *)
Theorem translation_phase_calls_once_per_file (sourceLanguage : string)
    (changes : list Change) (targetFiles : list Uri) (w w' : World)
    (table : gmap string (list Change)) :
  translateChanges sourceLanguage changes targetFiles w = (Ok table, w') →
  providerCalls w'
  = providerCalls w ++ omap (call_of w sourceLanguage changes) targetFiles.
Proof. apply translateChanges_loop_traffic. Qed.

Lemma translation_phase_calls_once_per_file_witness :
  providerCalls
    (snd (translateChanges "en" [constructor_edit; greeting_edit] [web_fr; admin_fr]
            two_french_files_world))
  = providerCalls two_french_files_world
    ++ omap (call_of two_french_files_world "en" [constructor_edit; greeting_edit])
         [web_fr; admin_fr]
  ∧ omap (call_of two_french_files_world "en" [constructor_edit; greeting_edit])
      [web_fr; admin_fr]
    = [([Some (VString "hello")], "en", "fr")].
Proof.
  split; [| vm_compute; reflexivity].
  apply (translation_phase_calls_once_per_file "en" [constructor_edit; greeting_edit]
           [web_fr; admin_fr] two_french_files_world
           (snd (translateChanges "en" [constructor_edit; greeting_edit]
                   [web_fr; admin_fr] two_french_files_world))
           {[ "fr" := [with_rhs greeting_edit (Some (VString "bonjour"))] ]}).
  vm_compute. reflexivity.
Defined.

(** X5: the answers of the provider are mapped back by position. When the
    phase completes, the row of a language is built from the last target
    file of that language that misses something: its entry number [i] is the
    file's candidate number [i] with the value number [i] of the answer as
    new value, and an answer that is too short leaves the new value
    undefined. The candidates of a file are the changes whose path resolves
    in it to [undefined], [null] or the empty string, inherited properties
    included. *)
Theorem translation_row_is_positional (sourceLanguage : string) (changes : list Change)
    (before after : list Uri) (fileUri : Uri) (w w' : World)
    (table : gmap string (list Change)) (c : Change) (cs : list Change) :
  translateChanges sourceLanguage changes (before ++ fileUri :: after) w = (Ok table, w') →
  candidates_of w changes fileUri = c :: cs →
  (∀ g, g ∈ after → extractLocaleFromFileUri g = extractLocaleFromFileUri fileUri →
        candidates_of w changes g = []) →
  ∃ translatedValues,
    translationProvider w (rhs <$> c :: cs) sourceLanguage
      (extractLocaleFromFileUri fileUri) = Ok translatedValues
    ∧ table !! extractLocaleFromFileUri fileUri
      = Some (imap (fun index change => with_rhs change (mjoin (translatedValues !! index)))
                   (c :: cs)).
Proof.
  intros Hrun Hcands Hafter. unfold translateChanges in Hrun.
  rewrite translateChanges_loop_app in Hrun.
  destruct (translateChanges_loop_calls sourceLanguage changes before ∅ w)
    as (calls & Hw0 & _).
  destruct (translateChanges_loop sourceLanguage changes before ∅ w)
    as [[table0 | e] w0]; [| discriminate].
  simpl in Hw0. subst w0.
  destruct (candidates_of_cases w changes fileUri c cs Hcands)
    as (text & fileContent & Hfile & Hparse & Hkept).
  rewrite translateChanges_loop_cons in Hrun.
  change (files (with_provider_calls calls w)) with (files w) in Hrun.
  change (realm (with_provider_calls calls w)) with (realm w) in Hrun.
  change (translationProvider (with_provider_calls calls w))
    with (translationProvider w) in Hrun.
  rewrite Hfile, Hparse, Hkept in Hrun. simpl Nat.ltb in Hrun. cbv iota zeta in Hrun.
  destruct (translationProvider w (rhs <$> c :: cs) sourceLanguage
              (extractLocaleFromFileUri fileUri)) as [translated | e];
    [| discriminate].
  exists translated. split; [reflexivity |].
  rewrite (translateChanges_loop_row_kept _ _ _ _ _ _ _ _ Hrun Hafter).
  apply lookup_insert_eq.
Qed.

Lemma translation_row_is_positional_witness :
  ∃ translatedValues,
    translationProvider two_french_files_world (rhs <$> [greeting_edit]) "en"
      (extractLocaleFromFileUri admin_fr) = Ok translatedValues
    ∧ ({[ "fr" := [with_rhs greeting_edit (Some (VString "bonjour"))] ]}
         : gmap string (list Change)) !! extractLocaleFromFileUri admin_fr
      = Some (imap (fun index change => with_rhs change (mjoin (translatedValues !! index)))
                   [greeting_edit]).
Proof.
  apply (translation_row_is_positional "en" [constructor_edit; greeting_edit] [web_fr] []
           admin_fr two_french_files_world
           (snd (translateChanges "en" [constructor_edit; greeting_edit]
                   [web_fr; admin_fr] two_french_files_world))
           {[ "fr" := [with_rhs greeting_edit (Some (VString "bonjour"))] ]}
           greeting_edit []).
  - vm_compute. reflexivity.
  - vm_compute. reflexivity.
  - intros g Hin. inversion Hin.
Defined.

(** ** A change of the root *)

Lemma elem_of_rev_1 {A : Type} (x : A) (l : list A) : x ∈ rev l → x ∈ l.
Proof. rewrite !list_elem_of_In, <- in_rev. auto. Qed.

(** Below the root every entry of a diff has a path. *)
Lemma deepDiff_pathed (old : value) :
  ∀ (new : value) (currentPath : list key) (c : Change),
    currentPath ≠ [] → c ∈ deepDiff currentPath old new → path c ≠ None.
Proof.
  induction old as [| b | n | s | items IH | members IH] using value_ind_nested;
    intros new currentPath c Hpath Hc;
    assert (path_field currentPath ≠ None) as Hfield
      by (destruct currentPath; [contradiction | discriminate]).
  1-4: simpl in Hc;
       match type of Hc with _ ∈ (if ?b then _ else _) => destruct b end;
       [inversion Hc |]; apply list_elem_of_singleton in Hc; subst c; exact Hfield.
  - destruct new as [| b | n | s | newItems | newMembers];
      try (simpl in Hc; apply list_elem_of_singleton in Hc; subst c; exact Hfield).
    simpl in Hc. apply elem_of_app in Hc as [Hc | Hc];
      [| apply elem_of_app in Hc as [Hc | Hc]].
    + unfold array_tail_changes in Hc. apply elem_of_rev_1 in Hc.
      apply elem_of_lookup_imap in Hc as (i & v & -> & _). exact Hfield.
    + unfold array_tail_changes in Hc. apply elem_of_rev_1 in Hc.
      apply elem_of_lookup_imap in Hc as (i & v & -> & _). exact Hfield.
    + revert Hc. generalize 0%nat. revert newItems.
      induction IH as [| l ls Hl _ IHls]; intros rs i Hc; [inversion Hc |].
      destruct rs as [| r rs']; [inversion Hc |].
      apply elem_of_app in Hc as [Hc | Hc]; [exact (IHls rs' (S i) Hc) |].
      apply (Hl r (currentPath ++ [KIndex i]) c); [| exact Hc].
      destruct currentPath; discriminate.
  - destruct new as [| b | n | s | newItems | newMembers];
      try (simpl in Hc; apply list_elem_of_singleton in Hc; subst c; exact Hfield).
    simpl in Hc. apply elem_of_app in Hc as [Hc | Hc].
    + induction IH as [| [k v] ms Hm _ IHms]; [inversion Hc |].
      apply elem_of_app in Hc as [Hc | Hc]; [| exact (IHms Hc)].
      destruct (lookup_member k newMembers) as [v' |].
      * apply (Hm v' (currentPath ++ [KString k]) c); [| exact Hc].
        destruct currentPath; discriminate.
      * apply list_elem_of_singleton in Hc. subst c. discriminate.
    + apply list_elem_of_In, in_flat_map in Hc as ([k v] & _ & Hc).
      destruct (lookup_member k members); [inversion Hc |].
      destruct Hc as [<- | []]. discriminate.
Qed.

(** An entry of a diff that has no path is an entry of the array at the
    root, or it is the whole diff: the two roots differ in type or are two
    different primitives. *)
Lemma diffJsonObjects_pathless (old new : value) (c : Change) :
  c ∈ diffJsonObjects old new → path c = None →
  kind c = KindA ∨ diffJsonObjects old new = [c].
Proof.
  unfold diffJsonObjects. intros Hc Hpath.
  assert (∀ v v' (k : key), c ∈ deepDiff ([] ++ [k]) v v' → False) as Hbelow.
  { intros v v' k Hin. refine (deepDiff_pathed v v' _ c _ Hin Hpath). discriminate. }
  destruct old as [| b | n | s | items | members];
    try (simpl in Hc |- *;
         match type of Hc with _ ∈ (if ?b then _ else _) => destruct b end;
         [inversion Hc |]; apply list_elem_of_singleton in Hc; subst c; right;
         reflexivity).
  - destruct new as [| b | n | s | newItems | newMembers];
      try (simpl in Hc |- *; apply list_elem_of_singleton in Hc; subst c; right;
           reflexivity).
    left. simpl in Hc. apply elem_of_app in Hc as [Hc | Hc];
      [| apply elem_of_app in Hc as [Hc | Hc]].
    + unfold array_tail_changes in Hc. apply elem_of_rev_1 in Hc.
      apply elem_of_lookup_imap in Hc as (i & v & -> & _). reflexivity.
    + unfold array_tail_changes in Hc. apply elem_of_rev_1 in Hc.
      apply elem_of_lookup_imap in Hc as (i & v & -> & _). reflexivity.
    + exfalso. revert Hc. generalize 0%nat. revert newItems.
      induction items as [| l ls IHls]; intros rs i Hc; [inversion Hc |].
      destruct rs as [| r rs']; [inversion Hc |].
      apply elem_of_app in Hc as [Hc | Hc]; [exact (IHls rs' (S i) Hc) |].
      exact (Hbelow l r (KIndex i) Hc).
  - destruct new as [| b | n | s | newItems | newMembers];
      try (simpl in Hc |- *; apply list_elem_of_singleton in Hc; subst c; right;
           reflexivity).
    exfalso. simpl in Hc. apply elem_of_app in Hc as [Hc | Hc].
    + induction members as [| [k v] ms IHms]; [inversion Hc |].
      apply elem_of_app in Hc as [Hc | Hc]; [| exact (IHms Hc)].
      destruct (lookup_member k newMembers) as [v' |].
      * exact (Hbelow v v' (KString k) Hc).
      * apply list_elem_of_singleton in Hc. subst c. discriminate.
    + apply list_elem_of_In, in_flat_map in Hc as ([k v] & _ & Hc).
      destruct (lookup_member k _); [inversion Hc |].
      destruct Hc as [<- | []]. discriminate.
Qed.

(** X6: a relevant change without path (a change of the root of the tree)
    cannot be looked up in a sibling. As soon as the first sibling is read
    and parsed, [change.path.reduce] throws; the event is over: no provider
    call, no file written, the baseline not committed, the error logged and
    the status bar idle. *)
Theorem rootless_change_aborts_event (context : TranslationModuleContext) (w : World)
    (content : Text) (diffs : list Change) (c : Change) (sibling : Uri)
    (others : list Uri) (text : Text) (fileContent : value) :
  jsonContent context = Some content →
  is_empty_text content = false →
  fst (getTranslationFileDiffs (inputPath context) content w) = Ok diffs →
  c ∈ extractRelevantChanges diffs →
  path c = None →
  siblings context w = sibling :: others →
  files w !! fsPath sibling = Some text →
  JSON_parse text = Ok fileContent →
  fst (doExecuteAsync context w) = Ok tt
  ∧ providerCalls (snd (doExecuteAsync context w)) = providerCalls w
  ∧ files (snd (doExecuteAsync context w)) = files w
  ∧ translationFileContents (snd (doExecuteAsync context w)) = translationFileContents w
  ∧ statusBar (snd (doExecuteAsync context w)) = Idle
  ∧ last (logs (snd (doExecuteAsync context w)))
    = Some (ERROR, "Error translating changes: "
                   +:+ "Cannot read properties of undefined (reading 'reduce')").
Proof.
  intros Hcontent Hempty Hdiffs Hc Hpath Hsiblings Hfile Hparse.
  assert (extractRelevantChanges diffs ≠ []) as Hne.
  { intros Hnil. rewrite Hnil in Hc. inversion Hc. }
  assert (extractRelevantChanges diffs = [c]) as Hsole.
  { pose proof Hc as Hc'. unfold extractRelevantChanges in Hc'.
    apply list_elem_of_filter in Hc' as [Hrel Hin].
    rewrite getTranslationFileDiffs_run in Hdiffs.
    destruct (JSON_parse content) as [newJsonObject |]; [| discriminate].
    injection Hdiffs as <-.
    destruct (diffJsonObjects_pathless _ _ c Hin Hpath) as [Hkind | Hwhole].
    - destruct (is_relevant_kind c Hrel) as [Hk | Hk]; rewrite Hk in Hkind; discriminate.
    - rewrite Hwhole. unfold extractRelevantChanges.
      rewrite filter_cons, filter_nil. rewrite decide_True by exact Hrel. reflexivity. }
  rewrite (doExecuteAsync_translating context w content diffs Hcontent Hempty Hdiffs Hne).
  unfold translateChanges. rewrite Hsiblings, translateChanges_loop_cons.
  change (files (translation_start context w)) with (files w).
  rewrite Hfile, Hparse, Hsole. simpl changesToTranslateFor. unfold currentValueOf.
  rewrite Hpath. simpl. rewrite last_snoc. auto 10.
Qed.

Lemma rootless_change_aborts_event_witness :
  fst (doExecuteAsync root_array_context root_array_world) = Ok tt
  ∧ providerCalls (snd (doExecuteAsync root_array_context root_array_world))
    = providerCalls root_array_world
  ∧ files (snd (doExecuteAsync root_array_context root_array_world))
    = files root_array_world
  ∧ translationFileContents (snd (doExecuteAsync root_array_context root_array_world))
    = translationFileContents root_array_world
  ∧ statusBar (snd (doExecuteAsync root_array_context root_array_world)) = Idle
  ∧ last (logs (snd (doExecuteAsync root_array_context root_array_world)))
    = Some (ERROR, "Error translating changes: "
                   +:+ "Cannot read properties of undefined (reading 'reduce')").
Proof.
  apply (rootless_change_aborts_event root_array_context root_array_world
           (JsonText (VArray [VString "Save"]) 2 true)
           [mkChange KindE None (Some (VObject [])) (Some (VArray [VString "Save"]))
              None None]
           (mkChange KindE None (Some (VObject [])) (Some (VArray [VString "Save"]))
              None None)
           fr_common [] (JsonText fr_save 2 true) fr_save).
  - reflexivity.
  - reflexivity.
  - vm_compute. reflexivity.
  - vm_compute. left.
  - reflexivity.
  - vm_compute. reflexivity.
  - vm_compute. reflexivity.
  - reflexivity.
Defined.

(** ** applyDiffsToJSON *)

Lemma applyDiffToJSON_passed_over (realm : Realm) (target : value) (change : Change) :
  passed_over realm target change → applyDiffToJSON realm target change = Ok target.
Proof.
  unfold applyDiffToJSON.
  intros [Hkind | [Hpath | (Hkind & p & Hpath & Hres)]].
  - rewrite Hkind. reflexivity.
  - rewrite Hpath. destruct (kind change); reflexivity.
  - rewrite Hpath, Hres. destruct (kind change); try reflexivity. contradiction.
Qed.

(** X7: [applyDiffsToJSON] passes over an Added entry (kind ['N'] has no
    branch), an entry without path, and an Edited or array entry whose path
    the [reduce] of the code resolves to [undefined] in the target, own and
    inherited properties considered: a list of such entries, or no list at
    all, leaves the target as it is, and nothing is thrown. *)
Theorem applyDiffsToJSON_passes_over (realm : Realm) (target : value)
    (diffs : option (list Change)) :
  (∀ ds, diffs = Some ds → Forall (passed_over realm target) ds) →
  applyDiffsToJSON realm target diffs = Ok target.
Proof.
  destruct diffs as [ds |]; [| reflexivity].
  intros Hds. specialize (Hds ds eq_refl). simpl.
  induction Hds as [| d rest Hd _ IH]; [reflexivity |].
  simpl. rewrite (applyDiffToJSON_passed_over realm target d Hd). exact IH.
Qed.

Lemma applyDiffsToJSON_passes_over_witness :
  applyDiffsToJSON standard_realm fr_save
    (Some [DiffNew [KString "common"; KString "cancel"] (VString "Annuler");
           DiffEdit [KString "common"; KString "cancel"] (VString "") (VString "Annuler");
           DiffNew [KString "constructor"] (VString "Builder")])
  = Ok fr_save.
Proof.
  apply (applyDiffsToJSON_passes_over standard_realm fr_save).
  intros ds [= <-].
  apply Forall_cons. split; [left; reflexivity |].
  apply Forall_cons. split.
  { right. right. split; [discriminate |]. eexists. split; reflexivity. }
  apply Forall_cons. split; [left; reflexivity |].
  apply Forall_nil. exact I.
Defined.

(** An Edited entry at a name the target only inherits is not passed over:
    the guard reads the inherited value, and the assignment gives the target
    a member of its own. *)
Lemma inherited_name_is_assigned :
  own_resolve [KString "constructor"] fr_other = None
  ∧ resolve standard_realm [KString "constructor"] (Some (Json fr_other))
    = Ok (Some (Native 0))
  ∧ applyDiffsToJSON standard_realm fr_other (Some [constructor_edit])
    = Ok (VObject [("other", VString "Autre"); ("constructor", VString "Builder")]).
Proof. vm_compute. repeat split; reflexivity. Qed.

(** ** doExecuteAsync: the whole event *)

(** The four ways an event can go. *)
Lemma doExecuteAsync_outcomes (context : TranslationModuleContext) (w : World) :
  (doExecuteAsync context w = (Ok tt, w)
   ∧ ∀ content, jsonContent context = Some content → is_empty_text content = true)
  ∨ (∃ content e,
        jsonContent context = Some content ∧ is_empty_text content = false
        ∧ JSON_parse content = Throw e
        ∧ doExecuteAsync context w = (Throw e, w))
  ∨ (∃ content diffs,
        jsonContent context = Some content ∧ is_empty_text content = false
        ∧ fst (getTranslationFileDiffs (inputPath context) content w) = Ok diffs
        ∧ extractRelevantChanges diffs = [])
  ∨ (∃ content diffs,
        jsonContent context = Some content ∧ is_empty_text content = false
        ∧ fst (getTranslationFileDiffs (inputPath context) content w) = Ok diffs
        ∧ extractRelevantChanges diffs ≠ []).
Proof.
  destruct (jsonContent context) as [content |] eqn:Hcontent.
  2:{ left. rewrite doExecuteAsync_run, Hcontent. split; [reflexivity | discriminate]. }
  destruct (is_empty_text content) eqn:Hempty.
  { left. rewrite doExecuteAsync_run, Hcontent, Hempty.
    split; [reflexivity |]. intros c [= <-]. exact Hempty. }
  right.
  destruct (fst (getTranslationFileDiffs (inputPath context) content w))
    as [diffs | e] eqn:Hdiffs.
  - right. destruct (extractRelevantChanges diffs) as [| c cs] eqn:Hrel.
    + left. exists content, diffs. auto.
    + right. exists content, diffs. rewrite Hrel. repeat split; auto; discriminate.
  - left. exists content, e.
    split; [reflexivity |]. split; [exact Hempty |]. split.
    + rewrite getTranslationFileDiffs_run in Hdiffs.
      destruct (JSON_parse content); [discriminate |]. simpl in Hdiffs. congruence.
    + rewrite doExecuteAsync_run, Hcontent, Hempty, Hdiffs. reflexivity.
Qed.

(** An event with a relevant change ends without exception. *)
Lemma doExecuteAsync_translating_ok (context : TranslationModuleContext) (w : World)
    (content : Text) (diffs : list Change) :
  jsonContent context = Some content →
  is_empty_text content = false →
  fst (getTranslationFileDiffs (inputPath context) content w) = Ok diffs →
  extractRelevantChanges diffs ≠ [] →
  fst (doExecuteAsync context w) = Ok tt
  ∧ statusBar (snd (doExecuteAsync context w)) = Idle.
Proof.
  intros Hcontent Hempty Hdiffs Hrel.
  rewrite (doExecuteAsync_translating context w content diffs Hcontent Hempty Hdiffs Hrel).
  destruct (translateChanges _ _ _ _) as [[table | e] w2]; [| split; reflexivity].
  destruct (applyTranslationsToFiles _ _ _ _) as [[[] | e] w3]; split; reflexivity.
Qed.

(** X8: [doExecuteAsync] throws in one case only: the event carries a text
    that is not empty and is not JSON; the exception is the one of
    [JSON.parse], and nothing has changed when it is thrown. Every error of
    the translation phase (a sibling that cannot be read or parsed, a failure
    of the provider) is caught and logged instead. *)
Theorem event_throws_only_on_unparsable_content (context : TranslationModuleContext)
    (w : World) (e : Error) :
  (fst (doExecuteAsync context w) = Throw e
   ↔ ∃ content, jsonContent context = Some content
                ∧ is_empty_text content = false
                ∧ JSON_parse content = Throw e)
  ∧ (fst (doExecuteAsync context w) = Throw e → snd (doExecuteAsync context w) = w).
Proof.
  destruct (doExecuteAsync_outcomes context w)
    as [[Hrun Hnone] | [(content & e' & Hcontent & Hempty & Hparse & Hrun)
       | [(content & diffs & Hcontent & Hempty & Hdiffs & Hrel)
         | (content & diffs & Hcontent & Hempty & Hdiffs & Hrel)]]].
  - rewrite Hrun. simpl. split; [split |]; try discriminate.
    intros (content & Hcontent & Hempty & _). rewrite (Hnone content Hcontent) in Hempty.
    discriminate.
  - rewrite Hrun. simpl. split; [split |]; try reflexivity.
    + intros [= <-]. exists content. auto.
    + intros (content' & Hcontent' & _ & Hparse'). congruence.
  - destruct (doExecuteAsync_nothing_relevant context w content diffs Hcontent Hdiffs Hrel)
      as (Hok & _).
    rewrite Hok. split; [split |]; try discriminate.
    intros (content' & Hcontent' & _ & Hparse').
    rewrite getTranslationFileDiffs_run in Hdiffs.
    assert (content' = content) as -> by congruence.
    rewrite Hparse' in Hdiffs. discriminate.
  - destruct (doExecuteAsync_translating_ok context w content diffs
                Hcontent Hempty Hdiffs Hrel) as [Hok _].
    rewrite Hok. split; [split |]; try discriminate.
    intros (content' & Hcontent' & _ & Hparse').
    rewrite getTranslationFileDiffs_run in Hdiffs.
    assert (content' = content) as -> by congruence.
    rewrite Hparse' in Hdiffs. discriminate.
Qed.

Lemma event_throws_only_on_unparsable_content_witness :
  fst (doExecuteAsync broken_save_context added_key_world)
  = Throw (SyntaxError "Expected property name or '}' in JSON at position 2")
  ∧ snd (doExecuteAsync broken_save_context added_key_world) = added_key_world.
Proof.
  assert (fst (doExecuteAsync broken_save_context added_key_world)
          = Throw (SyntaxError "Expected property name or '}' in JSON at position 2"))
    as Hthrown.
  { apply (proj1 (event_throws_only_on_unparsable_content broken_save_context
                    added_key_world
                    (SyntaxError "Expected property name or '}' in JSON at position 2"))).
    exists broken_text. repeat split; reflexivity. }
  split; [exact Hthrown |].
  apply (proj2 (event_throws_only_on_unparsable_content broken_save_context
                  added_key_world
                    (SyntaxError "Expected property name or '}' in JSON at position 2"))).
  exact Hthrown.
Defined.

(** What an event does to the file at [name]: nothing, or one rewrite by
    the apply phase, or a write the file system refused, which leaves the
    lock taken for it. The entry of the triggering file in the store is left
    aside: the commit of the baseline replaces it. *)
Lemma doExecuteAsync_account (context : TranslationModuleContext) (w : World)
    (name : string) :
  (files (snd (doExecuteAsync context w)) !! name = files w !! name
   ∧ (name ≠ fsPath (inputPath context) →
      translationFileContents (snd (doExecuteAsync context w)) !! name
      = translationFileContents w !! name)
   ∧ (name ∈ fileLocks (snd (doExecuteAsync context w)) ↔ name ∈ fileLocks w))
  ∨ (∃ table fileUri,
        fileUri ∈ siblings context w ∧ fsPath fileUri = name
        ∧ rewritten table (numberOfSpacesForIndentation w) fileUri w
            (snd (doExecuteAsync context w)))
  ∨ (∃ table fileUri e,
        fileUri ∈ siblings context w ∧ fsPath fileUri = name
        ∧ refused table (numberOfSpacesForIndentation w) fileUri e w
            (snd (doExecuteAsync context w))).
Proof.
  destruct (doExecuteAsync_outcomes context w)
    as [[Hrun _] | [(content & e' & _ & _ & _ & Hrun)
       | [(content & diffs & Hcontent & Hempty & Hdiffs & Hrel)
         | (content & diffs & Hcontent & Hempty & Hdiffs & Hrel)]]].
  - left. rewrite Hrun. simpl. auto.
  - left. rewrite Hrun. simpl. auto.
  - left.
    destruct (doExecuteAsync_nothing_relevant context w content diffs Hcontent Hdiffs Hrel)
      as (_ & _ & Hfiles & Hstore & Hlocks & _).
    rewrite Hfiles, Hstore, Hlocks. auto.
  - destruct (translateChanges_loop_calls (extractLocaleFromFileUri (inputPath context))
                (extractRelevantChanges diffs) (siblings context w) ∅
                (translation_start context w)) as (calls & Hw2 & _).
    destruct (translateChanges (extractLocaleFromFileUri (inputPath context))
                (extractRelevantChanges diffs) (siblings context w)
                (translation_start context w)) as [[table | e] w2] eqn:Hrun.
    2:{ left.
        rewrite (doExecuteAsync_translating context w content diffs Hcontent Hempty
                   Hdiffs Hrel), Hrun.
        unfold translateChanges in Hrun. rewrite Hrun in Hw2. simpl in Hw2. subst w2.
        simpl. auto. }
    destruct (doExecuteAsync_after_apply context w content diffs table w2
                Hcontent Hempty Hdiffs Hrel Hrun) as (Hfiles & Hlocks & Htimers & _).
    pose proof (doExecuteAsync_store_after_apply context w content diffs table w2
                  Hcontent Hempty Hdiffs Hrel Hrun) as Hstore.
    unfold translateChanges in Hrun. rewrite Hrun in Hw2. simpl in Hw2. subst w2.
    set (w2 := with_provider_calls calls (translation_start context w)) in *.
    destruct (applyTranslationsToFiles_account table (numberOfSpacesForIndentation w)
                (siblings context w) w2) as (written & Haccount).
    assert (name ≠ fsPath (inputPath context) →
            translationFileContents (snd (doExecuteAsync context w)) !! name
            = translationFileContents
                (snd (applyTranslationsToFiles (siblings context w) table
                        (numberOfSpacesForIndentation w) w2)) !! name) as Hstore'.
    { intros Hne.
      destruct (applyTranslationsToFiles (siblings context w) table
                  (numberOfSpacesForIndentation w) w2) as [[[] | e] w3]; cbn [snd] in *.
      - destruct Hstore as (v & _ & ->). apply lookup_insert_ne. congruence.
      - destruct Hstore as [-> _]. reflexivity. }
    destruct Haccount as (_ & _ & _ & _ & Hin & Hout & _).
    destruct (decide (name ∈ written)) as [Hw | Hw].
    + right. left. destruct (Hin name Hw) as (f & Hf & Hpath & Hrew).
      exists table, f. split; [exact Hf |]. split; [exact Hpath |].
      assert (name ≠ fsPath (inputPath context)) as Hne.
      { intros ->. apply (inputPath_not_sibling context w).
        apply list_elem_of_fmap. exists f. auto. }
      destruct Hrew as (text & fc & applied & H1 & H2 & H3 & H4 & H5 & H6 & H7 & H8 & H9).
      exists text, fc, applied. rewrite Hfiles, Hlocks, Htimers, Hpath, (Hstore' Hne).
      rewrite Hpath in H1, H2, H5, H6, H7, H8, H9.
      repeat (split; [assumption |]). assumption.
    + destruct (Hout name Hw) as [(Hf & Hs & Hl) | (f & e & Hf & Hpath & Href & _)].
      * left. rewrite Hfiles, Hlocks, Hf, Hl.
        split; [reflexivity |]. split; [| reflexivity].
        intros Hne. rewrite (Hstore' Hne), Hs. reflexivity.
      * right. right. exists table, f, e. split; [exact Hf |]. split; [exact Hpath |].
        assert (name ≠ fsPath (inputPath context)) as Hne.
        { intros ->. apply (inputPath_not_sibling context w).
          apply list_elem_of_fmap. exists f. auto. }
        destruct Href as (text & fc & applied & H1 & H2 & H3 & H4 & H5 & H6 & H7 & H8).
        exists text, fc, applied. rewrite Hfiles, Hlocks, Hpath, (Hstore' Hne).
        rewrite Hpath in H1, H2, H5, H6, H7, H8.
        repeat (split; [assumption |]). assumption.
Qed.

(** X9: an event writes to sibling files only, and only to the ones that
    were not locked: a file whose text has changed is a sibling of the
    triggering file (another path of the location index with the same file
    name); it was not locked before; it is locked and has a release scheduled
    when the event ends; its new text is JSON printed with the configured indentation
    and the store holds the same tree for it. The triggering file itself is
    never written. *)
Theorem event_writes_only_unlocked_siblings (context : TranslationModuleContext)
    (w : World) (name : string) :
  files (snd (doExecuteAsync context w)) !! name ≠ files w !! name →
  name ∈ fsPath <$> siblings context w
  ∧ name ≠ fsPath (inputPath context)
  ∧ basename name = basename (fsPath (inputPath context))
  ∧ (name ∉ fileLocks w)
  ∧ name ∈ fileLocks (snd (doExecuteAsync context w))
  ∧ name ∈ lockReleaseTimers (snd (doExecuteAsync context w))
  ∧ ∃ written trailingNewline,
      files (snd (doExecuteAsync context w)) !! name
      = Some (JsonText written (numberOfSpacesForIndentation w) trailingNewline)
      ∧ translationFileContents (snd (doExecuteAsync context w)) !! name = Some written.
Proof.
  intros Hchanged.
  destruct (doExecuteAsync_account context w name)
    as [(Hf & _) | [(table & f & Hsib & <- & text & fileContent & applied & Hnl & Hfile
                     & Hparse & Happlied & Hwrite & Hf & Hs & Hl & Ht)
                   | (table & f & e & _ & <- & text & fileContent & applied & _ & _ & _
                      & _ & _ & Hf & _)]];
    [contradiction | | contradiction].
  split; [apply list_elem_of_fmap; exists f; auto |].
  unfold siblings in Hsib. apply list_elem_of_filter in Hsib as [[Hne Hbase] Hknown].
  repeat (split; [assumption |]).
  unfold rewritten_text in Hf. eauto.
Qed.

Lemma event_writes_only_unlocked_siblings_witness :
  fsPath fr_common ∈ fsPath <$> siblings edited_key_context edited_key_world
  ∧ fsPath fr_common ≠ fsPath (inputPath edited_key_context)
  ∧ basename (fsPath fr_common) = basename (fsPath (inputPath edited_key_context))
  ∧ (fsPath fr_common ∉ fileLocks edited_key_world)
  ∧ fsPath fr_common ∈ fileLocks (snd (doExecuteAsync edited_key_context edited_key_world))
  ∧ fsPath fr_common
    ∈ lockReleaseTimers (snd (doExecuteAsync edited_key_context edited_key_world))
  ∧ ∃ written trailingNewline,
      files (snd (doExecuteAsync edited_key_context edited_key_world)) !! fsPath fr_common
      = Some (JsonText written (numberOfSpacesForIndentation edited_key_world)
                trailingNewline)
      ∧ translationFileContents (snd (doExecuteAsync edited_key_context edited_key_world))
        !! fsPath fr_common = Some written.
Proof.
  apply (event_writes_only_unlocked_siblings edited_key_context edited_key_world
           (fsPath fr_common)).
  vm_compute. discriminate.
Defined.

(** X10: the new content of the triggering file becomes the baseline of
    the next diff exactly when the translation phase and the apply phase
    both complete. When the translation phase throws, whatever the reason,
    no entry of the store changes. When the apply phase throws (an exception
    of [applyDiffsToJSON], a write the file system refuses), the commit is
    skipped: the store keeps the old baseline of the triggering file. In
    both cases the next event of the file computes its diff against the old
    baseline. *)
Theorem baseline_committed_iff_phase_completes (context : TranslationModuleContext)
    (w : World) (content : Text) (diffs : list Change) (newJsonObject : value) :
  jsonContent context = Some content →
  is_empty_text content = false →
  JSON_parse content = Ok newJsonObject →
  fst (getTranslationFileDiffs (inputPath context) content w) = Ok diffs →
  extractRelevantChanges diffs ≠ [] →
  match translateChanges (extractLocaleFromFileUri (inputPath context))
          (extractRelevantChanges diffs) (siblings context w)
          (translation_start context w) with
  | (Ok table, w2) =>
      match fst (applyTranslationsToFiles (siblings context w) table
                   (numberOfSpacesForIndentation w) w2) with
      | Ok _ =>
          translationFileContents (snd (doExecuteAsync context w))
            !! fsPath (inputPath context)
          = Some newJsonObject
      | Throw _ =>
          translationFileContents (snd (doExecuteAsync context w))
            !! fsPath (inputPath context)
          = translationFileContents w !! fsPath (inputPath context)
      end
  | (Throw _, _) =>
      translationFileContents (snd (doExecuteAsync context w)) = translationFileContents w
  end.
Proof.
  intros Hcontent Hempty Hparse Hdiffs Hrel.
  destruct (translateChanges_loop_calls (extractLocaleFromFileUri (inputPath context))
              (extractRelevantChanges diffs) (siblings context w) ∅
              (translation_start context w)) as (calls & Hw2 & _).
  destruct (translateChanges (extractLocaleFromFileUri (inputPath context))
              (extractRelevantChanges diffs) (siblings context w)
              (translation_start context w)) as [[table | e] w2] eqn:Hrun.
  - pose proof (doExecuteAsync_store_after_apply context w content diffs table w2
                  Hcontent Hempty Hdiffs Hrel Hrun) as Hstore.
    destruct (applyTranslationsToFiles_account table (numberOfSpacesForIndentation w)
                (siblings context w) w2) as (written & Haccount).
    destruct (applyTranslationsToFiles (siblings context w) table
                (numberOfSpacesForIndentation w) w2) as [[[] | e] w3]; cbn [fst snd] in *.
    + destruct Hstore as (v & Hv & ->). rewrite lookup_insert_eq. congruence.
    + destruct Hstore as [-> _].
      destruct (apply_account_elsewhere _ _ _ _ _ _ _ _ Haccount
                  (inputPath_not_sibling context w)) as (_ & _ & -> & _).
      unfold translateChanges in Hrun. rewrite Hrun in Hw2. simpl in Hw2. subst w2.
      reflexivity.
  - rewrite (doExecuteAsync_translating context w content diffs Hcontent Hempty Hdiffs Hrel),
      Hrun.
    unfold translateChanges in Hrun. rewrite Hrun in Hw2. simpl in Hw2. subst w2.
    reflexivity.
Qed.

Lemma baseline_committed_iff_phase_completes_witness :
  translationFileContents (snd (doExecuteAsync edited_key_context edited_key_world))
    !! fsPath en_common = Some en_save_cancel
  ∧ translationFileContents (snd (doExecuteAsync edited_key_context provider_down_world))
    = translationFileContents provider_down_world
  ∧ translationFileContents (snd (doExecuteAsync edited_key_context fr_read_only_world))
      !! fsPath en_common
    = Some en_cancel_empty.
Proof.
  split; [| split].
  - apply (baseline_committed_iff_phase_completes edited_key_context edited_key_world
             (JsonText en_save_cancel 2 true)
             [DiffEdit [KString "common"; KString "cancel"] (VString "") (VString "Cancel")]
             en_save_cancel).
    + reflexivity.
    + reflexivity.
    + reflexivity.
    + vm_compute. reflexivity.
    + discriminate.
  - apply (baseline_committed_iff_phase_completes edited_key_context provider_down_world
             (JsonText en_save_cancel 2 true)
             [DiffEdit [KString "common"; KString "cancel"] (VString "") (VString "Cancel")]
             en_save_cancel).
    + reflexivity.
    + reflexivity.
    + reflexivity.
    + vm_compute. reflexivity.
    + discriminate.
  - apply (baseline_committed_iff_phase_completes edited_key_context fr_read_only_world
             (JsonText en_save_cancel 2 true)
             [DiffEdit [KString "common"; KString "cancel"] (VString "") (VString "Cancel")]
             en_save_cancel).
    + reflexivity.
    + reflexivity.
    + reflexivity.
    + vm_compute. reflexivity.
    + discriminate.
Defined.

(** The event of [fr_read_only_world]: the translation is asked for and
    answered, the write of [fr/common.json] is refused. The error is logged,
    the file and the store are as before, the lock taken for the write is
    still held and no release is scheduled for it. *)
Lemma refused_write_leaves_lock :
  let w' := snd (doExecuteAsync edited_key_context fr_read_only_world) in
  fst (doExecuteAsync edited_key_context fr_read_only_world) = Ok tt
  ∧ providerCalls w' = [([Some (VString "Cancel")], "en", "fr")]
  ∧ files w' = files fr_read_only_world
  ∧ translationFileContents w' = translationFileContents fr_read_only_world
  ∧ fsPath fr_common ∈ fileLocks w'
  ∧ lockReleaseTimers w' = []
  ∧ logs w' = [(ERROR, "Error translating changes: EACCES: permission denied")]
  ∧ statusBar w' = Idle.
Proof. vm_compute. repeat split; reflexivity. Qed.

(** X11: an event whose diff holds no relevant change (keys were deleted,
    numbers or booleans changed) does not advance the baseline: the store is
    the one it was, so the diff of any later content of any file is computed
    as before the event, and the same entries are reported again. *)
Theorem irrelevant_event_keeps_baseline (context : TranslationModuleContext) (w : World)
    (content : Text) (diffs : list Change) :
  jsonContent context = Some content →
  fst (getTranslationFileDiffs (inputPath context) content w) = Ok diffs →
  extractRelevantChanges diffs = [] →
  fst (doExecuteAsync context w) = Ok tt
  ∧ fst (getTranslationFileDiffs (inputPath context) content (snd (doExecuteAsync context w)))
    = Ok diffs
  ∧ ∀ fileUri laterContent,
      fst (getTranslationFileDiffs fileUri laterContent (snd (doExecuteAsync context w)))
      = fst (getTranslationFileDiffs fileUri laterContent w).
Proof.
  intros Hcontent Hdiffs Hrel.
  destruct (doExecuteAsync_nothing_relevant context w content diffs Hcontent Hdiffs Hrel)
    as (Hok & _ & _ & Hstore & _).
  assert (∀ fileUri laterContent,
            fst (getTranslationFileDiffs fileUri laterContent
                   (snd (doExecuteAsync context w)))
            = fst (getTranslationFileDiffs fileUri laterContent w)) as Hsame.
  { intros fileUri laterContent. rewrite !getTranslationFileDiffs_run. cbn [fst].
    rewrite Hstore. reflexivity. }
  split; [exact Hok |]. split; [| exact Hsame].
  rewrite Hsame. exact Hdiffs.
Qed.

Lemma irrelevant_event_keeps_baseline_witness :
  fst (doExecuteAsync deleted_key_context deleted_key_world) = Ok tt
  ∧ fst (getTranslationFileDiffs (inputPath deleted_key_context) (JsonText en_save 2 true)
           (snd (doExecuteAsync deleted_key_context deleted_key_world)))
    = Ok [DiffDeleted [KString "common"; KString "cancel"] (VString "Cancel")]
  ∧ ∀ fileUri laterContent,
      fst (getTranslationFileDiffs fileUri laterContent
             (snd (doExecuteAsync deleted_key_context deleted_key_world)))
      = fst (getTranslationFileDiffs fileUri laterContent deleted_key_world).
Proof.
  apply (irrelevant_event_keeps_baseline deleted_key_context deleted_key_world
           (JsonText en_save 2 true)
           [DiffDeleted [KString "common"; KString "cancel"] (VString "Cancel")]).
  - reflexivity.
  - vm_compute. reflexivity.
  - reflexivity.
Defined.

(** X12: what an event never does, whichever way it goes. It releases no
    lock itself (a release is the work of a timer, and the timers run after
    the event); it deletes no file; it leaves the status bar idle if it found it
    idle; and when the diff holds a relevant change it ends without
    exception and with the status bar idle, whatever happened in the
    translation phase. *)
Theorem event_keeps_locks_files_and_status (context : TranslationModuleContext) (w : World) :
  fileLocks w ⊆ fileLocks (snd (doExecuteAsync context w))
  ∧ (∀ name, is_Some (files w !! name) →
             is_Some (files (snd (doExecuteAsync context w)) !! name))
  ∧ (statusBar w = Idle → statusBar (snd (doExecuteAsync context w)) = Idle)
  ∧ ∀ content diffs,
      jsonContent context = Some content →
      is_empty_text content = false →
      fst (getTranslationFileDiffs (inputPath context) content w) = Ok diffs →
      extractRelevantChanges diffs ≠ [] →
      fst (doExecuteAsync context w) = Ok tt
      ∧ statusBar (snd (doExecuteAsync context w)) = Idle.
Proof.
  split; [| split; [| split]].
  - intros name Hlock.
    destruct (doExecuteAsync_account context w name)
      as [(_ & _ & Hl) | [(table & f & _ & <- & text & fileContent & applied & H)
                         | (table & f & e & _ & <- & text & fileContent & applied & H)]];
      [apply Hl; exact Hlock | tauto | tauto].
  - intros name Hsome.
    destruct (doExecuteAsync_account context w name)
      as [(Hf & _) | [(table & f & _ & <- & text & fileContent & applied & _ & _ & _ & _
                       & _ & Hf & _)
                     | (table & f & e & _ & <- & text & fileContent & applied & _ & _ & _
                        & _ & _ & Hf & _)]];
      rewrite Hf; [exact Hsome | eauto | exact Hsome].
  - intros Hidle.
    destruct (doExecuteAsync_outcomes context w)
      as [[Hrun _] | [(content & e' & _ & _ & _ & Hrun)
         | [(content & diffs & Hcontent & Hempty & Hdiffs & Hrel)
           | (content & diffs & Hcontent & Hempty & Hdiffs & Hrel)]]].
    + rewrite Hrun. exact Hidle.
    + rewrite Hrun. exact Hidle.
    + destruct (doExecuteAsync_nothing_relevant context w content diffs
                  Hcontent Hdiffs Hrel) as (_ & _ & _ & _ & _ & Hbar).
      rewrite Hbar. exact Hidle.
    + apply (doExecuteAsync_translating_ok context w content diffs
               Hcontent Hempty Hdiffs Hrel).
  - intros content diffs. apply doExecuteAsync_translating_ok.
Qed.

Lemma event_keeps_locks_files_and_status_witness :
  statusBar (snd (doExecuteAsync edited_key_context provider_down_world)) = Idle
  ∧ fst (doExecuteAsync edited_key_context provider_down_world) = Ok tt.
Proof.
  split.
  - apply (proj1 (proj2 (proj2 (event_keeps_locks_files_and_status edited_key_context
                                  provider_down_world)))).
    reflexivity.
  - apply (proj2 (proj2 (proj2 (event_keeps_locks_files_and_status edited_key_context
                                  provider_down_world)))
             (JsonText en_save_cancel 2 true) [cancel_edit]).
    + reflexivity.
    + reflexivity.
    + vm_compute. reflexivity.
    + discriminate.
Defined.

(** ** TranslationStore *)

Lemma parsed_file_files (w w' : World) (fileUri : Uri) :
  files w' = files w → parsed_file w' fileUri = parsed_file w fileUri.
Proof. unfold parsed_file. intros ->. reflexivity. Qed.

Lemma read_error_files (w w' : World) (fileUri : Uri) :
  files w' = files w → read_error w' fileUri = read_error w fileUri.
Proof. unfold read_error. intros ->. reflexivity. Qed.

Lemma parsed_or_error (w : World) (fileUri : Uri) :
  (∃ jsonObject, parsed_file w fileUri = Some jsonObject ∧ read_error w fileUri = None)
  ∨ (∃ e, parsed_file w fileUri = None ∧ read_error w fileUri = Some e).
Proof.
  unfold parsed_file, read_error.
  destruct (files w !! fsPath fileUri) as [text |]; [| eauto].
  destruct (JSON_parse text); eauto.
Qed.

(** One turn of the loop of [initializeAsync]. *)
Lemma initialize_loop_cons (fileUri : Uri) (rest : list Uri) (w : World) :
  initialize_loop (fileUri :: rest) w =
  match parsed_file w fileUri, read_error w fileUri with
  | Some jsonObject, _ =>
      initialize_loop rest
        (set_logs (fun l => l ++ [added_line fileUri])
           (set_translationFileContents
              (fun contents => <[fsPath fileUri := jsonObject]> contents) w))
  | None, Some e => (Throw e, w)
  | None, None => (Ok tt, w)
  end.
Proof.
  unfold parsed_file, read_error. simpl.
  unfold bind at 1. unfold readWorkspaceFileAsync, bind at 1, get_world at 1.
  destruct (files w !! fsPath fileUri) as [text |]; [| reflexivity].
  unfold ret at 1. unfold bind at 1, lift at 1.
  destruct (JSON_parse text) as [jsonObject | e]; reflexivity.
Qed.

Lemma initialize_loop_app (good tail : list Uri) :
  ∀ w, initialize_loop (good ++ tail) w =
       match initialize_loop good w with
       | (Ok _, w1) => initialize_loop tail w1
       | (Throw e, w1) => (Throw e, w1)
       end.
Proof.
  induction good as [| fileUri rest IH]; intros w; [reflexivity |].
  rewrite <- app_comm_cons, !initialize_loop_cons.
  destruct (parsed_or_error w fileUri) as [(v & -> & _) | (e & -> & ->)];
    [apply IH | reflexivity].
Qed.

(** The loop over files that can all be read and parsed. *)
Lemma initialize_loop_good (good : list Uri) :
  ∀ w,
    Forall (fun fileUri => is_Some (parsed_file w fileUri)) good →
    fst (initialize_loop good w) = Ok tt
    ∧ files (snd (initialize_loop good w)) = files w
    ∧ (∀ fileUri, fileUri ∈ good →
         translationFileContents (snd (initialize_loop good w)) !! fsPath fileUri
         = parsed_file w fileUri)
    ∧ (∀ name, name ∉ fsPath <$> good →
         translationFileContents (snd (initialize_loop good w)) !! name
         = translationFileContents w !! name)
    ∧ logs (snd (initialize_loop good w)) = logs w ++ (added_line <$> good).
Proof.
  induction good as [| fileUri rest IH]; intros w Hgood.
  { simpl. rewrite app_nil_r. repeat split; auto. intros u Hu. inversion Hu. }
  apply Forall_cons in Hgood as [[jsonObject Hhead] Hrest].
  rewrite initialize_loop_cons, Hhead.
  set (w1 := set_logs (fun l => l ++ [added_line fileUri])
               (set_translationFileContents
                  (fun contents => <[fsPath fileUri := jsonObject]> contents) w)).
  assert (∀ u, parsed_file w1 u = parsed_file w u) as Hsame.
  { intros u. apply parsed_file_files. reflexivity. }
  destruct (IH w1) as (Hok & Hfiles & Hin & Hout & Hlogs).
  { eapply Forall_impl; [exact Hrest |]. intros u Hu. rewrite Hsame. exact Hu. }
  split; [exact Hok |]. split; [exact Hfiles |].
  assert (∀ name, name ∉ fsPath <$> rest →
            translationFileContents (snd (initialize_loop rest w1)) !! name
            = <[fsPath fileUri := jsonObject]> (translationFileContents w) !! name)
    as Hout'.
  { intros name Hname. rewrite (Hout name Hname). reflexivity. }
  split; [| split].
  - intros u Hu.
    destruct (decide (fsPath u ∈ fsPath <$> rest)) as [Hr | Hr].
    + apply list_elem_of_fmap in Hr as (u' & Heq & Hu').
      rewrite Heq, (Hin u' Hu'), Hsame. unfold parsed_file. rewrite Heq. reflexivity.
    + apply elem_of_cons in Hu as [-> | Hu].
      * rewrite (Hout' _ Hr), lookup_insert_eq. symmetry. exact Hhead.
      * exfalso. apply Hr. apply list_elem_of_fmap. eauto.
  - intros name Hname. rewrite fmap_cons in Hname.
    apply not_elem_of_cons in Hname as [Hne Hname].
    rewrite (Hout' name Hname). apply lookup_insert_ne. congruence.
  - rewrite Hlogs. simpl. rewrite <- app_assoc. reflexivity.
Qed.

(** X13: [initializeAsync] over files that can all be read and parsed
    completes; the store then holds, for each of them, the tree its text
    parses to; the entries of other paths and the files are as before; the log
    has gained the opening line, one line for each file in order, and the line
    with the number of files. *)
Theorem initializeAsync_loads_every_file (fileLocations : list Uri) (w : World) :
  Forall (fun fileUri => is_Some (parsed_file w fileUri)) fileLocations →
  fst (initializeAsync fileLocations w) = Ok tt
  ∧ files (snd (initializeAsync fileLocations w)) = files w
  ∧ (∀ fileUri, fileUri ∈ fileLocations →
       translationFileContents (snd (initializeAsync fileLocations w)) !! fsPath fileUri
       = parsed_file w fileUri)
  ∧ (∀ name, name ∉ fsPath <$> fileLocations →
       translationFileContents (snd (initializeAsync fileLocations w)) !! name
       = translationFileContents w !! name)
  ∧ logs (snd (initializeAsync fileLocations w))
    = logs w ++ [(INFO, "Initializing translation store")]
      ++ (added_line <$> fileLocations)
      ++ [(INFO, "Added " +:+ pretty (length fileLocations)
                 +:+ " translation files to store")].
Proof.
  intros Hgood.
  set (w0 := set_logs (fun l => l ++ [(INFO, "Initializing translation store")]) w).
  destruct (initialize_loop_good fileLocations w0) as (Hok & Hfiles & Hin & Hout & Hlogs).
  { eapply Forall_impl; [exact Hgood |]. intros u Hu.
    rewrite (parsed_file_files w w0 u eq_refl). exact Hu. }
  unfold initializeAsync, bind, log, modify. fold w0.
  destruct (initialize_loop fileLocations w0) as [[[] | e] w1]; [| discriminate].
  simpl in *. split; [reflexivity |]. split; [exact Hfiles |].
  split; [exact Hin |]. split; [exact Hout |].
  rewrite Hlogs, <- !app_assoc. reflexivity.
Qed.

Lemma initializeAsync_loads_every_file_witness :
  fst (initializeAsync [en_common; fr_common] two_files_world) = Ok tt
  ∧ translationFileContents (snd (initializeAsync [en_common; fr_common] two_files_world))
    = {[ fsPath en_common := en_save; fsPath fr_common := fr_save ]}
  ∧ last (logs (snd (initializeAsync [en_common; fr_common] two_files_world)))
    = Some (INFO, "Added 2 translation files to store").
Proof.
  destruct (initializeAsync_loads_every_file [en_common; fr_common] two_files_world)
    as (Hok & _).
  - repeat constructor; vm_compute; eauto.
  - split; [exact Hok |]. split; vm_compute; reflexivity.
Defined.

(** X14: nothing in [initializeAsync] catches a file that cannot be read
    or parsed. The first such file ends the initialisation with its
    exception: the files before it are in the store, no file after it is
    loaded, and the closing line of the log is never written. *)
Theorem initializeAsync_stops_at_first_bad_file (good rest : list Uri) (bad : Uri)
    (e : Error) (w : World) :
  Forall (fun fileUri => is_Some (parsed_file w fileUri)) good →
  read_error w bad = Some e →
  fst (initializeAsync (good ++ bad :: rest) w) = Throw e
  ∧ (∀ fileUri, fileUri ∈ good →
       translationFileContents (snd (initializeAsync (good ++ bad :: rest) w))
         !! fsPath fileUri
       = parsed_file w fileUri)
  ∧ (∀ name, name ∉ fsPath <$> good →
       translationFileContents (snd (initializeAsync (good ++ bad :: rest) w)) !! name
       = translationFileContents w !! name)
  ∧ logs (snd (initializeAsync (good ++ bad :: rest) w))
    = logs w ++ [(INFO, "Initializing translation store")] ++ (added_line <$> good).
Proof.
  intros Hgood Hbad.
  set (w0 := set_logs (fun l => l ++ [(INFO, "Initializing translation store")]) w).
  destruct (initialize_loop_good good w0) as (Hok & Hfiles & Hin & Hout & Hlogs).
  { eapply Forall_impl; [exact Hgood |]. intros u Hu.
    rewrite (parsed_file_files w w0 u eq_refl). exact Hu. }
  assert (initializeAsync (good ++ bad :: rest) w
          = (Throw e, snd (initialize_loop good w0))) as ->.
  { unfold initializeAsync. unfold bind at 1. unfold log at 1, modify at 1. fold w0.
    unfold bind at 1. rewrite initialize_loop_app.
    destruct (initialize_loop good w0) as [[[] | e'] w1]; [| discriminate].
    simpl in Hfiles. rewrite initialize_loop_cons.
    assert (read_error w1 bad = Some e) as He.
    { rewrite (read_error_files w w1 bad); [exact Hbad | exact Hfiles]. }
    destruct (parsed_or_error w1 bad) as [(v & _ & Hnone) | (e'' & -> & _)];
      [congruence |].
    rewrite He. reflexivity. }
  cbn [fst snd]. split; [reflexivity |]. split; [exact Hin |]. split; [exact Hout |].
  rewrite Hlogs. simpl. rewrite <- app_assoc. reflexivity.
Qed.

Lemma initializeAsync_stops_at_first_bad_file_witness :
  fst (initializeAsync [en_common; de_common; fr_common] two_files_world)
  = Throw (SyntaxError "Expected property name or '}' in JSON at position 2")
  ∧ translationFileContents
      (snd (initializeAsync [en_common; de_common; fr_common] two_files_world))
    = {[ fsPath en_common := en_save ]}.
Proof.
  destruct (initializeAsync_stops_at_first_bad_file [en_common] [fr_common] de_common
              (SyntaxError "Expected property name or '}' in JSON at position 2") two_files_world)
    as (Hthrown & _).
  - repeat constructor; vm_compute; eauto.
  - reflexivity.
  - split; [exact Hthrown |]. vm_compute. reflexivity.
Defined.

(** ** TranslationStore: the entries *)

Lemma substring_whole (t : string) : String.substring 0 (String.length t) t = t.
Proof. induction t as [| c t IH]; simpl; [reflexivity | rewrite IH; reflexivity]. Qed.

Lemma substring_app_skip (stem t : string) (m : nat) :
  String.substring (String.length stem) m (stem +:+ t) = String.substring 0 m t.
Proof. induction stem as [| c stem IH]; simpl; [reflexivity | exact IH]. Qed.

Lemma string_length_app (stem t : string) :
  String.length (stem +:+ t) = (String.length stem + String.length t)%nat.
Proof. induction stem as [| c stem IH]; simpl; [reflexivity | rewrite IH; reflexivity]. Qed.

Lemma string_split_at (s : string) :
  ∀ k, (k ≤ String.length s)%nat →
       s = String.substring 0 k s +:+ String.substring k (String.length s - k) s.
Proof.
  induction s as [| c s IH]; intros k Hk.
  - destruct k; reflexivity.
  - destruct k as [| k].
    + change (String.substring 0 0 (String c s)) with EmptyString.
      rewrite Nat.sub_0_r, substring_whole. reflexivity.
    + simpl in Hk.
      change (String c s
              = String c (String.substring 0 k s
                          +:+ String.substring k (String.length s - k) s)).
      f_equal. apply IH. lia.
Qed.

(** [endsWith] answers true exactly for the strings that end with the
    suffix. *)
Lemma endsWith_correct (s suffix : string) :
  endsWith s suffix = true ↔ ∃ stem, s = stem +:+ suffix.
Proof.
  unfold endsWith. split.
  - destruct (Nat.leb_spec (String.length suffix) (String.length s)) as [Hle | Hlt];
      [| discriminate].
    intros Hsub. apply bool_decide_eq_true in Hsub.
    exists (String.substring 0 (String.length s - String.length suffix) s).
    pose proof (string_split_at s (String.length s - String.length suffix)
                  ltac:(lia)) as Hsplit.
    replace (String.length s - (String.length s - String.length suffix))%nat
      with (String.length suffix) in Hsplit by lia.
    rewrite Hsub in Hsplit. exact Hsplit.
  - intros [stem ->]. rewrite string_length_app.
    destruct (Nat.leb_spec (String.length suffix)
                (String.length stem + String.length suffix)) as [_ | Hlt]; [| lia].
    apply bool_decide_eq_true.
    replace (String.length stem + String.length suffix - String.length suffix)%nat
      with (String.length stem) by lia.
    rewrite substring_app_skip. apply substring_whole.
Qed.

(** X15: [addEntryAsync] loads JSON files only. A path that does not end
    in [.json] is passed over without a read, whatever the file holds. For a
    path that ends in [.json] the file is read and parsed: the tree becomes
    the entry of the path, or the exception of the read or of [JSON.parse] is
    thrown and the store is as before. *)
Theorem addEntryAsync_loads_json_files_only (fileUri : Uri) (w : World) :
  ((∀ stem, fsPath fileUri ≠ stem +:+ ".json") → addEntryAsync fileUri w = (Ok tt, w))
  ∧ (∀ stem jsonObject,
       fsPath fileUri = stem +:+ ".json" →
       parsed_file w fileUri = Some jsonObject →
       addEntryAsync fileUri w
       = (Ok tt,
          set_logs (fun l => l ++ [added_line fileUri])
            (set_translationFileContents
               (fun contents => <[fsPath fileUri := jsonObject]> contents) w)))
  ∧ (∀ stem e,
       fsPath fileUri = stem +:+ ".json" →
       read_error w fileUri = Some e →
       addEntryAsync fileUri w = (Throw e, w)).
Proof.
  unfold addEntryAsync. split; [| split].
  - intros Hnot. destruct (endsWith (fsPath fileUri) ".json") eqn:Hends; [| reflexivity].
    apply endsWith_correct in Hends as [stem Hstem]. destruct (Hnot stem Hstem).
  - intros stem jsonObject Hstem Hparsed.
    rewrite (proj2 (endsWith_correct (fsPath fileUri) ".json")) by eauto.
    unfold parsed_file in Hparsed.
    unfold bind at 1. unfold readWorkspaceFileAsync, bind at 1, get_world at 1.
    destruct (files w !! fsPath fileUri) as [text |]; [| discriminate].
    unfold ret at 1. unfold bind at 1, lift at 1.
    destruct (JSON_parse text) as [v | e]; [| discriminate].
    injection Hparsed as ->. reflexivity.
  - intros stem e Hstem Herror.
    rewrite (proj2 (endsWith_correct (fsPath fileUri) ".json")) by eauto.
    unfold read_error in Herror.
    unfold bind at 1. unfold readWorkspaceFileAsync, bind at 1, get_world at 1.
    destruct (files w !! fsPath fileUri) as [text |].
    + unfold ret at 1. unfold bind at 1, lift at 1.
      destruct (JSON_parse text) as [v | e']; [discriminate |].
      injection Herror as ->. reflexivity.
    + injection Herror as <-. reflexivity.
Qed.

Lemma addEntryAsync_loads_json_files_only_witness :
  addEntryAsync readme two_files_world = (Ok tt, two_files_world)
  ∧ translationFileContents (snd (addEntryAsync en_common two_files_world))
    = {[ fsPath en_common := en_save ]}
  ∧ addEntryAsync de_common two_files_world
    = (Throw (SyntaxError "Expected property name or '}' in JSON at position 2"), two_files_world).
Proof.
  split; [| split].
  - apply (proj1 (addEntryAsync_loads_json_files_only readme two_files_world)).
    intros stem Hstem.
    assert (endsWith (fsPath readme) ".json" = true) as Hends.
    { apply endsWith_correct. exists stem. exact Hstem. }
    vm_compute in Hends. discriminate.
  - rewrite (proj1 (proj2 (addEntryAsync_loads_json_files_only en_common two_files_world))
               "/workspace/locales/en/common" en_save eq_refl eq_refl).
    vm_compute. reflexivity.
  - apply (proj2 (proj2 (addEntryAsync_loads_json_files_only de_common two_files_world))
             "/workspace/locales/de/common").
    + reflexivity.
    + reflexivity.
Defined.

(** X16: the baseline of a diff is the last tree stored for the path.
    After [updateEntry] with text that parses, the diffs of the path are
    computed against the new tree ([null] counting as the empty object);
    [updateEntry] with text that does not parse throws and changes nothing;
    after [deleteEntry] the path is untracked again and its diffs are computed
    against the empty object. Neither touches the baseline of another path. *)
Theorem store_entry_is_the_baseline (fileUri : Uri) (w : World) :
  (∀ text jsonObject,
     JSON_parse text = Ok jsonObject →
     fst (updateEntry fileUri text w) = Ok tt
     ∧ ∀ later newJsonObject,
         JSON_parse later = Ok newJsonObject →
         fst (getTranslationFileDiffs fileUri later (snd (updateEntry fileUri text w)))
         = Ok (diffJsonObjects (nullish_coalesce (Some jsonObject) (VObject []))
                 newJsonObject))
  ∧ (∀ text e, JSON_parse text = Throw e → updateEntry fileUri text w = (Throw e, w))
  ∧ (fst (deleteEntry fileUri w) = Ok tt
     ∧ ∀ later newJsonObject,
         JSON_parse later = Ok newJsonObject →
         fst (getTranslationFileDiffs fileUri later (snd (deleteEntry fileUri w)))
         = Ok (diffJsonObjects (VObject []) newJsonObject))
  ∧ ∀ other later text,
      fsPath other ≠ fsPath fileUri →
      fst (getTranslationFileDiffs other later (snd (updateEntry fileUri text w)))
      = fst (getTranslationFileDiffs other later w)
      ∧ fst (getTranslationFileDiffs other later (snd (deleteEntry fileUri w)))
        = fst (getTranslationFileDiffs other later w).
Proof.
  split; [| split; [| split]].
  - intros text jsonObject Hparse.
    unfold updateEntry, bind, lift, modify, log. rewrite Hparse. cbn [fst snd].
    split; [reflexivity |]. intros later newJsonObject Hlater.
    rewrite getTranslationFileDiffs_run, Hlater. simpl.
    rewrite lookup_insert_eq. reflexivity.
  - intros text e Hparse. unfold updateEntry, bind, lift. rewrite Hparse. reflexivity.
  - split; [reflexivity |]. intros later newJsonObject Hlater.
    rewrite getTranslationFileDiffs_run, Hlater. simpl.
    rewrite lookup_delete_eq. reflexivity.
  - intros other later text Hne. rewrite !getTranslationFileDiffs_run. cbn [fst].
    split.
    + unfold updateEntry, bind, lift, modify, log.
      destruct (JSON_parse text); [| reflexivity]. simpl.
      rewrite lookup_insert_ne by congruence. reflexivity.
    + simpl. rewrite lookup_delete_ne by congruence. reflexivity.
Qed.

Lemma store_entry_is_the_baseline_witness :
  fst (getTranslationFileDiffs en_common (JsonText en_save_cancel 2 true)
         (snd (updateEntry en_common (JsonText en_save 2 true) empty_world)))
  = Ok [DiffNew [KString "common"; KString "cancel"] (VString "Cancel")]
  ∧ updateEntry en_common broken_text empty_world
    = (Throw (SyntaxError "Expected property name or '}' in JSON at position 2"), empty_world).
Proof.
  split.
  - rewrite (proj2 (proj1 (store_entry_is_the_baseline en_common empty_world)
                      (JsonText en_save 2 true) en_save eq_refl)
               (JsonText en_save_cancel 2 true) en_save_cancel eq_refl).
    vm_compute. reflexivity.
  - apply (proj1 (proj2 (store_entry_is_the_baseline en_common empty_world))).
    reflexivity.
Defined.

(** ** BaseActionModule: the chain *)

Lemma run_in_order_app {ModuleContext R : Type} (before after : list (ModuleContext → M R))
    (context : ModuleContext) :
  ∀ w, run_in_order (before ++ after) context w =
       match run_in_order before context w with
       | (Ok _, w1) => run_in_order after context w1
       | (Throw e, w1) => (Throw e, w1)
       end.
Proof.
  induction before as [| logic rest IH]; intros w; [reflexivity |].
  simpl. unfold bind. destruct (logic context w) as [[r | e] w1]; [apply IH | reflexivity].
Qed.

Lemma execute_run_in_order {ModuleContext R : Type} :
  ∀ (m : ActionModule ModuleContext R) (context : ModuleContext) (w : World),
    execute m context w = run_in_order (chain_logics m) context w.
Proof.
  fix IH 1. intros [logic next] context w. simpl. unfold bind.
  destruct (logic context w) as [[r | e] w1]; [| reflexivity].
  destruct next as [nextModule |]; [apply IH | reflexivity].
Qed.

(** X17: [execute] runs the logic of the module and of every module after
    it, one after the other in the order of the chain and on the same
    context; the first logic that throws ends the run with its exception, and
    no module after it is run. *)
Theorem execute_runs_chain_in_order {ModuleContext R : Type}
    (m : ActionModule ModuleContext R) (context : ModuleContext) (w : World) :
  execute m context w = run_in_order (chain_logics m) context w
  ∧ ∀ before logic after w1 e w2,
      chain_logics m = before ++ logic :: after →
      run_in_order before context w = (Ok tt, w1) →
      logic context w1 = (Throw e, w2) →
      execute m context w = (Throw e, w2).
Proof.
  split; [apply execute_run_in_order |].
  intros before logic after w1 e w2 Hchain Hbefore Hthrow.
  rewrite execute_run_in_order, Hchain, run_in_order_app, Hbefore.
  simpl. unfold bind. rewrite Hthrow. reflexivity.
Qed.

Lemma execute_runs_chain_in_order_witness :
  execute throwing_module tt empty_world = (Throw (TypeError "not a function"), empty_world).
Proof.
  apply (proj2 (execute_runs_chain_in_order throwing_module tt empty_world)
           [] (fun _ => throw (TypeError "not a function"))
           [fun _ => log INFO "second module" ;; ret true] empty_world).
  - reflexivity.
  - reflexivity.
  - reflexivity.
Defined.

(** ** FileWatcherCreator: the watchers *)

Lemma fire_single_listener (listener : Uri → M unit) (uri : Uri) (w : World) :
  fire_listeners [listener] uri w = listener uri w.
Proof.
  simpl. unfold bind, ret. destruct (listener uri w) as [[[] | e] w1]; reflexivity.
Qed.

(** X18: [createFileWatchersForFilesMatchingGlobAsync] answers one watcher
    for every file found, in the order of the files; each watches the path of
    its own file, not the glob. A change event of a watcher is handled by the
    handler the factory knows for the path of the watched file, unless a
    disable flag is up or the factory knows no handler: then nothing
    happens. *)
Theorem one_watcher_per_file (findFiles : string → string → list Uri)
    (createFileChangeHandler : string → option (Uri → M unit))
    (exclude pattern : string) (disableFlags : list (World → bool)) :
  watchedPattern
    <$> createFileWatchersForFilesMatchingGlobAsync findFiles createFileChangeHandler
          exclude pattern disableFlags
  = fsPath <$> findFiles pattern exclude
  ∧ ∀ fileWatcher uri w,
      fileWatcher ∈ createFileWatchersForFilesMatchingGlobAsync findFiles
                      createFileChangeHandler exclude pattern disableFlags →
      fireDidChange fileWatcher uri w
      = if existsb (fun flag => flag w) disableFlags then (Ok tt, w)
        else match createFileChangeHandler (watchedPattern fileWatcher) with
             | Some handleFileChangeAsync => handleFileChangeAsync uri w
             | None => (Ok tt, w)
             end.
Proof.
  unfold createFileWatchersForFilesMatchingGlobAsync. split.
  - rewrite <- list_fmap_compose. reflexivity.
  - intros fileWatcher uri w Hin.
    apply list_elem_of_fmap in Hin as (fileURI & -> & _).
    unfold fireDidChange. simpl changeListeners. rewrite fire_single_listener.
    unfold onDidChange, bind, get_world. simpl.
    destruct (existsb (fun flag => flag w) disableFlags); [reflexivity |].
    simpl. destruct (createFileChangeHandler (fsPath fileURI)); reflexivity.
Qed.

Lemma one_watcher_per_file_witness :
  fireDidChange (createFileWatcherForFile (fsPath fr_common)
                   (onDidChange [fun w => bool_decide (fsPath fr_common ∈ fileLocks w)]
                      (Some logging_handler)))
    fr_common locked_world
  = (Ok tt, locked_world).
Proof.
  rewrite (proj2 (one_watcher_per_file (fun _ _ => [fr_common])
                    (fun _ => Some logging_handler) exclude_node_modules_and_next
                    "**/locales/**/*.json"
                    [fun w => bool_decide (fsPath fr_common ∈ fileLocks w)])
             (createFileWatcherForFile (fsPath fr_common)
                (onDidChange [fun w => bool_decide (fsPath fr_common ∈ fileLocks w)]
                   (Some logging_handler)))
             fr_common locked_world).
  - vm_compute. reflexivity.
  - left.
Defined.

(** ** environmentUtilities *)

(** X19: the environment is production unless [NODE_ENV] names another
    one: it is production exactly when [NODE_ENV] is not set, is the string
    ['undefined'] or is ['production'], and development exactly when
    [NODE_ENV] is ['development']. It is never both, and [getEnvironment]
    never answers ['undefined']. *)
Theorem environment_defaults_to_production (NODE_ENV : option string) :
  (isProduction NODE_ENV = true
   ↔ NODE_ENV = None ∨ NODE_ENV = Some "undefined" ∨ NODE_ENV = Some "production")
  ∧ (isDevelopment NODE_ENV = true ↔ NODE_ENV = Some "development")
  ∧ (isDevelopment NODE_ENV && isProduction NODE_ENV = false)
  ∧ getEnvironment NODE_ENV ≠ "undefined".
Proof.
  unfold isProduction, isDevelopment, getEnvironment.
  destruct NODE_ENV as [v |]; [destruct (decide (v = "undefined")) as [-> | Hv] |].
  - split; [| split; [| split]]; [| | reflexivity | discriminate].
    + split; [auto | reflexivity].
    + split; discriminate.
  - rewrite (bool_decide_eq_true_2 _ Hv). rewrite !bool_decide_eq_true.
    split; [| split; [| split]]; [| | | exact Hv].
    + split; [intros ->; auto | intros [H | [H | H]]; congruence].
    + split; congruence.
    + repeat case_bool_decide; try reflexivity. congruence.
  - split; [| split; [| split]]; [| | reflexivity | discriminate].
    + split; [auto | reflexivity].
    + split; discriminate.
Qed.

(** ** I18nextScannerService: the sources to scan *)

(** X20: the sources handed to the scanner are, for [n] code locations,
    [2 n + 1] globs: first the TypeScript files of each location, then, in
    the same order, the exclusion of the spec files of each location, and
    last the exclusion of [node_modules]. Without any code location the
    exclusion of [node_modules] is the only source. *)
Theorem scanSources_layout (codeFileLocations : list string) :
  length (scanSources codeFileLocations) = (2 * length codeFileLocations + 1)%nat
  ∧ last (scanSources codeFileLocations) = Some "!node_modules/**"
  ∧ ∀ i location,
      codeFileLocations !! i = Some location →
      scanSources codeFileLocations !! i = Some (location +:+ "/**/*.{ts,tsx}")
      ∧ scanSources codeFileLocations !! (length codeFileLocations + i)%nat
        = Some ("!" +:+ location +:+ "/**/*.spec.{ts,tsx}").
Proof.
  unfold scanSources. split; [| split].
  - rewrite !length_app, !length_fmap. simpl. lia.
  - rewrite !app_assoc. apply last_snoc.
  - intros i location Hi.
    assert (i < length codeFileLocations)%nat as Hlt by (eapply lookup_lt_Some; eauto).
    split.
    + rewrite lookup_app_l by (rewrite length_fmap; exact Hlt).
      rewrite list_lookup_fmap, Hi. reflexivity.
    + rewrite lookup_app_r by (rewrite length_fmap; lia).
      rewrite length_fmap.
      replace (length codeFileLocations + i - length codeFileLocations)%nat with i by lia.
      rewrite lookup_app_l by (rewrite length_fmap; exact Hlt).
      rewrite list_lookup_fmap, Hi. reflexivity.
Qed.

Lemma scanSources_layout_witness :
  scanSources ["src"; "apps/web"] !! 1%nat = Some "apps/web/**/*.{ts,tsx}"
  ∧ scanSources ["src"; "apps/web"] !! 3%nat = Some "!apps/web/**/*.spec.{ts,tsx}".
Proof.
  apply (proj2 (proj2 (scanSources_layout ["src"; "apps/web"])) 1%nat "apps/web").
  reflexivity.
Defined.

(** ** What reaches applyDiffsToJSON *)

(** X21: the table the translation phase builds from the relevant changes
    of a diff holds Added and Edited entries only, each of them one of the
    relevant changes with another new value. A deletion in the triggering
    file is therefore never handed to [applyDiffsToJSON]: its branch for
    kind ['D'], the only one that calls [unset], is not reached from an
    event. *)
Theorem translation_table_holds_no_deletion (sourceLanguage : string)
    (diffs : list Change) (targetFiles : list Uri) (w w' : World)
    (table : gmap string (list Change)) :
  translateChanges sourceLanguage (extractRelevantChanges diffs) targetFiles w
  = (Ok table, w') →
  ∀ language row entry,
    table !! language = Some row →
    entry ∈ row →
    (kind entry = KindN ∨ kind entry = KindE)
    ∧ ∃ change, change ∈ diffs ∧ kind entry = kind change ∧ path entry = path change
                ∧ lhs entry = lhs change.
Proof.
  intros Hrun language row entry Hrow Hentry.
  pose (P := fun d : Change =>
               (kind d = KindN ∨ kind d = KindE)
               ∧ ∃ change, change ∈ diffs ∧ kind d = kind change ∧ path d = path change
                           ∧ lhs d = lhs change).
  assert (Forall P row) as Hall.
  { apply (translateChanges_loop_table P sourceLanguage (extractRelevantChanges diffs)
             targetFiles) with (table := ∅) (table' := table) (w := w) (w' := w')
                               (language := language).
    - intros change r Hchange. exact Hchange.
    - apply Forall_forall. intros change Hchange.
      unfold extractRelevantChanges in Hchange.
      apply list_elem_of_filter in Hchange as [Hrel Hin].
      split; [apply is_relevant_kind; exact Hrel |]. exists change. auto.
    - intros l r Hl. rewrite lookup_empty in Hl. discriminate.
    - exact Hrun.
    - exact Hrow. }
  rewrite Forall_forall in Hall. exact (Hall entry Hentry).
Qed.

Lemma translation_table_holds_no_deletion_witness :
  (kind (with_rhs greeting_edit (Some (VString "bonjour"))) = KindN
   ∨ kind (with_rhs greeting_edit (Some (VString "bonjour"))) = KindE)
  ∧ ∃ change,
      change ∈ [DiffDeleted [KString "a"; KString "c"] (VString "bye"); greeting_edit]
      ∧ kind (with_rhs greeting_edit (Some (VString "bonjour"))) = kind change
      ∧ path (with_rhs greeting_edit (Some (VString "bonjour"))) = path change
      ∧ lhs (with_rhs greeting_edit (Some (VString "bonjour"))) = lhs change.
Proof.
  refine (translation_table_holds_no_deletion "en"
            [DiffDeleted [KString "a"; KString "c"] (VString "bye"); greeting_edit]
            [web_fr; admin_fr] two_french_files_world
            (snd (translateChanges "en" [greeting_edit] [web_fr; admin_fr]
                    two_french_files_world))
            {[ "fr" := [with_rhs greeting_edit (Some (VString "bonjour"))] ]}
            _ "fr" [with_rhs greeting_edit (Some (VString "bonjour"))]
            (with_rhs greeting_edit (Some (VString "bonjour"))) _ _).
  - vm_compute. reflexivity.
  - vm_compute. reflexivity.
  - left.
Defined.

(** ** The locks of the apply phase *)

(** X22: the apply phase schedules one release for each file it writes,
    and no other, and writes no file twice. The paths written are paths of
    target files that were not locked and held JSON; each was rewritten once
    (see [rewritten]) and is locked at the end; any other path has the text
    and the store entry it had. The locks at the end are those of the start,
    those of the files written and, when the phase ended with a write the
    file system refused, the lock taken before that write, for which no
    release is scheduled. When the phase completes, the locks added and the
    releases scheduled are the same paths. As the timers run after the
    event, a file is written at most once, even when the list of target
    files names it twice: the second turn finds the lock taken before the
    first write and passes the file over. *)
Theorem apply_phase_writes_each_file_once (table : gmap string (list Change))
    (indentation : nat) (targetFiles : list Uri) (w : World) :
  ∃ written,
    lockReleaseTimers (snd (applyTranslationsToFiles targetFiles table indentation w))
    = lockReleaseTimers w ++ written
    ∧ NoDup written
    ∧ (∀ name, name ∈ written →
         ∃ fileUri,
           fileUri ∈ targetFiles ∧ fsPath fileUri = name
           ∧ rewritten table indentation fileUri w
               (snd (applyTranslationsToFiles targetFiles table indentation w)))
    ∧ (∀ name, name ∉ written →
         files (snd (applyTranslationsToFiles targetFiles table indentation w)) !! name
         = files w !! name
         ∧ translationFileContents
             (snd (applyTranslationsToFiles targetFiles table indentation w)) !! name
           = translationFileContents w !! name)
    ∧ (∀ name,
         name ∈ fileLocks (snd (applyTranslationsToFiles targetFiles table indentation w))
         ↔ name ∈ fileLocks w
           ∨ name ∈ written
           ∨ ∃ fileUri e,
               fileUri ∈ targetFiles ∧ fsPath fileUri = name
               ∧ refused table indentation fileUri e w
                   (snd (applyTranslationsToFiles targetFiles table indentation w))
               ∧ fst (applyTranslationsToFiles targetFiles table indentation w) = Throw e)
    ∧ (fst (applyTranslationsToFiles targetFiles table indentation w) = Ok tt →
       fileLocks (snd (applyTranslationsToFiles targetFiles table indentation w))
       = fileLocks w ∪ list_to_set written).
Proof.
  destruct (applyTranslationsToFiles_account table indentation targetFiles w)
    as (written & _ & _ & Htimers & Hnodup & Hin & Hout & _).
  assert (∀ name,
            name ∈ fileLocks (snd (applyTranslationsToFiles targetFiles table indentation w))
            ↔ name ∈ fileLocks w
              ∨ name ∈ written
              ∨ ∃ fileUri e,
                  fileUri ∈ targetFiles ∧ fsPath fileUri = name
                  ∧ refused table indentation fileUri e w
                      (snd (applyTranslationsToFiles targetFiles table indentation w))
                  ∧ fst (applyTranslationsToFiles targetFiles table indentation w)
                    = Throw e) as Hlocks.
  { intros name. destruct (decide (name ∈ written)) as [Hw | Hw].
    - split; [intros _; right; left; exact Hw |]. intros _.
      destruct (Hin name Hw) as (f & _ & <- & text & fc & applied & H). tauto.
    - destruct (Hout name Hw) as [(_ & _ & Hiff) | Hrefused].
      + split; [intros Hl; left; apply Hiff; exact Hl |].
        intros [Hl | [Hl | (f & e & _ & <- & (text & fc & applied & H) & _)]];
          [apply Hiff; exact Hl | contradiction | tauto].
      + split; [intros _; right; right; exact Hrefused |]. intros _.
        destruct Hrefused as (f & e & _ & <- & (text & fc & applied & H) & _). tauto. }
  exists written. split; [exact Htimers |]. split; [exact Hnodup |].
  split; [exact Hin |]. split; [| split; [exact Hlocks |]].
  - intros name Hw.
    destruct (Hout name Hw)
      as [(Hf & Hs & _) | (f & e & _ & <- & (text & fc & applied & H) & _)]; [auto | tauto].
  - intros Hok. apply set_eq. intros name.
    rewrite Hlocks, elem_of_union, elem_of_list_to_set.
    split; [| tauto].
    intros [Hl | [Hl | (f & e & _ & _ & _ & Hthrow)]]; [tauto | tauto |].
    rewrite Hok in Hthrow. discriminate.
Qed.
